(** * HILA field storage (CPU backend): a shallow embedding

    Source: [programs/plumbing/backend_cpu/field_storage_backend.h].

    The C++ class template [field_storage<T>] owns one raw buffer
    ([void *fieldbuf]) and is compiled in one of two layouts, selected by
    the preprocessor symbol [layout_SOA].  The embedding keeps the shape of
    the source:

    - memory is a heap of [malloc]ed blocks holding bytes; a pointer is
      null or the base of a block;
    - a value of the element type [T] is its object representation, a list
      of [sizeof(T)] bytes;
    - every method is a function of the storage object and the heap whose
      result is either a normal return or a failure: a failed [assert], a
      call of [exit], or undefined behaviour (an access outside a live
      block, a null dereference, a signed overflow);
    - [int] arithmetic is done in [Z] and checked against the 32-bit range,
      [size_t] arithmetic wraps modulo [2^64];
    - assertions are compiled in ([NDEBUG] is not defined); the OpenACC
      pragmas have no effect on the host. *)

From Stdlib Require Import ZArith Lia List.
From Stdlib Require Import Init.Byte.
From stdpp Require Import base option list gmap.

Local Open Scope Z_scope.

(** ** Outcomes of a call *)

Inductive failure : Type :=
| AssertionFailed            (* assert(...) evaluated to false *)
| Exit (code : Z)            (* exit(code) *)
| Undefined.                 (* undefined behaviour *)

Inductive result (A : Type) : Type :=
| Ok (a : A)
| Fail (f : failure).

Arguments Ok {A} a.
Arguments Fail {A} f.

#[global] Instance result_ret : MRet result := fun A a => Ok a.
#[global] Instance result_bind : MBind result := fun A B k r =>
  match r with
  | Ok a => k a
  | Fail f => Fail f
  end.

Definition of_option {A : Type} (o : option A) : result A :=
  match o with
  | Some a => Ok a
  | None => Fail Undefined
  end.

Definition assert (b : bool) : result unit :=
  if b then Ok tt else Fail AssertionFailed.

(** A call that ends in a diagnosed abort: a failed assertion or [exit]. *)
Definition aborted {A : Type} (r : result A) : Prop :=
  match r with
  | Fail AssertionFailed | Fail (Exit _) => True
  | Ok _ | Fail Undefined => False
  end.

(** ** Machine integers *)

Definition INT_MIN : Z := - 2 ^ 31.
Definition INT_MAX : Z := 2 ^ 31 - 1.
Definition SIZE_MODULUS : Z := 2 ^ 64.

(** The value of an [int] expression: overflow is undefined. *)
Definition int_val (z : Z) : result Z :=
  if (INT_MIN <=? z) && (z <=? INT_MAX) then Ok z else Fail Undefined.

(** Conversion of an [unsigned] to [int] (an index of the [std::vector<unsigned>]
    stored in an [int], or passed for an [int] parameter). *)
Definition int_of_unsigned (u : Z) : Z :=
  if u <=? INT_MAX then u else u - 2 ^ 32.

(** A product computed in [size_t]. *)
Definition size_mul (a b : Z) : Z := (a * b) mod SIZE_MODULUS.

(** ** Bytes in a block *)

Definition in_bounds (off n len : Z) : bool :=
  (0 <=? off) && (0 <=? n) && (off + n <=? len).

Definition read_bytes (buf : list byte) (off n : Z) : option (list byte) :=
  if in_bounds off n (Z.of_nat (length buf))
  then Some (take (Z.to_nat n) (drop (Z.to_nat off) buf))
  else None.

Definition write_bytes (buf : list byte) (off : Z) (data : list byte)
  : option (list byte) :=
  if in_bounds off (Z.of_nat (length data)) (Z.of_nat (length buf))
  then Some (take (Z.to_nat off) buf ++ data
             ++ drop (Z.to_nat off + length data) buf)
  else None.

(** ** The heap *)

Definition block := positive.
Definition ptr := option block.          (* [None] is [nullptr] *)
Abbreviation heap := (gmap positive (list byte)).

Definition load (p : ptr) (off n : Z) (h : heap) : result (list byte) :=
  b ← of_option p;
  buf ← of_option (h !! b);
  of_option (read_bytes buf off n).

Definition store (p : ptr) (off : Z) (data : list byte) (h : heap)
  : result heap :=
  b ← of_option p;
  buf ← of_option (h !! b);
  buf' ← of_option (write_bytes buf off data);
  Ok (<[b := buf']> h).

(** [malloc(n)]: the allocator either fails and returns [nullptr]
    ([fill = None]) or returns a fresh block of [n] bytes whose contents are
    indeterminate: they are taken from [fill]. *)
Definition malloc (n : Z) (fill : option (list byte)) (h : heap) : ptr * heap :=
  match fill with
  | None => (None, h)
  | Some junk =>
      let b := fresh (dom h) in
      (Some b, <[b := resize (Z.to_nat n) x00 junk]> h)
  end.

(** [free(p)] for a non-null [p]: the block must be live. *)
Definition free (b : block) (h : heap) : result heap :=
  match h !! b with
  | Some _ => Ok (delete b h)
  | None => Fail Undefined
  end.

(** ** The storage object *)

Inductive layout : Type :=
| AoS      (* [#ifndef layout_SOA]: array of structures *)
| SoA.     (* [#else]: structure of arrays *)

Record field_storage : Type := { fieldbuf : ptr }.

(** Modelled from the spec: the class declaration ([field_storage.h]) is not
    part of the sources; a storage that was never allocated holds a null
    buffer pointer. *)
Definition new_storage : field_storage := {| fieldbuf := None |}.

(** Modelled from the spec: [lattice_struct] ([lattice.h]) is not part of the
    sources; the storage only uses its total local allocation size (real and
    ghost sites). *)
Record lattice_struct : Type := { field_alloc_size : Z }.

(** Modelled from the spec: the boundary-condition tag a field carries for a
    direction. *)
Inductive boundary_condition : Type := PERIODIC | ANTIPERIODIC.

(** Modelled from the spec: the sign bit of an IEEE scalar is the top bit of
    its most significant byte. *)
Definition flip_top_bit (x : byte) : byte :=
  let '(b0, (b1, (b2, (b3, (b4, (b5, (b6, b7))))))) := Byte.to_bits x in
  Byte.of_bits (b0, (b1, (b2, (b3, (b4, (b5, (b6, negb b7))))))).

(** Modelled from the spec: the assignment of global coordinates to
    partitions and local indices, and the allocation size of every
    partition. *)
Record partition_map : Type := {
  n_parts : nat;
  owner : Z → nat;
  local_index : Z → Z;
  part_alloc_size : nat → Z;
}.

(** Modelled from the spec: the halo index set of a field for one direction
    and parity ([lattice.h], [field.h]): the ordered list of ghost slots,
    the boundary sites of the neighbouring partition that they mirror, in
    the same order, and whether the step between them crosses the global
    wraparound. *)
Record halo_set : Type := {
  ghost_sites : list Z;
  boundary_sites : list Z;
  wraparound : bool;
}.

(** Modelled from the spec: the communication layer is not part of the
    sources; the network is the log of the buffers that were transferred. *)
Definition network : Type := list (list byte).

(** Modelled from the spec: the enumerations [direction] and [parity]
    ([defs.h]) are not part of the sources; the storage passes them on
    without looking at them. *)
Inductive direction : Type := XUP | YUP | ZUP | TUP | TDOWN | ZDOWN | YDOWN | XDOWN.
Inductive parity : Type := EVEN | ODD | ALL.

Section Storage.

(** [sizeof(T)] and [sizeof(real_t)]. *)
Variables sizeof_T sizeof_real_t : Z.

(** [sizeof(T) / sizeof(real_t)], the loop bound of the
    structure-of-arrays accessors ([t_elements] in [allocate_field]). *)
Definition t_elements : Z := sizeof_T / sizeof_real_t.

(** *** Array of structures *)

Definition get_aos (st : field_storage) (i field_alloc_size : Z) (h : heap)
  : result (list byte) :=
  load (fieldbuf st) (i * sizeof_T) sizeof_T h.

Definition set_aos (st : field_storage) (value : list byte)
           (i field_alloc_size : Z) (h : heap) : result heap :=
  x ← of_option (read_bytes value 0 sizeof_T);
  store (fieldbuf st) (i * sizeof_T) x h.

(** *** Structure of arrays *)

(** The index expression [e*field_alloc_size + i], computed in [int]. *)
Definition soa_index (e field_alloc_size i : Z) : result Z :=
  k ← int_val (e * field_alloc_size);
  int_val (k + i).

(** [n] iterations of the loop of [get] from counter [e];
    [value] is the local being filled through [value_f]. *)
Fixpoint get_soa_loop (st : field_storage) (i field_alloc_size : Z) (h : heap)
         (n : nat) (e : Z) (value : list byte) : result (list byte) :=
  match n with
  | O => Ok value
  | S n' =>
      k ← soa_index e field_alloc_size i;
      x ← load (fieldbuf st) (k * sizeof_real_t) sizeof_real_t h;
      value' ← of_option (write_bytes value (e * sizeof_real_t) x);
      get_soa_loop st i field_alloc_size h n' (e + 1) value'
  end.

(** [value0] is the content of the local [T value;] before the loop. *)
Definition get_soa (st : field_storage) (i field_alloc_size : Z)
           (value0 : list byte) (h : heap) : result (list byte) :=
  _ ← assert (i <? field_alloc_size);
  get_soa_loop st i field_alloc_size h (Z.to_nat t_elements) 0 value0.

Fixpoint set_soa_loop (st : field_storage) (value : list byte)
         (i field_alloc_size : Z) (n : nat) (e : Z) (h : heap) : result heap :=
  match n with
  | O => Ok h
  | S n' =>
      x ← of_option (read_bytes value (e * sizeof_real_t) sizeof_real_t);
      k ← soa_index e field_alloc_size i;
      h' ← store (fieldbuf st) (k * sizeof_real_t) x h;
      set_soa_loop st value i field_alloc_size n' (e + 1) h'
  end.

Definition set_soa (st : field_storage) (value : list byte)
           (i field_alloc_size : Z) (h : heap) : result heap :=
  _ ← assert (i <? field_alloc_size);
  set_soa_loop st value i field_alloc_size (Z.to_nat t_elements) 0 h.

(** *** The accessors of the compiled layout *)

Definition get (ly : layout) (st : field_storage) (i field_alloc_size : Z)
           (value0 : list byte) (h : heap) : result (list byte) :=
  match ly with
  | AoS => get_aos st i field_alloc_size h
  | SoA => get_soa st i field_alloc_size value0 h
  end.

Definition set (ly : layout) (st : field_storage) (value : list byte)
           (i field_alloc_size : Z) (h : heap) : result heap :=
  match ly with
  | AoS => set_aos st value i field_alloc_size h
  | SoA => set_soa st value i field_alloc_size h
  end.

(** *** Allocation *)

(** The argument of [malloc]. *)
Definition alloc_request (ly : layout) (lattice : lattice_struct) : Z :=
  match ly with
  | AoS => size_mul sizeof_T (field_alloc_size lattice)
  | SoA => size_mul (size_mul t_elements sizeof_real_t) (field_alloc_size lattice)
  end.

Definition allocate_field (ly : layout) (fill : option (list byte))
           (lattice : lattice_struct) (st : field_storage) (h : heap)
  : result (field_storage * heap) :=
  let '(p, h') := malloc (alloc_request ly lattice) fill h in
  match p with
  | None => Fail (Exit 1)     (* after printing the failure message *)
  | Some _ => Ok ({| fieldbuf := p |}, h')
  end.

Definition free_field (st : field_storage) (h : heap)
  : result (field_storage * heap) :=
  h' ← match fieldbuf st with
       | Some b => free b h
       | None => Ok h
       end;
  Ok ({| fieldbuf := None |}, h').

(** *** Well-formed states *)

(** The number of bytes a storage of [fas] elements occupies. *)
Definition alloc_bytes (ly : layout) (fas : Z) : Z :=
  match ly with
  | AoS => sizeof_T * fas
  | SoA => t_elements * sizeof_real_t * fas
  end.

(** [fieldbuf] points to a live block of that size. *)
Definition allocated (ly : layout) (st : field_storage) (h : heap) (fas : Z)
  : Prop :=
  match fieldbuf st with
  | Some b =>
      match h !! b with
      | Some buf => Z.of_nat (length buf) = alloc_bytes ly fas
      | None => False
      end
  | None => False
  end.

(** The scalar indices [e*field_alloc_size + i] of the structure-of-arrays
    accessors are computed in [int]: the scalar count must fit. *)
Definition addressable (ly : layout) (fas : Z) : Prop :=
  match ly with
  | AoS => True
  | SoA => t_elements * fas <= INT_MAX + 1
  end.

(** An object of type [T]. *)
Definition is_value (v : list byte) : Prop := Z.of_nat (length v) = sizeof_T.

(** What [get] returns for a site whose last [set] stored [v]: the
    structure-of-arrays accessors move [t_elements] whole scalars, the
    remaining bytes of the local [value] keep their initial content. *)
Definition readback (ly : layout) (v value0 : list byte) : list byte :=
  match ly with
  | AoS => v
  | SoA => take (Z.to_nat (t_elements * sizeof_real_t)) v
           ++ drop (Z.to_nat (t_elements * sizeof_real_t)) value0
  end.

(** *** Bulk access *)

(** The loop of [gather_elements] from position [j] on. *)
Fixpoint gather_loop (ly : layout) (st : field_storage) (buffer : ptr)
         (fas : Z) (value0 : list byte) (index_list : list Z) (j : Z)
         (h : heap) : result heap :=
  match index_list with
  | [] => Ok h
  | u :: rest =>
      let index := int_of_unsigned u in
      element ← get ly st index fas value0 h;
      x ← of_option (read_bytes element 0 sizeof_T);      (* memcpy *)
      h' ← store buffer (j * sizeof_T) x h;
      gather_loop ly st buffer fas value0 rest (j + 1) h'
  end.

Definition gather_elements (ly : layout) (st : field_storage) (buffer : ptr)
           (index_list : list Z) (lattice : lattice_struct)
           (value0 : list byte) (h : heap) : result heap :=
  gather_loop ly st buffer (field_alloc_size lattice) value0 index_list 0 h.

Fixpoint place_loop (ly : layout) (st : field_storage) (buffer : ptr)
         (fas : Z) (index_list : list Z) (j : Z) (h : heap) : result heap :=
  match index_list with
  | [] => Ok h
  | u :: rest =>
      element ← load buffer (j * sizeof_T) sizeof_T h;
      h' ← set ly st element (int_of_unsigned u) fas h;
      place_loop ly st buffer fas rest (j + 1) h'
  end.

Definition place_elements (ly : layout) (st : field_storage) (buffer : ptr)
           (index_list : list Z) (lattice : lattice_struct) (h : heap)
  : result heap :=
  place_loop ly st buffer (field_alloc_size lattice) index_list 0 h.

(** The body of [set_local_boundary_elements] is empty. *)
Definition set_local_boundary_elements (st : field_storage)
           (dir : direction) (par : parity) (lattice : lattice_struct)
           (h : heap) : result heap :=
  Ok h.

(** *** Client call sequences *)

(** A client call: [get(i)], with the initial content [value0] of the
    callee's local, or [set(value, i)]. *)
Inductive call : Type :=
| CallGet (i : Z) (value0 : list byte)
| CallSet (value : list byte) (i : Z).

(** Runs a sequence of calls and collects what the [get]s return. *)
Fixpoint run (ly : layout) (st : field_storage) (fas : Z)
         (calls : list call) (h : heap) : result (list (list byte) * heap) :=
  match calls with
  | [] => Ok ([], h)
  | CallGet i value0 :: rest =>
      v ← get ly st i fas value0 h;
      r ← run ly st fas rest h;
      Ok (v :: r.1, r.2)
  | CallSet value i :: rest =>
      h' ← set ly st value i fas h;
      run ly st fas rest h'
  end.

Definition is_get (c : call) : bool :=
  match c with
  | CallGet _ _ => true
  | CallSet _ _ => false
  end.

Definition call_ok (fas : Z) (c : call) : Prop :=
  match c with
  | CallGet i value0 => 0 <= i < fas ∧ is_value value0
  | CallSet value i => 0 <= i < fas ∧ is_value value
  end.

(** The calls that store [f i] at every listed site [i]. *)
Definition init_calls (f : Z → list byte) (sites : list Z) : list call :=
  map (λ i, CallSet (f i) i) sites.

(** An array-of-structures storage and a structure-of-arrays storage hold
    the same logical field: every site reads the same in both. *)
Definition same_field (sta : field_storage) (ha : heap)
           (sts : field_storage) (hs : heap) (fas : Z) : Prop :=
  let zero := replicate (Z.to_nat sizeof_T) x00 in
  Forall (λ i, get AoS sta i fas zero ha = get SoA sts i fas zero hs)
         (seqZ 0 fas).

(** The entries of an index list are sites of the storage. *)
Definition indices_ok (fas : Z) (index_list : list Z) : Prop :=
  Forall (λ u, 0 <= u < fas) index_list.

(** *** Boundary conditions *)

(** Modelled from the spec: the sign flip of an element made of
    little-endian IEEE scalars of [sizeof(real_t)] bytes inverts the top
    bit of the last byte of every scalar. *)
Definition flip_sign (v : list byte) : list byte :=
  imap (λ k x, if decide ((Z.of_nat k + 1) mod sizeof_real_t = 0)
               then flip_top_bit x else x) v.

(** Modelled from the spec: the transformation a field's boundary
    condition applies to a value that crosses the global wraparound. *)
Definition boundary_transform (bc : boundary_condition) (v : list byte)
  : list byte :=
  match bc with
  | PERIODIC => v
  | ANTIPERIODIC => flip_sign v
  end.

(** Modelled from the spec: the sign flip applies where the exchange
    crosses the global wraparound, and nowhere else. *)
Definition halo_transform (bc : boundary_condition) (hs : halo_set)
           (v : list byte) : list byte :=
  if wraparound hs then boundary_transform bc v else v.

(** Modelled from the spec: a copy inside one storage, through the
    accessors: for every listed pair (target, origin), in order, the value
    of the origin, transformed, is stored at the target. *)
Fixpoint copy_sites (ly : layout) (st : field_storage) (fas : Z)
         (value0 : list byte) (tr : list byte → list byte)
         (pairs : list (Z * Z)) (h : heap) : result heap :=
  match pairs with
  | [] => Ok h
  | (g, s) :: rest =>
      v ← get ly st s fas value0 h;
      h' ← set ly st (tr v) g fas h;
      copy_sites ly st fas value0 tr rest h'
  end.

(** Modelled from the spec: [start_get(direction, parity)] of the halo
    exchange ([field.h]) on the partition that owns the boundary sites:
    they are gathered through the storage into the send buffer, and the
    [L * sizeof(T)] bytes of the buffer are sent to the neighbour. *)
Definition start_get (ly : layout) (st : field_storage) (send_buffer : ptr)
           (hs : halo_set) (lattice : lattice_struct) (value0 : list byte)
           (net : network) (h : heap)
  : result (list byte * network * heap) :=
  h' ← gather_elements ly st send_buffer (boundary_sites hs) lattice value0 h;
  message ← load send_buffer 0
                 (Z.of_nat (length (boundary_sites hs)) * sizeof_T) h';
  Ok (message, net ++ [message], h').

(** Modelled from the spec: [wait(direction)] on the receiving partition:
    the receive into the temporary receive buffer completes, the buffer is
    scattered through the storage into the ghost slots of the direction,
    and the boundary-condition transformation is applied to the copied
    ghost values. *)
Definition wait (ly : layout) (st : field_storage) (receive_buffer : ptr)
           (message : list byte) (bc : boundary_condition) (hs : halo_set)
           (lattice : lattice_struct) (value0 : list byte) (h : heap)
  : result heap :=
  h1 ← store receive_buffer 0 message h;
  h2 ← place_elements ly st receive_buffer (ghost_sites hs) lattice h1;
  copy_sites ly st (field_alloc_size lattice) value0 (halo_transform bc hs)
             (zip (ghost_sites hs) (ghost_sites hs)) h2.

(** Modelled from the spec: the exchange between two partitions, the
    neighbour [st_n] with its memory [h_n] and the receiving partition [st]
    with its memory [h]. *)
Definition exchange (ly : layout) (st_n : field_storage) (send_buffer : ptr)
           (h_n : heap) (st : field_storage) (receive_buffer : ptr)
           (bc : boundary_condition) (hs : halo_set)
           (lattice : lattice_struct) (value0 : list byte)
           (net : network) (h : heap) : result (network * heap * heap) :=
  sent ← start_get ly st_n send_buffer hs lattice value0 net h_n;
  h' ← wait ly st receive_buffer sent.1.1 bc hs lattice value0 h;
  Ok (sent.1.2, sent.2, h').

(** Modelled from the spec: the degenerate case, in which the neighbour
    along the direction is the partition itself: the ghost slots are
    filled by a local copy of the transformed boundary sites, and nothing
    is sent. *)
Definition exchange_local (ly : layout) (st : field_storage)
           (bc : boundary_condition) (hs : halo_set)
           (lattice : lattice_struct) (value0 : list byte)
           (net : network) (h : heap) : result (network * heap) :=
  h' ← copy_sites ly st (field_alloc_size lattice) value0
                  (halo_transform bc hs)
                  (zip (ghost_sites hs) (boundary_sites hs)) h;
  Ok (net, h').

(** *** Partitioned fields *)

(** Modelled from the spec: the lattice partition ([lattice.h]) is not part
    of the sources.  A global coordinate is identified with its rank [g]
    in the canonical global-coordinate order, [0 <= g < volume].  A
    partition of the lattice assigns every global coordinate to one
    partition and one local index within it, and gives every partition
    its allocation size (real and ghost sites). *)
Definition partition_ok (volume : Z) (pm : partition_map) : Prop :=
  (∀ g, 0 <= g < volume →
        (owner pm g < n_parts pm)%nat
        ∧ 0 <= local_index pm g < part_alloc_size pm (owner pm g))
  ∧ (∀ g g', 0 <= g < volume → 0 <= g' < volume →
             owner pm g = owner pm g' →
             local_index pm g = local_index pm g' → g = g').

(** Modelled from the spec: every partition is an execution context of its
    own; it holds the storage of the field and its own heap. *)
Definition nodes_ok (ly : layout) (pm : partition_map)
           (nodes : list (field_storage * heap)) : Prop :=
  length nodes = n_parts pm
  ∧ ∀ (r : nat) st (h : heap),
      nodes !! r = Some (st, h) →
      allocated ly st h (part_alloc_size pm r)
      ∧ addressable ly (part_alloc_size pm r).

(** Modelled from the spec: the logical value of the field at a global
    coordinate is read from, and written to, the partition that owns it. *)
Definition site_get (ly : layout) (pm : partition_map)
           (nodes : list (field_storage * heap)) (g : Z)
           (value0 : list byte) : result (list byte) :=
  match nodes !! owner pm g with
  | Some (st, h) =>
      get ly st (local_index pm g) (part_alloc_size pm (owner pm g)) value0 h
  | None => Fail Undefined
  end.

(** Modelled from the spec: writing the logical value at a global
    coordinate updates the storage of the partition that owns it. *)
Definition site_set (ly : layout) (pm : partition_map)
           (nodes : list (field_storage * heap)) (g : Z) (v : list byte)
  : result (list (field_storage * heap)) :=
  match nodes !! owner pm g with
  | Some (st, h) =>
      h' ← set ly st v (local_index pm g)
               (part_alloc_size pm (owner pm g)) h;
      Ok (<[owner pm g := (st, h')]> nodes)
  | None => Fail Undefined
  end.

(** Modelled from the spec: a field computed from the coordinates stores
    [f g] at every listed site [g]. *)
Fixpoint fill_sites (ly : layout) (pm : partition_map) (f : Z → list byte)
         (sites : list Z) (nodes : list (field_storage * heap))
  : result (list (field_storage * heap)) :=
  match sites with
  | [] => Ok nodes
  | g :: rest =>
      nodes' ← site_set ly pm nodes g (f g);
      fill_sites ly pm f rest nodes'
  end.

(** Modelled from the spec: the whole field, every global coordinate of the
    lattice. *)
Definition fill (ly : layout) (pm : partition_map) (volume : Z)
           (f : Z → list byte) (nodes : list (field_storage * heap))
  : result (list (field_storage * heap)) :=
  fill_sites ly pm f (seqZ 0 volume) nodes.

(** Modelled from the spec: the serialized form of a field is the sequence
    of its elements in canonical global-coordinate order. *)
Fixpoint read_sites (ly : layout) (pm : partition_map)
         (nodes : list (field_storage * heap)) (value0 : list byte)
         (sites : list Z) : result (list (list byte)) :=
  match sites with
  | [] => Ok []
  | g :: rest =>
      v ← site_get ly pm nodes g value0;
      vs ← read_sites ly pm nodes value0 rest;
      Ok (v :: vs)
  end.

(** Modelled from the spec: the serialized form of the whole field. *)
Definition serialize (ly : layout) (pm : partition_map) (volume : Z)
           (nodes : list (field_storage * heap)) (value0 : list byte)
  : result (list (list byte)) :=
  read_sites ly pm nodes value0 (seqZ 0 volume).

(** Modelled from the spec: re-loading stores the [g]-th serialized
    element at the global coordinate [g]. *)
Definition deserialize (ly : layout) (pm : partition_map) (volume : Z)
           (elements : list (list byte))
           (nodes : list (field_storage * heap))
  : result (list (field_storage * heap)) :=
  fill ly pm volume (λ g, default [] (elements !! Z.to_nat g)) nodes.

End Storage.

(** ** Staggered phases

    Source: [programs/plumbing/dirac.h], [init_staggered_eta].  For every
    direction [d] and every site the loop body adds up the coordinates of
    the site in the directions below [d] in an [int] and assigns
    [(sumcoord%2)*2-1] to [staggered_eta[d][X]]; the embedding is the
    [int] value that is assigned, before its conversion to [double]. *)

(** [l[d2]] for the coordinate vector [l] of the site. *)
Definition coordinate (l : list Z) (d2 : Z) : result Z :=
  if 0 <=? d2 then of_option (l !! Z.to_nat d2) else Fail Undefined.

(** [n] iterations of [for(int d2=XUP; d2<d; d2++) sumcoord += l[d2];]
    from counter [d2]. *)
Fixpoint sum_coordinates (l : list Z) (n : nat) (d2 sumcoord : Z) : result Z :=
  match n with
  | O => Ok sumcoord
  | S n' =>
      x ← coordinate l d2;
      s ← int_val (sumcoord + x);
      sum_coordinates l n' (d2 + 1) s
  end.

(** The loop body of [init_staggered_eta] at the site with coordinates [l].
    The enumeration of the directions ([defs.h]) is not part of the
    sources: the value of its first member [XUP] is the parameter [xup]. *)
Definition staggered_eta_site (xup : Z) (l : list Z) (d : Z) : result Z :=
  sumcoord ← sum_coordinates l (Z.to_nat (d - xup)) xup 0;
  int_val (Z.rem sumcoord 2 * 2 - 1).

(** The sum of a list of integers. *)
Definition sumZ (l : list Z) : Z := foldr Z.add 0 l.

(** The coordinates of a site in the directions [xup <= d2 < d]. *)
Definition coordinates_below (xup : Z) (l : list Z) (d : Z) : list Z :=
  take (Z.to_nat (d - xup)) (drop (Z.to_nat xup) l).

(** * Properties *)

(** ** The model on small inputs

    Two sites of four bytes each, [sizeof(real_t) = 2]: the elements
    [10 11 12 13] and [20 21 22 23] in the two layouts. *)

Example get_aos_is_an_indexed_load :
  get 4 2 AoS {| fieldbuf := Some 1%positive |} 1 2 []
      {[ 1%positive := [x10; x11; x12; x13; x20; x21; x22; x23] ]}
  = Ok [x20; x21; x22; x23].
Proof. reflexivity. Qed.

Example get_soa_collects_strided_scalars :
  get 4 2 SoA {| fieldbuf := Some 1%positive |} 1 2 [x00; x00; x00; x00]
      {[ 1%positive := [x10; x11; x20; x21; x12; x13; x22; x23] ]}
  = Ok [x20; x21; x22; x23].
Proof. reflexivity. Qed.

Example set_soa_spreads_strided_scalars :
  (h ← set 4 2 SoA {| fieldbuf := Some 1%positive |} [xf0; xf1; xf2; xf3] 1 2
         {[ 1%positive := [x10; x11; x20; x21; x12; x13; x22; x23] ]};
   Ok (h !! 1%positive))
  = Ok (Some [x10; x11; xf0; xf1; x12; x13; xf2; xf3]).
Proof. reflexivity. Qed.

Example get_soa_asserts_the_upper_bound :
  get 4 2 SoA {| fieldbuf := Some 1%positive |} 2 2 [x00; x00; x00; x00]
      {[ 1%positive := [x10; x11; x20; x21; x12; x13; x22; x23] ]}
  = Fail AssertionFailed.
Proof. reflexivity. Qed.

Example get_aos_past_the_end_is_undefined :
  get 4 2 AoS {| fieldbuf := Some 1%positive |} 2 2 []
      {[ 1%positive := [x10; x11; x12; x13; x20; x21; x22; x23] ]}
  = Fail Undefined.
Proof. reflexivity. Qed.

Example get_of_a_null_buffer_is_undefined :
  get 4 2 AoS new_storage 0 2 [] ∅ = Fail Undefined.
Proof. reflexivity. Qed.

Example gather_packs_in_list_order :
  (h ← gather_elements 4 2 SoA {| fieldbuf := Some 1%positive |}
         (Some 2%positive) [1; 0] {| field_alloc_size := 2 |}
         [x00; x00; x00; x00]
         {[ 1%positive := [x10; x11; x20; x21; x12; x13; x22; x23];
            2%positive := replicate 8 x00 ]};
   Ok (h !! 2%positive))
  = Ok (Some [x20; x21; x22; x23; x10; x11; x12; x13]).
Proof. reflexivity. Qed.

Example allocate_then_free :
  (r ← allocate_field 4 2 SoA (Some []) {| field_alloc_size := 2 |}
         new_storage ∅;
   free_field r.1 r.2)
  = Ok (new_storage, ∅).
Proof. reflexivity. Qed.

Example flip_sign_of_one :
  flip_sign 4 [x00; x00; x80; x3f] = [x00; x00; x80; xbf].
Proof. reflexivity. Qed.

(** ** Bytes *)

Lemma in_bounds_spec off n len :
  in_bounds off n len = true ↔ 0 <= off ∧ 0 <= n ∧ off + n <= len.
Proof.
  unfold in_bounds. rewrite !andb_true_iff, !Z.leb_le. tauto.
Qed.

Lemma read_bytes_Some buf off n :
  0 <= off → 0 <= n → off + n <= Z.of_nat (length buf) →
  read_bytes buf off n = Some (take (Z.to_nat n) (drop (Z.to_nat off) buf)).
Proof.
  intros. unfold read_bytes.
  destruct (in_bounds off n _) eqn:E; [done|].
  assert (in_bounds off n (Z.of_nat (length buf)) = true)
    by (apply in_bounds_spec; lia).
  congruence.
Qed.

Lemma read_bytes_inv buf off n d :
  read_bytes buf off n = Some d →
  0 <= off ∧ 0 <= n ∧ off + n <= Z.of_nat (length buf)
  ∧ d = take (Z.to_nat n) (drop (Z.to_nat off) buf).
Proof.
  unfold read_bytes. destruct (in_bounds off n _) eqn:E; [|done].
  apply in_bounds_spec in E. intros [= <-]. tauto.
Qed.

Lemma read_bytes_length buf off n d :
  read_bytes buf off n = Some d → Z.of_nat (length d) = n.
Proof.
  intros (? & ? & ? & ->)%read_bytes_inv.
  rewrite length_take, length_drop. lia.
Qed.

Lemma read_bytes_all buf :
  read_bytes buf 0 (Z.of_nat (length buf)) = Some buf.
Proof.
  rewrite read_bytes_Some by lia. simpl.
  f_equal. rewrite drop_0. apply take_ge. lia.
Qed.

Lemma write_bytes_Some buf off d :
  0 <= off → off + Z.of_nat (length d) <= Z.of_nat (length buf) →
  write_bytes buf off d
  = Some (take (Z.to_nat off) buf ++ d ++ drop (Z.to_nat off + length d) buf).
Proof.
  intros. unfold write_bytes.
  destruct (in_bounds _ _ _) eqn:E; [done|].
  assert (in_bounds off (Z.of_nat (length d)) (Z.of_nat (length buf)) = true)
    by (apply in_bounds_spec; lia).
  congruence.
Qed.

Lemma write_bytes_inv buf off d buf' :
  write_bytes buf off d = Some buf' →
  0 <= off ∧ off + Z.of_nat (length d) <= Z.of_nat (length buf)
  ∧ buf' = take (Z.to_nat off) buf ++ d ++ drop (Z.to_nat off + length d) buf.
Proof.
  unfold write_bytes. destruct (in_bounds _ _ _) eqn:E; [|done].
  apply in_bounds_spec in E. intros [= <-]. tauto.
Qed.

Lemma write_bytes_length buf off d buf' :
  write_bytes buf off d = Some buf' → length buf' = length buf.
Proof.
  intros (? & ? & ->)%write_bytes_inv.
  rewrite !length_app, length_take, length_drop. lia.
Qed.

(** Byte [k] of a block after a write. *)
Lemma write_bytes_lookup buf off d buf' (k : nat) :
  write_bytes buf off d = Some buf' →
  buf' !! k =
    if decide (off <= Z.of_nat k < off + Z.of_nat (length d))
    then d !! (k - Z.to_nat off)%nat
    else buf !! k.
Proof.
  intros (? & ? & ->)%write_bytes_inv.
  assert (length (take (Z.to_nat off) buf) = Z.to_nat off) as Hlen
    by (rewrite length_take; lia).
  case_decide as Hk.
  - rewrite lookup_app_r by lia. rewrite Hlen.
    apply lookup_app_l. lia.
  - destruct (decide (Z.of_nat k < off)).
    + rewrite lookup_app_l by lia. apply lookup_take_lt. lia.
    + rewrite lookup_app_r by lia. rewrite lookup_app_r by lia.
      rewrite lookup_drop, Hlen. f_equal. lia.
Qed.

(** Byte [k] of what a read returns. *)
Lemma read_bytes_lookup buf off n d (k : nat) :
  read_bytes buf off n = Some d →
  d !! k = if decide (Z.of_nat k < n) then buf !! (Z.to_nat off + k)%nat else None.
Proof.
  intros (? & ? & ? & ->)%read_bytes_inv.
  case_decide.
  - rewrite lookup_take_lt by lia. apply lookup_drop.
  - apply lookup_take_ge. lia.
Qed.

Lemma read_bytes_ext buf1 buf2 off n :
  0 <= off → 0 <= n →
  off + n <= Z.of_nat (length buf1) → off + n <= Z.of_nat (length buf2) →
  (∀ k : nat, off <= Z.of_nat k < off + n → buf1 !! k = buf2 !! k) →
  read_bytes buf1 off n = read_bytes buf2 off n.
Proof.
  intros ? ? ? ? Hext.
  rewrite !read_bytes_Some by lia. f_equal.
  apply list_eq. intros k.
  destruct (decide (Z.of_nat k < n)).
  - rewrite !lookup_take_lt by lia. rewrite !lookup_drop. apply Hext. lia.
  - rewrite !lookup_take_ge by lia. done.
Qed.

Lemma read_write_same buf off d buf' :
  write_bytes buf off d = Some buf' →
  read_bytes buf' off (Z.of_nat (length d)) = Some d.
Proof.
  intros Hw. pose proof (write_bytes_length _ _ _ _ Hw) as Hlen.
  pose proof (write_bytes_inv _ _ _ _ Hw) as (? & ? & _).
  rewrite read_bytes_Some by lia. f_equal.
  apply list_eq. intros k.
  destruct (decide (k < length d)%nat).
  - rewrite lookup_take_lt by lia. rewrite lookup_drop.
    rewrite (write_bytes_lookup _ _ _ _ _ Hw).
    rewrite decide_True by lia. f_equal. lia.
  - rewrite lookup_take_ge by lia. symmetry. apply lookup_ge_None. lia.
Qed.

Lemma read_write_same_len buf off d buf' n :
  write_bytes buf off d = Some buf' → Z.of_nat (length d) = n →
  read_bytes buf' off n = Some d.
Proof. intros Hw <-. by apply read_write_same with buf. Qed.

Lemma read_write_disjoint buf off d buf' off' n :
  write_bytes buf off d = Some buf' →
  off' + n <= off ∨ off + Z.of_nat (length d) <= off' →
  read_bytes buf' off' n = read_bytes buf off' n.
Proof.
  intros Hw Hdisj. pose proof (write_bytes_length _ _ _ _ Hw) as Hlen.
  unfold read_bytes at 1 2. rewrite Hlen.
  destruct (in_bounds off' n _) eqn:E; [|done].
  apply in_bounds_spec in E. f_equal.
  apply list_eq. intros k.
  destruct (decide (Z.of_nat k < n)).
  - rewrite !lookup_take_lt by lia. rewrite !lookup_drop.
    rewrite (write_bytes_lookup _ _ _ _ _ Hw).
    rewrite decide_False by lia. done.
  - rewrite !lookup_take_ge by lia. done.
Qed.

(** Writing back what is there changes nothing. *)
Lemma write_read_id buf off n d :
  read_bytes buf off n = Some d → write_bytes buf off d = Some buf.
Proof.
  intros Hr. pose proof (read_bytes_length _ _ _ _ Hr) as Hlen.
  pose proof (read_bytes_inv _ _ _ _ Hr) as (? & ? & ? & _).
  rewrite write_bytes_Some by lia. f_equal.
  apply list_eq. intros k.
  assert (length (take (Z.to_nat off) buf) = Z.to_nat off) as Ht
    by (rewrite length_take; lia).
  destruct (decide (Z.of_nat k < off)).
  - rewrite lookup_app_l by lia. apply lookup_take_lt. lia.
  - rewrite lookup_app_r by lia. rewrite Ht.
    destruct (decide (Z.of_nat k < off + n)).
    + rewrite lookup_app_l by lia.
      rewrite (read_bytes_lookup _ _ _ _ _ Hr).
      rewrite decide_True by lia. f_equal. lia.
    + rewrite lookup_app_r by lia. rewrite lookup_drop. f_equal. lia.
Qed.

(** ** The result monad and the heap *)

Lemma int_val_Ok z : INT_MIN <= z <= INT_MAX → int_val z = Ok z.
Proof.
  intros [H1 H2]. unfold int_val.
  apply Z.leb_le in H1, H2. by rewrite H1, H2.
Qed.

Lemma int_val_inv z k : int_val z = Ok k → k = z ∧ INT_MIN <= z <= INT_MAX.
Proof.
  unfold int_val. destruct (_ && _) eqn:E; [|done].
  apply andb_true_iff in E as [?%Z.leb_le ?%Z.leb_le]. intros [= <-]. lia.
Qed.

Lemma int_of_unsigned_small u : 0 <= u <= INT_MAX → int_of_unsigned u = u.
Proof.
  intros [_ H]. unfold int_of_unsigned. apply Z.leb_le in H. by rewrite H.
Qed.

Lemma load_block b h buf off n :
  h !! b = Some buf →
  load (Some b) off n h = of_option (read_bytes buf off n).
Proof. intros Hb. unfold load. simpl. rewrite Hb. done. Qed.

Lemma store_block b h buf off d buf' :
  h !! b = Some buf → write_bytes buf off d = Some buf' →
  store (Some b) off d h = Ok (<[b := buf']> h).
Proof. intros Hb Hw. unfold store. simpl. rewrite Hb. simpl. rewrite Hw. done. Qed.

Lemma store_inv p off d h h' :
  store p off d h = Ok h' →
  ∃ b buf buf', p = Some b ∧ h !! b = Some buf
                ∧ write_bytes buf off d = Some buf' ∧ h' = <[b := buf']> h.
Proof.
  unfold store. destruct p as [b|]; [|done]. simpl.
  destruct (h !! b) as [buf|] eqn:Hb; [|done]. simpl.
  destruct (write_bytes buf off d) as [buf'|] eqn:Hw; [|done]. simpl.
  intros [= <-]. eauto 10.
Qed.

Lemma load_insert_ne p b buf off n (h : heap) :
  p ≠ Some b → load p off n (<[b := buf]> h) = load p off n h.
Proof.
  intros Hne. unfold load. destruct p as [b'|]; [|done]. simpl.
  rewrite lookup_insert_ne by congruence. done.
Qed.

Lemma bind_not_aborted {A B : Type} (r : result A) (k : A → result B) :
  ¬ aborted r → (∀ a, r = Ok a → ¬ aborted (k a)) → ¬ aborted (r ≫= k).
Proof.
  intros Hr Hk. destruct r as [a|f]; simpl.
  - by apply Hk.
  - exact Hr.
Qed.

Lemma of_option_not_aborted {A : Type} (o : option A) : ¬ aborted (of_option o).
Proof. destruct o; simpl; tauto. Qed.

Lemma int_val_not_aborted z : ¬ aborted (int_val z).
Proof. unfold int_val. destruct (_ && _); simpl; tauto. Qed.

Lemma load_not_aborted p off n (h : heap) : ¬ aborted (load p off n h).
Proof.
  unfold load.
  repeat (apply bind_not_aborted; [apply of_option_not_aborted | intros ? _]).
  apply of_option_not_aborted.
Qed.

Lemma store_not_aborted p off d (h : heap) : ¬ aborted (store p off d h).
Proof.
  unfold store.
  repeat (apply bind_not_aborted; [apply of_option_not_aborted | intros ? _]).
  simpl. tauto.
Qed.

(** ** Structure of arrays: the two loops *)

Section SoA_loops.

Variables sizeof_T sizeof_real_t : Z.
Variables (st : field_storage) (b : block) (fas i : Z).

Local Abbreviation elems := (t_elements sizeof_T sizeof_real_t).
Local Abbreviation sR := sizeof_real_t.

Hypothesis Hst : fieldbuf st = Some b.
Hypothesis HsR : 0 < sR.
Hypothesis Hi : 0 <= i < fas.
Hypothesis Hint : elems * fas <= INT_MAX + 1.

Lemma soa_index_Ok e :
  0 <= e < elems → soa_index e fas i = Ok (e * fas + i).
Proof.
  intros He. unfold soa_index.
  assert (0 <= e * fas ∧ e * fas + i < elems * fas) as [? ?] by nia.
  rewrite int_val_Ok by (unfold INT_MIN; lia). simpl.
  apply int_val_Ok. unfold INT_MIN. lia.
Qed.

Lemma soa_scalar_in_buffer e (len : Z) :
  0 <= e < elems → elems * sR * fas <= len →
  0 <= (e * fas + i) * sR ∧ (e * fas + i) * sR + sR <= len.
Proof.
  intros He Hlen.
  assert (0 <= e * fas + i ∧ e * fas + i + 1 <= elems * fas) as [? ?] by nia.
  assert ((e * fas + i + 1) * sR <= elems * fas * sR)
    by (apply Z.mul_le_mono_nonneg_r; lia).
  nia.
Qed.

Lemma get_soa_loop_spec (h : heap) buf :
  h !! b = Some buf →
  elems * sR * fas <= Z.of_nat (length buf) →
  ∀ (n : nat) e value,
    0 <= e → e + Z.of_nat n <= elems →
    elems * sR <= Z.of_nat (length value) →
    ∃ value',
      get_soa_loop sR st i fas h n e value = Ok value'
      ∧ length value' = length value
      ∧ (∀ e', e <= e' < e + Z.of_nat n →
               read_bytes value' (e' * sR) sR
               = read_bytes buf ((e' * fas + i) * sR) sR)
      ∧ (∀ off m, off + m <= e * sR ∨ (e + Z.of_nat n) * sR <= off →
                  read_bytes value' off m = read_bytes value off m).
Proof.
  intros Hb Hlen n. induction n as [|n IH]; intros e value He Hn Hval.
  - exists value. simpl.
    split; [done|]. split; [done|]. split; [intros; lia | done].
  - simpl get_soa_loop.
    rewrite soa_index_Ok by lia. simpl. rewrite Hst.
    destruct (soa_scalar_in_buffer e (Z.of_nat (length buf))) as [? ?];
      [lia | lia |].
    rewrite (load_block _ _ _ _ _ Hb).
    rewrite read_bytes_Some by lia.
    set (x := take (Z.to_nat sR) (drop (Z.to_nat ((e * fas + i) * sR)) buf)).
    assert (read_bytes buf ((e * fas + i) * sR) sR = Some x) as Hx
      by (apply read_bytes_Some; lia).
    pose proof (read_bytes_length _ _ _ _ Hx) as Hxlen.
    simpl.
    assert (e * sR + sR <= elems * sR) by nia.
    rewrite write_bytes_Some by lia. simpl.
    set (value1 := take (Z.to_nat (e * sR)) value ++ x ++ _).
    assert (write_bytes value (e * sR) x = Some value1) as Hw
      by (apply write_bytes_Some; lia).
    pose proof (write_bytes_length _ _ _ _ Hw) as Hl1.
    destruct (IH (e + 1) value1) as (value' & Hrun & Hl & Hin & Hout);
      [lia | lia | lia |].
    exists value'. split; [done|]. split; [congruence|]. split.
    + intros e' He'. destruct (decide (e' = e)) as [->|].
      * rewrite Hout by lia.
        rewrite (read_write_same_len _ _ _ _ _ Hw Hxlen). done.
      * apply Hin. lia.
    + intros off m Hoff. rewrite Hout by lia.
      apply (read_write_disjoint _ _ _ _ _ _ Hw). lia.
Qed.

Lemma set_soa_loop_spec value :
  elems * sR <= Z.of_nat (length value) →
  ∀ (n : nat) e (h : heap) buf,
    h !! b = Some buf →
    elems * sR * fas <= Z.of_nat (length buf) →
    0 <= e → e + Z.of_nat n <= elems →
    ∃ buf',
      set_soa_loop sR st value i fas n e h = Ok (<[b := buf']> h)
      ∧ length buf' = length buf
      ∧ (∀ e', e <= e' < e + Z.of_nat n →
               read_bytes buf' ((e' * fas + i) * sR) sR
               = read_bytes value (e' * sR) sR)
      ∧ (∀ off m,
            (∀ e', e <= e' < e + Z.of_nat n →
                   off + m <= (e' * fas + i) * sR
                   ∨ (e' * fas + i) * sR + sR <= off) →
            read_bytes buf' off m = read_bytes buf off m).
Proof.
  intros Hval n. induction n as [|n IH]; intros e h buf Hb Hlen He Hn.
  - exists buf. simpl. rewrite insert_id by done.
    split; [done|]. split; [done|]. split; [intros; lia | done].
  - simpl set_soa_loop.
    assert (e * sR + sR <= elems * sR) by nia.
    rewrite read_bytes_Some by nia. simpl.
    set (x := take (Z.to_nat sR) (drop (Z.to_nat (e * sR)) value)).
    assert (read_bytes value (e * sR) sR = Some x) as Hx
      by (apply read_bytes_Some; nia).
    pose proof (read_bytes_length _ _ _ _ Hx) as Hxlen.
    rewrite soa_index_Ok by lia. simpl. rewrite Hst.
    destruct (soa_scalar_in_buffer e (Z.of_nat (length buf))) as [? ?];
      [lia | lia |].
    assert (∃ buf1, write_bytes buf ((e * fas + i) * sR) x = Some buf1)
      as [buf1 Hw] by (eexists; apply write_bytes_Some; lia).
    rewrite (store_block _ _ _ _ _ _ Hb Hw). simpl.
    pose proof (write_bytes_length _ _ _ _ Hw) as Hl1.
    destruct (IH (e + 1) (<[b := buf1]> h) buf1)
      as (buf' & Hrun & Hl & Hin & Hout);
      [apply lookup_insert_eq | lia | lia | lia |].
    exists buf'. rewrite insert_insert_eq in Hrun.
    split; [done|]. split; [congruence|]. split.
    + intros e' He'. destruct (decide (e' = e)) as [->|].
      * rewrite Hout
          by (intros e' ?; left;
              assert (e * fas + i + 1 <= e' * fas + i) by nia; nia).
        rewrite (read_write_same_len _ _ _ _ _ Hw Hxlen). done.
      * apply Hin. lia.
    + intros off m Hoff. rewrite Hout by (intros; apply Hoff; lia).
      apply (read_write_disjoint _ _ _ _ _ _ Hw).
      rewrite Hxlen. apply Hoff. lia.
Qed.

End SoA_loops.

(** Two lists that agree on their first [n] chunks of [c] bytes agree on
    their first [n*c] bytes. *)
Lemma chunks_prefix_ext (c : Z) (l1 l2 : list byte) (n : nat) :
  0 < c →
  Z.of_nat n * c <= Z.of_nat (length l1) →
  Z.of_nat n * c <= Z.of_nat (length l2) →
  (∀ e, 0 <= e < Z.of_nat n →
        read_bytes l1 (e * c) c = read_bytes l2 (e * c) c) →
  take (Z.to_nat (Z.of_nat n * c)) l1 = take (Z.to_nat (Z.of_nat n * c)) l2.
Proof.
  intros Hc. induction n as [|n IH]; intros H1 H2 Hch.
  - done.
  - assert (Z.to_nat (Z.of_nat (S n) * c)
            = (Z.to_nat (Z.of_nat n * c) + Z.to_nat c)%nat) as -> by nia.
    rewrite <- !take_take_drop.
    rewrite IH by (try nia; intros; apply Hch; lia).
    f_equal.
    specialize (Hch (Z.of_nat n)).
    rewrite !read_bytes_Some in Hch by nia.
    assert (0 <= Z.of_nat n < Z.of_nat (S n)) as Hn by lia.
    specialize (Hch Hn). congruence.
Qed.

(** Scalars at distinct indices occupy disjoint byte ranges. *)
Lemma scalar_ranges_disjoint (a c s : Z) :
  0 < s → a ≠ c → a * s + s <= c * s ∨ c * s + s <= a * s.
Proof. intros Hs Hne. destruct (Z.lt_trichotomy a c) as [?|[?|?]]; nia. Qed.

(** The strided offsets of two distinct sites never collide. *)
Lemma strided_indices_distinct (fas i j e e' : Z) :
  0 <= i < fas → 0 <= j < fas → i ≠ j → e * fas + j ≠ e' * fas + i.
Proof.
  intros Hi Hj Hne Heq.
  destruct (Z.lt_trichotomy e e') as [?|[?|?]]; nia.
Qed.

(** ** Single-element access *)

Section Access.

Variables sizeof_T sizeof_real_t : Z.

Local Abbreviation sT := sizeof_T.
Local Abbreviation sR := sizeof_real_t.
Local Abbreviation elems := (t_elements sizeof_T sizeof_real_t).

Hypothesis HsT : 0 < sT.
Hypothesis HsR : 0 < sR.

Lemma elems_nonneg : 0 <= elems.
Proof. unfold t_elements. apply Z.div_pos; lia. Qed.

Lemma elems_bytes_le : elems * sR <= sT.
Proof. unfold t_elements. rewrite Z.mul_comm. apply Z.mul_div_le. lia. Qed.

Lemma elems_bytes_exact : sT mod sR = 0 → elems * sR = sT.
Proof.
  intros Hm. unfold t_elements.
  pose proof (Z.div_mod sT sR). lia.
Qed.

Lemma allocated_inv ly st h fas :
  allocated sT sR ly st h fas →
  ∃ b buf, fieldbuf st = Some b ∧ h !! b = Some buf
           ∧ Z.of_nat (length buf) = alloc_bytes sT sR ly fas.
Proof.
  unfold allocated. destruct (fieldbuf st) as [b|]; [|done].
  destruct (h !! b) as [buf|] eqn:Hb; [|done]. eauto.
Qed.

Lemma allocated_intro ly st (h : heap) fas b buf :
  fieldbuf st = Some b → h !! b = Some buf →
  Z.of_nat (length buf) = alloc_bytes sT sR ly fas →
  allocated sT sR ly st h fas.
Proof. intros Hst Hb Hl. unfold allocated. by rewrite Hst, Hb. Qed.

(** *** [get] returns *)

Lemma get_Ok ly st h fas i value0 :
  allocated sT sR ly st h fas → addressable sT sR ly fas →
  0 <= i < fas → is_value sT value0 →
  ∃ v, get sT sR ly st i fas value0 h = Ok v ∧ is_value sT v.
Proof.
  intros (b & buf & Hst & Hb & Hlen)%allocated_inv Haddr Hi Hv0.
  unfold is_value in *.
  destruct ly; simpl in *.
  - unfold get_aos. rewrite Hst, (load_block _ _ _ _ _ Hb).
    rewrite read_bytes_Some by nia. simpl. eexists. split; [done|].
    rewrite length_take, length_drop. nia.
  - unfold get_soa.
    assert ((i <? fas) = true) as -> by (apply Z.ltb_lt; lia). simpl.
    pose proof elems_nonneg. pose proof elems_bytes_le.
    destruct (get_soa_loop_spec sT sR st b fas i Hst HsR Hi Haddr h buf Hb)
      with (n := Z.to_nat elems) (e := 0) (value := value0)
      as (v & Hrun & Hl & _); [lia | lia | lia | lia |].
    exists v. split; [done|]. lia.
Qed.

(** The loop of [get] only depends on the scalars it reads. *)
Lemma get_soa_loop_ext st b (h1 h2 : heap) buf1 buf2 fas i :
  fieldbuf st = Some b → h1 !! b = Some buf1 → h2 !! b = Some buf2 →
  (∀ e, 0 <= e < elems →
        read_bytes buf1 ((e * fas + i) * sR) sR
        = read_bytes buf2 ((e * fas + i) * sR) sR) →
  ∀ (n : nat) e value,
    0 <= e → e + Z.of_nat n <= elems →
    get_soa_loop sR st i fas h1 n e value
    = get_soa_loop sR st i fas h2 n e value.
Proof.
  intros Hst Hb1 Hb2 Hrd n. induction n as [|n IH]; intros e value He Hn.
  - done.
  - simpl. destruct (soa_index e fas i) as [k|] eqn:Hk; [|done]. simpl.
    assert (k = e * fas + i) as ->.
    { unfold soa_index in Hk.
      destruct (int_val (e * fas)) as [k1|] eqn:Hk1; [|done]. simpl in Hk.
      apply int_val_inv in Hk1 as [-> _]. by apply int_val_inv in Hk as [-> _]. }
    rewrite Hst, (load_block _ _ _ _ _ Hb1), (load_block _ _ _ _ _ Hb2).
    rewrite Hrd by lia.
    destruct (read_bytes buf2 _ _) as [x|]; [|done]. simpl.
    destruct (write_bytes value _ x) as [value'|]; [|done]. simpl.
    apply IH; lia.
Qed.

(** *** What [set] does to the block *)

Lemma set_aos_spec st b (h : heap) buf fas i v :
  fieldbuf st = Some b → h !! b = Some buf →
  Z.of_nat (length buf) = sT * fas →
  0 <= i < fas → is_value sT v →
  ∃ buf', set_aos sT st v i fas h = Ok (<[b := buf']> h)
          ∧ write_bytes buf (i * sT) v = Some buf'.
Proof.
  intros Hst Hb Hlen Hi Hv. unfold is_value in Hv.
  unfold set_aos.
  assert (read_bytes v 0 sT = Some v) as ->
    by (rewrite <- Hv; apply read_bytes_all).
  simpl.
  assert (∃ buf', write_bytes buf (i * sT) v = Some buf') as [buf' Hw]
    by (eexists; apply write_bytes_Some; nia).
  exists buf'. rewrite Hst. by rewrite (store_block _ _ _ _ _ _ Hb Hw).
Qed.

Lemma set_soa_spec st b (h : heap) buf fas i v :
  fieldbuf st = Some b → h !! b = Some buf →
  Z.of_nat (length buf) = elems * sR * fas →
  elems * fas <= INT_MAX + 1 →
  0 <= i < fas → is_value sT v →
  ∃ buf', set_soa sT sR st v i fas h = Ok (<[b := buf']> h)
          ∧ length buf' = length buf
          ∧ (∀ e, 0 <= e < elems →
                  read_bytes buf' ((e * fas + i) * sR) sR
                  = read_bytes v (e * sR) sR)
          ∧ (∀ off m,
                (∀ e, 0 <= e < elems →
                      off + m <= (e * fas + i) * sR
                      ∨ (e * fas + i) * sR + sR <= off) →
                read_bytes buf' off m = read_bytes buf off m).
Proof.
  intros Hst Hb Hlen Haddr Hi Hv. unfold is_value in Hv.
  unfold set_soa.
  assert ((i <? fas) = true) as -> by (apply Z.ltb_lt; lia). simpl.
  pose proof elems_nonneg. pose proof elems_bytes_le.
  destruct (set_soa_loop_spec sT sR st b fas i Hst HsR Hi Haddr v)
    with (n := Z.to_nat elems) (e := 0) (h := h) (buf := buf)
    as (buf' & Hrun & Hl & Hin & Hout); [lia | done | lia | lia | lia |].
  exists buf'. split; [done|]. split; [done|]. split.
  - intros e He. apply Hin. lia.
  - intros off m Hoff. apply Hout. intros e He. apply Hoff. lia.
Qed.

(** *** [set] returns, and keeps the storage allocated *)

Lemma set_Ok ly st (h : heap) fas i v :
  allocated sT sR ly st h fas → addressable sT sR ly fas →
  0 <= i < fas → is_value sT v →
  ∃ b buf', fieldbuf st = Some b
            ∧ set sT sR ly st v i fas h = Ok (<[b := buf']> h)
            ∧ allocated sT sR ly st (<[b := buf']> h) fas.
Proof.
  intros Hal Haddr Hi Hv.
  pose proof Hal as (b & buf & Hst & Hb & Hlen)%allocated_inv.
  destruct ly; simpl in *.
  - destruct (set_aos_spec st b h buf fas i v) as (buf' & Hset & Hw); try done.
    exists b, buf'. split; [done|]. split; [done|].
    apply allocated_intro with b buf'; [done | apply lookup_insert_eq |].
    apply write_bytes_length in Hw. simpl. lia.
  - destruct (set_soa_spec st b h buf fas i v)
      as (buf' & Hset & Hl & _); try done.
    exists b, buf'. split; [done|]. split; [done|].
    apply allocated_intro with b buf'; [done | apply lookup_insert_eq |].
    simpl. lia.
Qed.

(** *** [set] then [get] at another index *)

Lemma get_set_other ly st (h h' : heap) fas i j v value0 :
  allocated sT sR ly st h fas → addressable sT sR ly fas →
  0 <= i < fas → 0 <= j < fas → i ≠ j → is_value sT v →
  set sT sR ly st v i fas h = Ok h' →
  get sT sR ly st j fas value0 h' = get sT sR ly st j fas value0 h.
Proof.
  intros (b & buf & Hst & Hb & Hlen)%allocated_inv Haddr Hi Hj Hne Hv Hset.
  destruct ly; simpl in *.
  - destruct (set_aos_spec st b h buf fas i v) as (buf' & Hset' & Hw); try done.
    rewrite Hset in Hset'. injection Hset' as ->.
    unfold get_aos. rewrite Hst.
    rewrite (load_block b _ buf') by apply lookup_insert_eq.
    rewrite (load_block b _ buf) by done.
    f_equal. apply (read_write_disjoint _ _ _ _ _ _ Hw).
    unfold is_value in Hv. nia.
  - destruct (set_soa_spec st b h buf fas i v)
      as (buf' & Hset' & Hl & _ & Hout); try done.
    rewrite Hset in Hset'. injection Hset' as ->.
    unfold get_soa. destruct (j <? fas); [|done]. simpl.
    pose proof elems_nonneg.
    apply get_soa_loop_ext with b buf' buf;
      [done | apply lookup_insert_eq | done | | lia | lia].
    intros e He. apply Hout. intros e' He'.
    apply scalar_ranges_disjoint; [done|].
    apply strided_indices_distinct; lia.
Qed.

(** *** [set] then [get] at the same index *)

Lemma readback_exact ly v value0 :
  sT mod sR = 0 → is_value sT v → is_value sT value0 →
  readback sT sR ly v value0 = v.
Proof.
  intros Hm Hv Hv0. unfold is_value in *. destruct ly; simpl; [done|].
  rewrite (elems_bytes_exact Hm).
  rewrite take_ge by lia. rewrite drop_ge by lia. apply app_nil_r.
Qed.

Lemma readback_is_value ly v value0 :
  is_value sT v → is_value sT value0 →
  is_value sT (readback sT sR ly v value0).
Proof.
  unfold is_value. intros Hv Hv0. destruct ly; simpl; [done|].
  pose proof elems_nonneg. pose proof elems_bytes_le.
  rewrite length_app, length_take, length_drop. nia.
Qed.

Lemma get_set_same ly st (h h' : heap) fas i v value0 :
  allocated sT sR ly st h fas → addressable sT sR ly fas →
  0 <= i < fas → is_value sT v → is_value sT value0 →
  set sT sR ly st v i fas h = Ok h' →
  get sT sR ly st i fas value0 h' = Ok (readback sT sR ly v value0).
Proof.
  intros (b & buf & Hst & Hb & Hlen)%allocated_inv Haddr Hi Hv Hv0 Hset.
  destruct ly; simpl in *.
  - destruct (set_aos_spec st b h buf fas i v) as (buf' & Hset' & Hw); try done.
    rewrite Hset in Hset'. injection Hset' as ->.
    unfold get_aos. rewrite Hst.
    rewrite (load_block b _ buf') by apply lookup_insert_eq.
    by rewrite (read_write_same_len _ _ _ _ _ Hw Hv).
  - destruct (set_soa_spec st b h buf fas i v)
      as (buf' & Hset' & Hl & Hin & _); try done.
    rewrite Hset in Hset'. injection Hset' as ->.
    unfold get_soa.
    assert ((i <? fas) = true) as -> by (apply Z.ltb_lt; lia). simpl.
    pose proof elems_nonneg as Hel. pose proof elems_bytes_le as Hle.
    unfold is_value in *.
    destruct (get_soa_loop_spec sT sR st b fas i Hst HsR Hi Haddr
                (<[b := buf']> h) buf')
      with (n := Z.to_nat elems) (e := 0) (value := value0)
      as (v' & Hrun & Hl' & Hin' & Hout');
      [apply lookup_insert_eq | lia | lia | lia | lia |].
    rewrite Hrun. f_equal.
    rewrite <- (take_drop (Z.to_nat (elems * sR)) v'). f_equal.
    + pose proof (chunks_prefix_ext sR v' v (Z.to_nat elems) HsR) as Hpre.
      rewrite Z2Nat.id in Hpre by lia. apply Hpre; [lia | lia |].
      intros e He. rewrite Hin' by lia. apply Hin. lia.
    + specialize (Hout' (elems * sR) (sT - elems * sR)).
      rewrite !read_bytes_Some in Hout' by lia.
      assert (∀ l : list byte, Z.of_nat (length l) = sT →
                take (Z.to_nat (sT - elems * sR))
                     (drop (Z.to_nat (elems * sR)) l)
                = drop (Z.to_nat (elems * sR)) l) as Htd
        by (intros l Hll; apply take_ge; rewrite length_drop; lia).
      rewrite !Htd in Hout' by lia.
      assert (0 + Z.of_nat (Z.to_nat elems) = elems) as Hz by lia.
      rewrite Hz in Hout'.
      specialize (Hout' (or_intror (Z.le_refl _))). congruence.
Qed.

End Access.

(** ** Accessors and the rest of the heap *)

Section Heap_frame.

Variables sizeof_T sizeof_real_t : Z.

Local Abbreviation sT := sizeof_T.
Local Abbreviation sR := sizeof_real_t.
Local Abbreviation elems := (t_elements sizeof_T sizeof_real_t).

(** [get] only reads the block of the storage. *)
Lemma get_soa_loop_heap_ext st (h1 h2 : heap) fas i :
  (∀ off n, load (fieldbuf st) off n h1 = load (fieldbuf st) off n h2) →
  ∀ (n : nat) e value,
    get_soa_loop sR st i fas h1 n e value
    = get_soa_loop sR st i fas h2 n e value.
Proof.
  intros Hext n. induction n as [|n IH]; intros e value; [done|].
  simpl. destruct (soa_index e fas i) as [k|]; [|done]. simpl.
  rewrite Hext. destruct (load _ _ _ h2) as [x|]; [|done]. simpl.
  destruct (write_bytes value _ x); [|done]. simpl. apply IH.
Qed.

Lemma get_heap_ext ly st (h1 h2 : heap) fas i value0 :
  (∀ off n, load (fieldbuf st) off n h1 = load (fieldbuf st) off n h2) →
  get sT sR ly st i fas value0 h1 = get sT sR ly st i fas value0 h2.
Proof.
  intros Hext. destruct ly; simpl.
  - apply Hext.
  - unfold get_soa. destruct (assert _); [|done]. simpl.
    by apply get_soa_loop_heap_ext.
Qed.

Lemma get_insert_other ly st (h : heap) fas i value0 b' buf' :
  fieldbuf st ≠ Some b' →
  get sT sR ly st i fas value0 (<[b' := buf']> h)
  = get sT sR ly st i fas value0 h.
Proof. intros Hne. apply get_heap_ext. intros. by apply load_insert_ne. Qed.

(** [set] only writes the block of the storage. *)
Lemma store_other_block p off d (h h' : heap) b' :
  store p off d h = Ok h' → p ≠ Some b' → h' !! b' = h !! b'.
Proof.
  intros (b & buf & buf' & -> & _ & _ & ->)%store_inv Hne.
  apply lookup_insert_ne. congruence.
Qed.

Lemma set_soa_loop_other_block st v fas i b' :
  fieldbuf st ≠ Some b' →
  ∀ (n : nat) e (h h' : heap),
    set_soa_loop sR st v i fas n e h = Ok h' → h' !! b' = h !! b'.
Proof.
  intros Hne n. induction n as [|n IH]; intros e h h'; simpl.
  - by intros [= <-].
  - destruct (read_bytes v _ _) as [x|]; [|done]. simpl.
    destruct (soa_index e fas i) as [k|]; [|done]. simpl.
    destruct (store _ _ x h) as [h1|] eqn:Hst; [|done]. simpl.
    intros Hrun. rewrite (IH _ _ _ Hrun).
    by apply store_other_block with (fieldbuf st) (k * sR) x.
Qed.

Lemma set_other_block ly st v fas i (h h' : heap) b' :
  set sT sR ly st v i fas h = Ok h' →
  fieldbuf st ≠ Some b' → h' !! b' = h !! b'.
Proof.
  intros Hset Hne. destruct ly; simpl in Hset.
  - unfold set_aos in Hset.
    destruct (read_bytes v 0 sT) as [x|]; [|done]. simpl in Hset.
    by apply store_other_block with (fieldbuf st) (i * sT) x.
  - unfold set_soa in Hset. destruct (assert _); [|done]. simpl in Hset.
    by apply set_soa_loop_other_block
      with st v fas i (Z.to_nat elems) 0.
Qed.

Hypothesis HsT : 0 < sT.
Hypothesis HsR : 0 < sR.

(** Storing the value a site already holds changes nothing. *)
Lemma set_soa_loop_id st b v fas i (h : heap) buf :
  fieldbuf st = Some b → h !! b = Some buf →
  ∀ (n : nat) e,
    (∀ e', e <= e' < e + Z.of_nat n →
           soa_index e' fas i = Ok (e' * fas + i)
           ∧ ∃ x, read_bytes v (e' * sR) sR = Some x
                  ∧ read_bytes buf ((e' * fas + i) * sR) sR = Some x) →
    set_soa_loop sR st v i fas n e h = Ok h.
Proof.
  intros Hst Hb n. induction n as [|n IH]; intros e Hch; [done|].
  simpl. destruct (Hch e) as (Hk & x & Hv & Hbuf); [lia|].
  rewrite Hv, Hk. simpl. rewrite Hst.
  rewrite (store_block b h buf _ x buf Hb) by (by apply write_read_id with sR).
  simpl. rewrite insert_id by done.
  apply IH. intros e' He'. apply Hch. lia.
Qed.

Lemma set_get_id ly st (h : heap) fas i value0 v :
  allocated sT sR ly st h fas → addressable sT sR ly fas →
  0 <= i < fas → is_value sT value0 →
  get sT sR ly st i fas value0 h = Ok v →
  set sT sR ly st v i fas h = Ok h.
Proof.
  intros (b & buf & Hst & Hb & Hlen)%allocated_inv Haddr Hi Hv0 Hget.
  destruct ly; simpl in *.
  - unfold get_aos in Hget. rewrite Hst, (load_block _ _ _ _ _ Hb) in Hget.
    destruct (read_bytes buf (i * sT) sT) as [x|] eqn:Hrd; [|done].
    injection Hget as ->.
    unfold set_aos.
    assert (read_bytes v 0 sT = Some v) as ->
      by (rewrite <- (read_bytes_length _ _ _ _ Hrd); apply read_bytes_all).
    simpl. rewrite Hst.
    rewrite (store_block b h buf _ v buf Hb) by (by apply write_read_id with sT).
    by rewrite insert_id.
  - unfold get_soa in Hget. unfold set_soa.
    assert ((i <? fas) = true) as Hlt by (apply Z.ltb_lt; lia).
    rewrite Hlt in *. simpl in *.
    pose proof (elems_nonneg _ _ HsT HsR) as Hel.
    pose proof (elems_bytes_le sT sR HsR) as Hle.
    unfold is_value in Hv0.
    destruct (get_soa_loop_spec sT sR st b fas i Hst HsR Hi Haddr h buf Hb)
      with (n := Z.to_nat elems) (e := 0) (value := value0)
      as (v' & Hrun & Hl & Hin & _); [lia | lia | lia | lia |].
    rewrite Hrun in Hget. injection Hget as ->.
    apply set_soa_loop_id with b buf; [done | done |].
    intros e He. split; [apply soa_index_Ok with sT sR; lia|].
    rewrite Hin by lia.
    destruct (soa_scalar_in_buffer sT sR fas i HsR Hi e
                (Z.of_nat (length buf))); [lia | lia |].
    eexists. split; apply read_bytes_Some; lia.
Qed.

End Heap_frame.

(** ** Layout equivalence *)

Section Layouts.

Variables sizeof_T sizeof_real_t : Z.

Local Abbreviation sT := sizeof_T.
Local Abbreviation sR := sizeof_real_t.
Local Abbreviation elems := (t_elements sizeof_T sizeof_real_t).

Hypothesis HsT : 0 < sT.
Hypothesis HsR : 0 < sR.
Hypothesis Hmul : sT mod sR = 0.

(** When [sizeof(T)] is a multiple of [sizeof(real_t)] the loop of [get]
    overwrites the whole local: its initial content is irrelevant. *)
Lemma get_soa_value0_irrelevant st (h : heap) fas i value0 value1 :
  allocated sT sR SoA st h fas → addressable sT sR SoA fas →
  0 <= i < fas → is_value sT value0 → is_value sT value1 →
  get_soa sT sR st i fas value0 h = get_soa sT sR st i fas value1 h.
Proof.
  intros (b & buf & Hst & Hb & Hlen)%allocated_inv Haddr Hi Hv0 Hv1.
  simpl in *. unfold is_value in *. unfold get_soa.
  assert ((i <? fas) = true) as -> by (apply Z.ltb_lt; lia). simpl.
  pose proof (elems_nonneg sT sR HsT HsR) as Hel.
  pose proof (elems_bytes_exact sT sR HsR Hmul) as Hex.
  destruct (get_soa_loop_spec sT sR st b fas i Hst HsR Hi Haddr h buf Hb)
    with (n := Z.to_nat elems) (e := 0) (value := value0)
    as (v0 & Hrun0 & Hl0 & Hin0 & _); [lia | lia | lia | lia |].
  destruct (get_soa_loop_spec sT sR st b fas i Hst HsR Hi Haddr h buf Hb)
    with (n := Z.to_nat elems) (e := 0) (value := value1)
    as (v1 & Hrun1 & Hl1 & Hin1 & _); [lia | lia | lia | lia |].
  rewrite Hrun0, Hrun1. f_equal.
  pose proof (chunks_prefix_ext sR v0 v1 (Z.to_nat elems) HsR) as Hpre.
  rewrite Z2Nat.id in Hpre by lia.
  rewrite !take_ge in Hpre by lia.
  apply Hpre; [lia | lia |].
  intros e He. rewrite Hin0, Hin1 by lia. done.
Qed.

Lemma same_field_lookup sta ha sts hs fas i value0 value1 :
  allocated sT sR SoA sts hs fas → addressable sT sR SoA fas →
  same_field sT sR sta ha sts hs fas →
  0 <= i < fas → is_value sT value1 →
  get sT sR AoS sta i fas value0 ha = get sT sR SoA sts i fas value1 hs.
Proof.
  intros Hal Haddr Hsame Hi Hv1.
  unfold same_field in Hsame. rewrite Forall_forall in Hsame.
  specialize (Hsame i). simpl in *. unfold get_aos in *.
  rewrite Hsame by (apply elem_of_seqZ; lia).
  apply get_soa_value0_irrelevant; try done.
  unfold is_value. rewrite length_replicate. lia.
Qed.

Lemma zero_is_value : is_value sT (replicate (Z.to_nat sT) x00).
Proof. unfold is_value. rewrite length_replicate. lia. Qed.

Lemma same_field_intro sta ha sts hs fas :
  (∀ i, 0 <= i < fas →
        get sT sR AoS sta i fas (replicate (Z.to_nat sT) x00) ha
        = get sT sR SoA sts i fas (replicate (Z.to_nat sT) x00) hs) →
  same_field sT sR sta ha sts hs fas.
Proof.
  intros H. unfold same_field. apply Forall_forall.
  intros i Hi%elem_of_seqZ. apply H. lia.
Qed.

(** One [set] in both layouts keeps the two storages in step. *)
Lemma same_field_set sta ha sts hs fas i v ha' hs' :
  allocated sT sR AoS sta ha fas →
  allocated sT sR SoA sts hs fas → addressable sT sR SoA fas →
  same_field sT sR sta ha sts hs fas →
  0 <= i < fas → is_value sT v →
  set sT sR AoS sta v i fas ha = Ok ha' →
  set sT sR SoA sts v i fas hs = Ok hs' →
  same_field sT sR sta ha' sts hs' fas.
Proof.
  intros Hala Hals Haddr Hsame Hi Hv Hseta Hsets.
  apply same_field_intro. intros j Hj.
  pose proof zero_is_value as Hz.
  destruct (decide (i = j)) as [<-|Hne].
  - rewrite (get_set_same sT sR HsT HsR AoS sta ha ha' fas i v) by done.
    rewrite (get_set_same sT sR HsT HsR SoA sts hs hs' fas i v) by done.
    by rewrite !readback_exact.
  - rewrite (get_set_other sT sR HsT HsR AoS sta ha ha' fas i j v) by done.
    rewrite (get_set_other sT sR HsT HsR SoA sts hs hs' fas i j v) by done.
    by apply same_field_lookup.
Qed.

Lemma run_get ly st fas i value0 rest (h : heap) :
  run sT sR ly st fas (CallGet i value0 :: rest) h
  = (v ← get sT sR ly st i fas value0 h;
     r ← run sT sR ly st fas rest h;
     Ok (v :: r.1, r.2)).
Proof. done. Qed.

Lemma run_set ly st fas v i rest (h : heap) :
  run sT sR ly st fas (CallSet v i :: rest) h
  = (h' ← set sT sR ly st v i fas h; run sT sR ly st fas rest h').
Proof. done. Qed.

Lemma run_layouts_agree sta sts fas calls :
  addressable sT sR SoA fas →
  Forall (call_ok sT fas) calls →
  ∀ ha hs,
    allocated sT sR AoS sta ha fas →
    allocated sT sR SoA sts hs fas →
    same_field sT sR sta ha sts hs fas →
    ∃ outs ha' hs',
      run sT sR AoS sta fas calls ha = Ok (outs, ha')
      ∧ run sT sR SoA sts fas calls hs = Ok (outs, hs')
      ∧ length outs = length (List.filter is_get calls)
      ∧ allocated sT sR AoS sta ha' fas
      ∧ allocated sT sR SoA sts hs' fas
      ∧ same_field sT sR sta ha' sts hs' fas.
Proof.
  intros Haddr Hcalls.
  induction Hcalls as [|c calls Hc _ IH]; intros ha hs Hala Hals Hsame.
  - exists [], ha, hs. done.
  - destruct c as [i value0 | v i]; simpl in Hc; destruct Hc as [Hi Hv].
    + destruct (IH ha hs) as (outs & ha' & hs' & Ha & Hs & Hlen & Hrest);
        try done.
      destruct (get_Ok sT sR HsT HsR SoA sts hs fas i value0)
        as (v & Hget & _); try done.
      exists (v :: outs), ha', hs'.
      rewrite !run_get.
      rewrite (same_field_lookup sta ha sts hs fas i value0 value0) by done.
      rewrite Hget, Ha, Hs. simpl. by rewrite Hlen.
    + destruct (set_Ok sT sR HsT HsR AoS sta ha fas i v)
        as (ba & bufa & _ & Hseta & Hala'); try done.
      destruct (set_Ok sT sR HsT HsR SoA sts hs fas i v)
        as (bs & bufs & _ & Hsets & Hals'); try done.
      destruct (IH (<[ba := bufa]> ha) (<[bs := bufs]> hs))
        as (outs & ha' & hs' & Ha & Hs & Hlen & Hrest); try done.
      { by apply same_field_set with ha hs i v. }
      exists outs, ha', hs'. rewrite !run_set, Hseta, Hsets. done.
Qed.

Lemma run_app ly st fas calls1 calls2 (h : heap) :
  run sT sR ly st fas (calls1 ++ calls2) h
  = (r1 ← run sT sR ly st fas calls1 h;
     r2 ← run sT sR ly st fas calls2 r1.2;
     Ok (r1.1 ++ r2.1, r2.2)).
Proof.
  revert h. induction calls1 as [|c calls1 IH]; intros h.
  - simpl. by destruct (run sT sR ly st fas calls2 h) as [[outs h']|].
  - destruct c as [i value0|v i]; simpl app.
    + rewrite !run_get.
      destruct (get sT sR ly st i fas value0 h) as [x|]; [|done]. simpl.
      rewrite IH.
      destruct (run sT sR ly st fas calls1 h) as [[o1 h1]|]; [|done]. simpl.
      by destruct (run sT sR ly st fas calls2 h1) as [[o2 h2]|].
    + rewrite !run_set.
      destruct (set sT sR ly st v i fas h) as [h1|]; [|done]. simpl.
      apply IH.
Qed.

(** Storing [f i] at every listed site. *)
Lemma run_init_spec ly st fas f sites :
  addressable sT sR ly fas →
  (∀ i, 0 <= i < fas → is_value sT (f i)) →
  Forall (λ i, 0 <= i < fas) sites →
  ∀ h : heap,
    allocated sT sR ly st h fas →
    ∃ h',
      run sT sR ly st fas (init_calls f sites) h = Ok ([], h')
      ∧ allocated sT sR ly st h' fas
      ∧ (∀ i value0, i ∈ sites → is_value sT value0 →
                     get sT sR ly st i fas value0 h'
                     = Ok (readback sT sR ly (f i) value0))
      ∧ (∀ i value0, 0 <= i < fas → i ∉ sites →
                     get sT sR ly st i fas value0 h'
                     = get sT sR ly st i fas value0 h).
Proof.
  intros Haddr Hf Hsites. induction Hsites as [|i0 rest Hi0 _ IH]; intros h Hal.
  - exists h. split; [done|]. split; [done|].
    split; [by intros i value0 ?%elem_of_nil | done].
  - destruct (set_Ok sT sR HsT HsR ly st h fas i0 (f i0))
      as (b & buf' & _ & Hset & Hal1); auto.
    destruct (IH _ Hal1) as (h' & Hrun & Hal' & Hin & Hout).
    exists h'. simpl init_calls. rewrite run_set, Hset. simpl.
    split; [exact Hrun|]. split; [done|]. split.
    + intros i value0 Hi Hv0.
      destruct (decide (i ∈ rest)) as [Hir|Hir]; [by apply Hin|].
      apply elem_of_cons in Hi as [->|?]; [|done].
      rewrite Hout by done.
      apply (get_set_same sT sR HsT HsR ly st h); auto.
    + intros i value0 Hi Hnotin.
      apply not_elem_of_cons in Hnotin as [Hne Hnr].
      rewrite Hout by done.
      apply (get_set_other sT sR HsT HsR ly st h _ fas i0 i (f i0)); auto.
Qed.

(** Two storages initialised with the same values at every site hold the
    same field, whatever their buffers held before. *)
Lemma run_initialised_layouts_agree sta sts fas f calls (ha hs : heap) :
  allocated sT sR AoS sta ha fas →
  allocated sT sR SoA sts hs fas →
  addressable sT sR SoA fas →
  (∀ i, 0 <= i < fas → is_value sT (f i)) →
  Forall (call_ok sT fas) calls →
  ∃ outs ha' hs',
    run sT sR AoS sta fas (init_calls f (seqZ 0 fas) ++ calls) ha
    = Ok (outs, ha')
    ∧ run sT sR SoA sts fas (init_calls f (seqZ 0 fas) ++ calls) hs
      = Ok (outs, hs')
    ∧ length outs = length (List.filter is_get calls).
Proof.
  intros Hala Hals Haddr Hf Hcalls.
  assert (Forall (λ i, 0 <= i < fas) (seqZ 0 fas)) as Hsites
    by (apply Forall_forall; intros i Hi%elem_of_seqZ; lia).
  destruct (run_init_spec AoS sta fas f _ I Hf Hsites ha Hala)
    as (ha1 & Hruna & Hala1 & Hina & _).
  destruct (run_init_spec SoA sts fas f _ Haddr Hf Hsites hs Hals)
    as (hs1 & Hruns & Hals1 & Hins & _).
  assert (same_field sT sR sta ha1 sts hs1 fas) as Hsame.
  { apply same_field_intro. intros i Hi.
    rewrite Hina, Hins by (apply elem_of_seqZ || apply zero_is_value; lia).
    pose proof zero_is_value. rewrite !readback_exact; auto. }
  destruct (run_layouts_agree sta sts fas calls Haddr Hcalls ha1 hs1)
    as (outs & ha' & hs' & Ha & Hs & Hlen & _); try done.
  exists outs, ha', hs'. rewrite !run_app, Hruna, Hruns. simpl.
  rewrite Ha, Hs. done.
Qed.

End Layouts.

(** ** Claims about the accessors *)

(** C1, as stated, fails: it asks that in either layout [set(v, i)]
    followed by [get(i)] returns exactly [v] for every element type,
    "including when sizeof(T) is not a multiple of sizeof(real_t)".
    With [sizeof(T) = 3], [sizeof(real_t) = 2], one site, [v = 01 02 03] and
    a local [value] that starts as [00 00 00], the structure-of-arrays
    accessors move [3/2 = 1] scalar: [get] returns [01 02 00]. *)
Lemma C1_counterexample :
  ¬ (∀ sizeof_T sizeof_real_t ly st (h : heap) fas i v value0,
        0 < sizeof_T → 0 < sizeof_real_t →
        allocated sizeof_T sizeof_real_t ly st h fas →
        addressable sizeof_T sizeof_real_t ly fas →
        0 <= i < fas → is_value sizeof_T v → is_value sizeof_T value0 →
        ∃ h', set sizeof_T sizeof_real_t ly st v i fas h = Ok h'
              ∧ get sizeof_T sizeof_real_t ly st i fas value0 h' = Ok v).
Proof.
  intros H.
  destruct (H 3 2 SoA {| fieldbuf := Some 1%positive |}
              {[ 1%positive := [x00; x00] ]} 1 0
              [x01; x02; x03] [x00; x00; x00])
    as (h' & Hset & Hget);
    [lia | lia | reflexivity | vm_compute; discriminate | lia
    | reflexivity | reflexivity |].
  vm_compute in Hset. injection Hset as <-.
  vm_compute in Hget. discriminate.
Qed.

(** C1 (amended): for every element type whose size is a multiple of
    [sizeof(real_t)], in either layout [set(v, i)] followed by [get(i)]
    returns exactly [v]; an array-of-structures storage and a
    structure-of-arrays storage that hold the same field return the same
    values for every sequence of in-range [set]/[get] calls, and still hold
    the same field afterwards; and two storages with arbitrary buffers hold
    the same field once every site has been set to the same value in
    both. *)
Theorem C1_layout_equivalence (sizeof_T sizeof_real_t : Z) :
  0 < sizeof_T → 0 < sizeof_real_t → sizeof_T mod sizeof_real_t = 0 →
  (∀ ly st (h : heap) fas i v value0,
      allocated sizeof_T sizeof_real_t ly st h fas →
      addressable sizeof_T sizeof_real_t ly fas →
      0 <= i < fas → is_value sizeof_T v → is_value sizeof_T value0 →
      ∃ h', set sizeof_T sizeof_real_t ly st v i fas h = Ok h'
            ∧ get sizeof_T sizeof_real_t ly st i fas value0 h' = Ok v)
  ∧ (∀ sta (ha : heap) sts (hs : heap) fas calls,
        allocated sizeof_T sizeof_real_t AoS sta ha fas →
        allocated sizeof_T sizeof_real_t SoA sts hs fas →
        addressable sizeof_T sizeof_real_t SoA fas →
        same_field sizeof_T sizeof_real_t sta ha sts hs fas →
        Forall (call_ok sizeof_T fas) calls →
        ∃ outs ha' hs',
          run sizeof_T sizeof_real_t AoS sta fas calls ha = Ok (outs, ha')
          ∧ run sizeof_T sizeof_real_t SoA sts fas calls hs = Ok (outs, hs')
          ∧ length outs = length (List.filter is_get calls)
          ∧ same_field sizeof_T sizeof_real_t sta ha' sts hs' fas)
  ∧ (∀ sta (ha : heap) sts (hs : heap) fas f calls,
        allocated sizeof_T sizeof_real_t AoS sta ha fas →
        allocated sizeof_T sizeof_real_t SoA sts hs fas →
        addressable sizeof_T sizeof_real_t SoA fas →
        (∀ i, 0 <= i < fas → is_value sizeof_T (f i)) →
        Forall (call_ok sizeof_T fas) calls →
        ∃ outs ha' hs',
          run sizeof_T sizeof_real_t AoS sta fas
              (init_calls f (seqZ 0 fas) ++ calls) ha = Ok (outs, ha')
          ∧ run sizeof_T sizeof_real_t SoA sts fas
                (init_calls f (seqZ 0 fas) ++ calls) hs = Ok (outs, hs')
          ∧ length outs = length (List.filter is_get calls)).
Proof.
  intros HsT HsR Hmul. split; [|split].
  3: { intros sta ha sts hs fas f calls.
       by apply run_initialised_layouts_agree. }
  - intros ly st h fas i v value0 Hal Haddr Hi Hv Hv0.
    destruct (set_Ok _ _ HsT HsR ly st h fas i v) as (b & buf' & _ & Hset & _);
      try done.
    eexists. split; [exact Hset|].
    rewrite (get_set_same _ _ HsT HsR ly st h _ fas i v value0) by done.
    by rewrite readback_exact.
  - intros sta ha sts hs fas calls Hala Hals Haddr Hsame Hcalls.
    destruct (run_layouts_agree _ _ HsT HsR Hmul sta sts fas calls Haddr Hcalls
                ha hs Hala Hals Hsame)
      as (outs & ha' & hs' & Ha & Hs & Hlen & _ & _ & Hsame').
    by exists outs, ha', hs'.
Qed.

Lemma C1_layout_equivalence_witness :
  let st := {| fieldbuf := Some 1%positive |} in
  let ha : heap := {[ 1%positive := [x10; x11; x12; x13; x20; x21; x22; x23] ]} in
  let hs : heap := {[ 1%positive := [x10; x11; x20; x21; x12; x13; x22; x23] ]} in
  let zero := [x00; x00; x00; x00] in
  let calls := [CallGet 1 zero; CallSet [x01; x02; x03; x04] 0;
                CallGet 0 zero; CallGet 1 zero] in
  (∃ h', set 4 2 SoA st [x01; x02; x03; x04] 1 2 hs = Ok h'
         ∧ get 4 2 SoA st 1 2 zero h' = Ok [x01; x02; x03; x04])
  ∧ (∃ outs ha' hs',
        run 4 2 AoS st 2 calls ha = Ok (outs, ha')
        ∧ run 4 2 SoA st 2 calls hs = Ok (outs, hs')
        ∧ length outs = 3%nat
        ∧ same_field 4 2 st ha' st hs' 2)
  ∧ ∃ outs ha' hs',
      run 4 2 AoS st 2 (init_calls (λ _, zero) (seqZ 0 2) ++ calls) hs
      = Ok (outs, ha')
      ∧ run 4 2 SoA st 2 (init_calls (λ _, zero) (seqZ 0 2) ++ calls) ha
        = Ok (outs, hs')
      ∧ length outs = 3%nat.
Proof.
  intros st ha hs zero calls.
  destruct (C1_layout_equivalence 4 2) as (Hsame & Hrun & Hinit);
    [lia | lia | reflexivity |].
  assert (Forall (call_ok 4 2) calls) as Hcalls
    by (repeat constructor; lia).
  split; [|split].
  - apply Hsame; [reflexivity | vm_compute; discriminate | lia
                 | reflexivity | reflexivity].
  - apply Hrun; [reflexivity | reflexivity | vm_compute; discriminate
                | repeat constructor | exact Hcalls].
  - apply Hinit; [reflexivity | reflexivity | vm_compute; discriminate
                 | reflexivity | exact Hcalls].
Defined.

(** C9: in both layouts [set(v, i)] changes the element at [i] only; every
    other site [j] reads the same value after the call as before it.  The
    strided scalar indices [e*field_alloc_size + i] of two distinct sites
    never collide. *)
Theorem C9_set_frame (sizeof_T sizeof_real_t : Z) ly st (h : heap)
        fas i j v value0 :
  0 < sizeof_T → 0 < sizeof_real_t →
  allocated sizeof_T sizeof_real_t ly st h fas →
  addressable sizeof_T sizeof_real_t ly fas →
  0 <= i < fas → 0 <= j < fas → i ≠ j →
  is_value sizeof_T v → is_value sizeof_T value0 →
  (∃ h' x, set sizeof_T sizeof_real_t ly st v i fas h = Ok h'
           ∧ get sizeof_T sizeof_real_t ly st j fas value0 h = Ok x
           ∧ get sizeof_T sizeof_real_t ly st j fas value0 h' = Ok x)
  ∧ (∀ e e', e * fas + j ≠ e' * fas + i).
Proof.
  intros HsT HsR Hal Haddr Hi Hj Hne Hv Hv0. split.
  - destruct (set_Ok _ _ HsT HsR ly st h fas i v) as (b & buf' & _ & Hset & _);
      try done.
    destruct (get_Ok _ _ HsT HsR ly st h fas j value0) as (x & Hget & _);
      try done.
    eexists _, x. split; [exact Hset|]. split; [done|].
    by rewrite (get_set_other _ _ HsT HsR ly st h _ fas i j v value0).
  - intros e e'. by apply strided_indices_distinct.
Qed.

Lemma C9_set_frame_witness :
  let st := {| fieldbuf := Some 1%positive |} in
  let h : heap := {[ 1%positive := [x10; x11; x20; x21; x12; x13; x22; x23] ]} in
  (∃ h' x, set 4 2 SoA st [x01; x02; x03; x04] 0 2 h = Ok h'
           ∧ get 4 2 SoA st 1 2 [x00; x00; x00; x00] h = Ok x
           ∧ get 4 2 SoA st 1 2 [x00; x00; x00; x00] h' = Ok x)
  ∧ (∀ e e', e * 2 + 1 ≠ e' * 2 + 0).
Proof.
  intros st h.
  apply (C9_set_frame 4 2 SoA st h 2 0 1);
    [lia | lia | reflexivity | vm_compute; discriminate | lia | lia | lia
    | reflexivity | reflexivity].
Defined.

(** C10, as stated, fails: the assertion [i < field_alloc_size] alone does
    not keep the accesses inside the buffer, because the index is an [int]
    and the assertion has no lower bound.  With [sizeof(T) = 4],
    [sizeof(real_t) = 2], two sites and [i = -1], the assertion holds and
    the first scalar index is [0*2 + (-1) = -1]. *)
Lemma C10_counterexample :
  ¬ (∀ sizeof_T sizeof_real_t fas i e,
        0 < sizeof_T → 0 < sizeof_real_t →
        addressable sizeof_T sizeof_real_t SoA fas →
        i < fas → 0 <= e < t_elements sizeof_T sizeof_real_t →
        ∃ k, soa_index e fas i = Ok k
             ∧ 0 <= k < t_elements sizeof_T sizeof_real_t * fas).
Proof.
  intros H.
  destruct (H 4 2 2 (-1) 0) as (k & Hk & Hrange);
    [lia | lia | vm_compute; discriminate | lia | by vm_compute |].
  vm_compute in Hk. injection Hk as <-. lia.
Qed.

(** At that input [get] passes its assertion and reads before the block. *)
Example get_soa_negative_index :
  get 4 2 SoA {| fieldbuf := Some 1%positive |} (-1) 2 [x00; x00; x00; x00]
      {[ 1%positive := [x10; x11; x20; x21; x12; x13; x22; x23] ]}
  = Fail Undefined.
Proof. reflexivity. Qed.

(** C10 (amended): the structure-of-arrays [get] and [set] assert
    [i < field_alloc_size] before they touch the buffer; for
    [0 <= i < field_alloc_size], and a scalar count that fits in [int],
    every scalar index [e*field_alloc_size + i] with
    [0 <= e < sizeof(T)/sizeof(real_t)] lies inside the buffer of
    [(sizeof(T)/sizeof(real_t)) * field_alloc_size] scalars that
    [allocate_field] requests, and both accessors return.  The
    array-of-structures accessors make no check: they never fail an
    assertion and do not look at [field_alloc_size]. *)
Theorem C10_soa_bounds (sizeof_T sizeof_real_t : Z) :
  0 < sizeof_T → 0 < sizeof_real_t →
  (∀ st (h : heap) fas i v value0,
      fas <= i →
      get sizeof_T sizeof_real_t SoA st i fas value0 h = Fail AssertionFailed
      ∧ set sizeof_T sizeof_real_t SoA st v i fas h = Fail AssertionFailed)
  ∧ (∀ fas i e,
        0 <= i < fas → addressable sizeof_T sizeof_real_t SoA fas →
        0 <= e < t_elements sizeof_T sizeof_real_t →
        soa_index e fas i = Ok (e * fas + i)
        ∧ 0 <= e * fas + i < t_elements sizeof_T sizeof_real_t * fas
        ∧ 0 <= (e * fas + i) * sizeof_real_t
        ∧ (e * fas + i) * sizeof_real_t + sizeof_real_t
          <= alloc_bytes sizeof_T sizeof_real_t SoA fas)
  ∧ (∀ lattice,
        sizeof_T < SIZE_MODULUS →
        0 <= alloc_bytes sizeof_T sizeof_real_t SoA (field_alloc_size lattice)
          < SIZE_MODULUS →
        alloc_request sizeof_T sizeof_real_t SoA lattice
        = t_elements sizeof_T sizeof_real_t * field_alloc_size lattice
          * sizeof_real_t)
  ∧ (∀ st (h : heap) fas i v value0,
        allocated sizeof_T sizeof_real_t SoA st h fas →
        addressable sizeof_T sizeof_real_t SoA fas →
        0 <= i < fas → is_value sizeof_T v → is_value sizeof_T value0 →
        (∃ x, get sizeof_T sizeof_real_t SoA st i fas value0 h = Ok x)
        ∧ (∃ h', set sizeof_T sizeof_real_t SoA st v i fas h = Ok h'))
  ∧ (∀ st (h : heap) fas fas' i v value0,
        get sizeof_T sizeof_real_t AoS st i fas value0 h
        = get sizeof_T sizeof_real_t AoS st i fas' value0 h
        ∧ set sizeof_T sizeof_real_t AoS st v i fas h
          = set sizeof_T sizeof_real_t AoS st v i fas' h
        ∧ ¬ aborted (get sizeof_T sizeof_real_t AoS st i fas value0 h)
        ∧ ¬ aborted (set sizeof_T sizeof_real_t AoS st v i fas h)).
Proof.
  intros HsT HsR.
  pose proof (elems_nonneg _ _ HsT HsR) as Hel.
  pose proof (elems_bytes_le sizeof_T sizeof_real_t HsR) as Hle.
  split; [|split; [|split; [|split]]].
  - intros st h fas i v value0 Hi. simpl. unfold get_soa, set_soa.
    assert ((i <? fas) = false) as -> by (apply Z.ltb_ge; lia). done.
  - intros fas i e Hi Haddr He.
    split; [by apply soa_index_Ok with sizeof_T sizeof_real_t|].
    split; [nia|].
    simpl. apply (soa_scalar_in_buffer sizeof_T sizeof_real_t) with (i := i);
      try done; lia.
  - intros lattice HT H. unfold alloc_request, size_mul. simpl in H.
    rewrite (Z.mod_small (_ * sizeof_real_t)) by lia.
    rewrite Z.mod_small by lia. lia.
  - intros st h fas i v value0 Hal Haddr Hi Hv Hv0. split.
    + destruct (get_Ok _ _ HsT HsR SoA st h fas i value0) as (x & Hx & _);
        try done. by exists x.
    + destruct (set_Ok _ _ HsT HsR SoA st h fas i v) as (b & buf' & _ & Hs & _);
        try done. by eexists.
  - intros st h fas fas' i v value0.
    split; [done|]. split; [done|]. split.
    + simpl. apply load_not_aborted.
    + simpl. unfold set_aos.
      apply bind_not_aborted; [apply of_option_not_aborted | intros ? _].
      apply store_not_aborted.
Qed.

Lemma C10_soa_bounds_witness :
  let st := {| fieldbuf := Some 1%positive |} in
  let h : heap := {[ 1%positive := [x10; x11; x20; x21; x12; x13; x22; x23] ]} in
  get 4 2 SoA st 2 2 [x00; x00; x00; x00] h = Fail AssertionFailed
  ∧ soa_index 1 2 1 = Ok 3
  ∧ 3 * 2 + 2 <= alloc_bytes 4 2 SoA 2
  ∧ alloc_request 4 2 SoA {| field_alloc_size := 2 |} = 8
  ∧ (∃ x, get 4 2 SoA st 1 2 [x00; x00; x00; x00] h = Ok x)
  ∧ ¬ aborted (get 4 2 AoS st 2 2 [x00; x00; x00; x00] h).
Proof.
  intros st h.
  destruct (C10_soa_bounds 4 2) as (Hassert & Hidx & Hreq & Hok & Haos);
    [lia | lia |].
  split; [apply (Hassert st h 2 2 [] [x00; x00; x00; x00]); lia|].
  destruct (Hidx 2 1 1) as (Hk & _ & _ & Hin);
    [lia | vm_compute; discriminate | by vm_compute |].
  split; [exact Hk|]. split; [exact Hin|].
  split; [apply (Hreq {| field_alloc_size := 2 |}); by vm_compute|].
  split.
  - apply (Hok st h 2 1 [x00; x00; x00; x00] [x00; x00; x00; x00]);
      [reflexivity | vm_compute; discriminate | lia | reflexivity | reflexivity].
  - apply (Haos st h 2 2 2 [] [x00; x00; x00; x00]).
Defined.

(** ** Allocation and release *)

Lemma fresh_block_unused (h : heap) : h !! fresh (dom h) = None.
Proof. apply not_elem_of_dom. apply is_fresh. Qed.

Lemma alloc_request_exact (sizeof_T sizeof_real_t : Z) ly lattice :
  0 < sizeof_T → 0 < sizeof_real_t → sizeof_T < SIZE_MODULUS →
  0 <= field_alloc_size lattice →
  alloc_bytes sizeof_T sizeof_real_t ly (field_alloc_size lattice) < SIZE_MODULUS →
  alloc_request sizeof_T sizeof_real_t ly lattice
  = alloc_bytes sizeof_T sizeof_real_t ly (field_alloc_size lattice).
Proof.
  intros HsT HsR HT Hfas Hfit.
  pose proof (elems_nonneg _ _ HsT HsR) as Hel.
  pose proof (elems_bytes_le sizeof_T sizeof_real_t HsR) as Hle.
  unfold alloc_request, size_mul. destruct ly; simpl in *.
  - apply Z.mod_small. nia.
  - rewrite (Z.mod_small (_ * sizeof_real_t)) by lia.
    apply Z.mod_small. nia.
Qed.

(** C8: [allocate_field] requests the byte count of the lattice's full
    allocation size in the compiled layout.  When [malloc] fails the call
    ends in [exit(1)], a non-zero status, and there is no other failure.
    When it returns, the buffer pointer is not null, the block is new, holds
    exactly that many bytes, and every site below [field_alloc_size] can be
    read and written. *)
Theorem C8_allocate_field (sizeof_T sizeof_real_t : Z) ly fill lattice st
        (h : heap) :
  0 < sizeof_T → 0 < sizeof_real_t → sizeof_T < SIZE_MODULUS →
  0 <= field_alloc_size lattice →
  alloc_bytes sizeof_T sizeof_real_t ly (field_alloc_size lattice) < SIZE_MODULUS →
  let fas := field_alloc_size lattice in
  let r := allocate_field sizeof_T sizeof_real_t ly fill lattice st h in
  (fill = None → r = Fail (Exit 1) ∧ 1 ≠ 0)
  ∧ (∀ f, r = Fail f → f = Exit 1 ∧ fill = None)
  ∧ (is_Some fill → ∃ st' h', r = Ok (st', h'))
  ∧ (∀ st' h',
        r = Ok (st', h') →
        (∃ b buf,
            fieldbuf st' = Some b ∧ h !! b = None ∧ h' = <[b := buf]> h
            ∧ Z.of_nat (length buf) = alloc_bytes sizeof_T sizeof_real_t ly fas)
        ∧ allocated sizeof_T sizeof_real_t ly st' h' fas
        ∧ (addressable sizeof_T sizeof_real_t ly fas →
           ∀ i v value0,
             0 <= i < fas → is_value sizeof_T v → is_value sizeof_T value0 →
             (∃ x, get sizeof_T sizeof_real_t ly st' i fas value0 h' = Ok x)
             ∧ (∃ h'', set sizeof_T sizeof_real_t ly st' v i fas h' = Ok h''))).
Proof.
  intros HsT HsR HT Hfas Hfit fas r.
  pose proof (alloc_request_exact _ _ ly lattice HsT HsR HT Hfas Hfit) as Hreq.
  subst r. unfold allocate_field, malloc.
  destruct fill as [junk|]; simpl.
  - split; [done|]. split; [done|]. split; [eauto|].
    intros st' h' [= <- <-].
    set (b := fresh (dom h)).
    set (buf := resize _ x00 junk).
    assert (Z.of_nat (length buf) = alloc_bytes sizeof_T sizeof_real_t ly fas)
      as Hlen.
    { subst buf. rewrite length_resize, Hreq.
      pose proof (elems_nonneg _ _ HsT HsR).
      apply Z2Nat.id. subst fas. destruct ly; simpl; nia. }
    assert (allocated sizeof_T sizeof_real_t ly {| fieldbuf := Some b |}
                      (<[b := buf]> h) fas) as Hal.
    { apply allocated_intro with b buf; [done | apply lookup_insert_eq | done]. }
    split; [|split; [done|]].
    + exists b, buf. split; [done|]. split; [apply fresh_block_unused|done].
    + intros Haddr i v value0 Hi Hv Hv0. split.
      * destruct (get_Ok _ _ HsT HsR ly _ _ fas i value0 Hal) as (x & Hx & _);
          try done. by exists x.
      * destruct (set_Ok _ _ HsT HsR ly _ _ fas i v Hal)
          as (b' & buf' & _ & Hs & _); try done. by eexists.
  - split; [done|]. split; [by intros f [= <-]|].
    split; [by intros [? ?]|]. intros st' h' [=].
Qed.

Lemma C8_allocate_field_witness :
  let lattice := {| field_alloc_size := 2 |} in
  (allocate_field 4 2 SoA None lattice new_storage ∅ = Fail (Exit 1) ∧ 1 ≠ 0)
  ∧ ∃ st' h', allocate_field 4 2 SoA (Some []) lattice new_storage ∅
              = Ok (st', h')
              ∧ allocated 4 2 SoA st' h' 2.
Proof.
  intros lattice. split.
  - apply (C8_allocate_field 4 2 SoA None lattice new_storage ∅);
      [lia | lia | by vm_compute | simpl; lia | by vm_compute | done].
  - destruct (C8_allocate_field 4 2 SoA (Some []) lattice new_storage ∅)
      as (_ & _ & Hsome & Hok);
      [lia | lia | by vm_compute | simpl; lia | by vm_compute |].
    destruct Hsome as (st' & h' & Hr); [by eexists|].
    exists st', h'. split; [exact Hr|]. apply (Hok st' h' Hr).
Defined.

(** C7: [free_field] on a storage that was never allocated, or was already
    freed, returns normally, releases nothing and leaves the buffer pointer
    null; on a storage that owns a live block it releases that block and
    nulls the pointer; calling it twice is the same as calling it once. *)
Theorem C7_free_field_idempotent :
  (∀ h : heap, free_field new_storage h = Ok (new_storage, h))
  ∧ (∀ st (h : heap),
        fieldbuf st = None →
        free_field st h = Ok ({| fieldbuf := None |}, h))
  ∧ (∀ st (h : heap) b,
        fieldbuf st = Some b → is_Some (h !! b) →
        free_field st h = Ok ({| fieldbuf := None |}, delete b h))
  ∧ (∀ st (h : heap) st' h',
        free_field st h = Ok (st', h') →
        fieldbuf st' = None ∧ free_field st' h' = Ok (st', h'))
  ∧ (∀ st (h : heap),
        (r ← free_field st h; free_field r.1 r.2) = free_field st h).
Proof.
  assert (∀ st (h : heap) st' h',
             free_field st h = Ok (st', h') →
             fieldbuf st' = None ∧ free_field st' h' = Ok (st', h')) as Hidem.
  { intros st h st' h'. unfold free_field.
    destruct (fieldbuf st) as [b|]; simpl.
    - unfold free. destruct (h !! b); simpl; [|done]. by intros [= <- <-].
    - by intros [= <- <-]. }
  split; [done|]. split.
  { intros st h Hnull. unfold free_field. by rewrite Hnull. }
  split.
  { intros st h b Hb [buf Hbuf]. unfold free_field, free.
    by rewrite Hb, Hbuf. }
  split; [exact Hidem|].
  intros st h. destruct (free_field st h) as [[st' h']|f] eqn:Hfree; [|done].
  simpl. by apply Hidem in Hfree as [_ ->].
Qed.

(** The last occurrence of an element of a list. *)
Lemma last_occurrence (l : list Z) (i : Z) :
  i ∈ l →
  ∃ p : nat, l !! p = Some i
             ∧ ∀ (q : nat) u, (p < q)%nat → l !! q = Some u → u ≠ i.
Proof.
  intros (l1 & l2 & -> & Hnotin)%list_elem_of_split_r.
  exists (length l1). split; [apply list_lookup_middle; done|].
  intros q u Hq Hlook ->. apply Hnotin.
  rewrite lookup_app_r in Hlook by lia.
  destruct (q - length l1)%nat as [|k] eqn:Hk; [lia|].
  simpl in Hlook. by apply list_elem_of_lookup_2 with k.
Qed.

(** Reads inside a common prefix of two blocks agree. *)
Lemma read_bytes_prefix (out out2 : list byte) (N off n : Z) :
  take (Z.to_nat N) out2 = take (Z.to_nat N) out →
  0 <= off → 0 <= n → off + n <= N →
  N <= Z.of_nat (length out) → N <= Z.of_nat (length out2) →
  read_bytes out2 off n = read_bytes out off n.
Proof.
  intros Htake Hoff Hn HN Hl Hl2.
  apply read_bytes_ext; try lia.
  intros k Hk.
  rewrite <- (lookup_take_lt out2 (Z.to_nat N) k) by lia.
  rewrite <- (lookup_take_lt out (Z.to_nat N) k) by lia.
  by rewrite Htake.
Qed.

(** ** Bulk access *)

Section Bulk.

Variables sizeof_T sizeof_real_t : Z.

Local Abbreviation sT := sizeof_T.
Local Abbreviation sR := sizeof_real_t.

Hypothesis HsT : 0 < sT.
Hypothesis HsR : 0 < sR.

Variables (ly : layout) (st : field_storage) (b bb : block) (fas : Z).
Variable value0 : list byte.

Hypothesis Hst : fieldbuf st = Some b.
Hypothesis Hne : bb ≠ b.
Hypothesis Haddr : addressable sT sR ly fas.
Hypothesis Hfas : fas <= INT_MAX.
Hypothesis Hv0 : is_value sT value0.

Lemma allocated_insert_buffer (h : heap) out :
  allocated sT sR ly st h fas → allocated sT sR ly st (<[bb := out]> h) fas.
Proof.
  unfold allocated. rewrite Hst. by rewrite lookup_insert_ne.
Qed.

Lemma get_insert_buffer (h : heap) out i :
  get sT sR ly st i fas value0 (<[bb := out]> h)
  = get sT sR ly st i fas value0 h.
Proof. apply get_insert_other. rewrite Hst. congruence. Qed.

Lemma gather_loop_spec index_list :
  indices_ok fas index_list →
  ∀ j (h : heap) out,
    allocated sT sR ly st h fas → h !! bb = Some out →
    0 <= j → (j + Z.of_nat (length index_list)) * sT <= Z.of_nat (length out) →
    ∃ out',
      gather_loop sT sR ly st (Some bb) fas value0 index_list j h
      = Ok (<[bb := out']> h)
      ∧ length out' = length out
      ∧ (∀ (p : nat) u,
            index_list !! p = Some u →
            of_option (read_bytes out' ((j + Z.of_nat p) * sT) sT)
            = get sT sR ly st u fas value0 h)
      ∧ (∀ off m,
            off + m <= j * sT
            ∨ (j + Z.of_nat (length index_list)) * sT <= off →
            read_bytes out' off m = read_bytes out off m).
Proof.
  intros Hidx. induction Hidx as [|u rest Hu _ IH];
    intros j h out Hal Hbb Hj Hlen.
  - exists out. simpl. rewrite insert_id by done.
    split; [done|]. split; [done|]. split; [intros p u [=] | done].
  - simpl length in Hlen. simpl gather_loop.
    rewrite int_of_unsigned_small by lia.
    destruct (get_Ok sT sR HsT HsR ly st h fas u value0) as (x & Hget & Hx);
      try done.
    rewrite Hget. simpl. unfold is_value in Hx.
    assert (read_bytes x 0 sT = Some x) as ->
      by (rewrite <- Hx; apply read_bytes_all).
    simpl.
    assert (∃ out1, write_bytes out (j * sT) x = Some out1) as [out1 Hw]
      by (eexists; apply write_bytes_Some; nia).
    rewrite (store_block _ _ _ _ _ _ Hbb Hw). simpl.
    pose proof (write_bytes_length _ _ _ _ Hw) as Hl1.
    destruct (IH (j + 1) (<[bb := out1]> h) out1)
      as (out' & Hrun & Hl & Hin & Hout);
      [by apply allocated_insert_buffer | apply lookup_insert_eq
      | lia | nia |].
    rewrite insert_insert_eq in Hrun.
    exists out'. split; [done|]. split; [congruence|]. split.
    + intros [|p] u' Hp; simpl in Hp.
      * injection Hp as <-. rewrite Hout by (left; simpl; nia).
        replace (j + Z.of_nat 0) with j by lia.
        by rewrite (read_write_same_len _ _ _ _ _ Hw Hx).
      * replace (j + Z.of_nat (S p)) with (j + 1 + Z.of_nat p) by lia.
        rewrite (Hin p u' Hp). apply get_insert_buffer.
    + intros off m Hoff. rewrite Hout by nia.
      apply (read_write_disjoint _ _ _ _ _ _ Hw). nia.
Qed.

(** Placing back what the sites already hold changes nothing. *)
Lemma place_loop_id (h : heap) out index_list :
  allocated sT sR ly st h fas → h !! bb = Some out →
  indices_ok fas index_list →
  ∀ j,
    (∀ (p : nat) u,
        index_list !! p = Some u →
        of_option (read_bytes out ((j + Z.of_nat p) * sT) sT)
        = get sT sR ly st u fas value0 h) →
    place_loop sT sR ly st (Some bb) fas index_list j h = Ok h.
Proof.
  intros Hal Hbb Hidx. induction Hidx as [|u rest Hu _ IH]; intros j Hrd.
  - done.
  - simpl place_loop. rewrite (load_block _ _ _ _ _ Hbb).
    pose proof (Hrd 0%nat u eq_refl) as H0.
    replace (j + Z.of_nat 0) with j in H0 by lia. rewrite H0.
    destruct (get_Ok sT sR HsT HsR ly st h fas u value0) as (x & Hget & Hx);
      try done.
    rewrite Hget. simpl.
    rewrite int_of_unsigned_small by lia.
    rewrite (set_get_id sT sR HsT HsR ly st h fas u value0 x) by done.
    simpl. apply IH. intros p u' Hp.
    replace (j + 1 + Z.of_nat p) with (j + Z.of_nat (S p)) by lia.
    by apply Hrd.
Qed.

(** What [place_elements] leaves at the sites. *)
Lemma place_loop_spec out index_list :
  indices_ok fas index_list →
  ∀ j (h : heap),
    allocated sT sR ly st h fas → h !! bb = Some out →
    0 <= j → (j + Z.of_nat (length index_list)) * sT <= Z.of_nat (length out) →
    ∃ h',
      place_loop sT sR ly st (Some bb) fas index_list j h = Ok h'
      ∧ allocated sT sR ly st h' fas
      ∧ h' !! bb = Some out
      ∧ (∀ (p : nat) u,
            index_list !! p = Some u →
            (∀ (q : nat) u', (p < q)%nat → index_list !! q = Some u' → u' ≠ u) →
            ∃ x, read_bytes out ((j + Z.of_nat p) * sT) sT = Some x
                 ∧ get sT sR ly st u fas value0 h'
                   = Ok (readback sT sR ly x value0))
      ∧ (∀ i, 0 <= i < fas → i ∉ index_list →
              get sT sR ly st i fas value0 h' = get sT sR ly st i fas value0 h).
Proof.
  intros Hidx. induction Hidx as [|u rest Hu _ IH]; intros j h Hal Hbb Hj Hlen.
  - exists h. simpl. split; [done|]. split; [done|]. split; [done|].
    split; [intros p u [=] | done].
  - simpl length in Hlen. simpl place_loop.
    rewrite (load_block _ _ _ _ _ Hbb).
    rewrite read_bytes_Some by nia. simpl.
    set (x := take (Z.to_nat sT) (drop (Z.to_nat (j * sT)) out)).
    assert (read_bytes out (j * sT) sT = Some x) as Hx
      by (apply read_bytes_Some; nia).
    pose proof (read_bytes_length _ _ _ _ Hx) as Hxv.
    rewrite int_of_unsigned_small by lia.
    destruct (set_Ok sT sR HsT HsR ly st h fas u x)
      as (b' & buf' & Hb' & Hset & Hal1); try done.
    assert (b' = b) as -> by congruence.
    rewrite Hset. simpl.
    destruct (IH (j + 1) (<[b := buf']> h))
      as (h' & Hrun & Hal' & Hbb' & Hlast & Hframe);
      [done | by rewrite lookup_insert_ne | lia | nia |].
    exists h'. split; [done|]. split; [done|]. split; [done|]. split.
    + intros [|p] u' Hp Hlater; simpl in Hp.
      * injection Hp as <-. exists x.
        replace (j + Z.of_nat 0) with j by lia. split; [done|].
        rewrite Hframe; [|lia|].
        -- by apply (get_set_same sT sR HsT HsR ly st h).
        -- intros (q & Hq)%list_elem_of_lookup.
           by apply (Hlater (S q) u); [lia | |].
      * destruct (Hlast p u' Hp) as (x' & Hx' & Hget').
        { intros q u'' Hpq Hq. apply (Hlater (S q) u''); [lia | done]. }
        exists x'.
        replace (j + Z.of_nat (S p)) with (j + 1 + Z.of_nat p) by lia.
        done.
    + intros i Hi Hnotin.
      rewrite Hframe by (done || intros Hin; apply Hnotin; by right).
      apply (get_set_other sT sR HsT HsR ly st h _ fas u i x); try done.
      intros ->. apply Hnotin. by left.
Qed.

(** [place_elements] looks at the first [L * sizeof(T)] bytes of the buffer
    only. *)
Lemma place_reads_prefix out out2 index_list (h : heap) :
  indices_ok fas index_list →
  allocated sT sR ly st h fas → h !! bb = Some out →
  Z.of_nat (length index_list) * sT <= Z.of_nat (length out) →
  Z.of_nat (length index_list) * sT <= Z.of_nat (length out2) →
  take (Z.to_nat (Z.of_nat (length index_list) * sT)) out2
  = take (Z.to_nat (Z.of_nat (length index_list) * sT)) out →
  ∃ h1 h2,
    place_loop sT sR ly st (Some bb) fas index_list 0 h = Ok h1
    ∧ place_loop sT sR ly st (Some bb) fas index_list 0 (<[bb := out2]> h)
      = Ok h2
    ∧ ∀ i, 0 <= i < fas →
           get sT sR ly st i fas value0 h2 = get sT sR ly st i fas value0 h1.
Proof.
  intros Hidx Hal Hbb Hlen Hlen2 Htake.
  destruct (place_loop_spec out index_list Hidx 0 h)
    as (h1 & Hrun1 & _ & _ & Hlast1 & Hframe1); [done | done | lia | lia |].
  destruct (place_loop_spec out2 index_list Hidx 0 (<[bb := out2]> h))
    as (h2 & Hrun2 & _ & _ & Hlast2 & Hframe2);
    [by apply allocated_insert_buffer | apply lookup_insert_eq | lia | lia |].
  exists h1, h2. split; [done|]. split; [done|].
  intros i Hi. destruct (decide (i ∈ index_list)) as [Hin|Hnotin].
  - destruct (last_occurrence _ _ Hin) as (p & Hp & Hlater).
    destruct (Hlast1 p i Hp Hlater) as (x1 & Hx1 & ->).
    destruct (Hlast2 p i Hp Hlater) as (x2 & Hx2 & ->).
    pose proof (lookup_lt_Some _ _ _ Hp) as Hplt.
    rewrite (read_bytes_prefix out out2
               (Z.of_nat (length index_list) * sT)) in Hx2
      by (done || nia).
    congruence.
  - rewrite Hframe1, Hframe2 by done. apply get_insert_buffer.
Qed.

End Bulk.

(** *** No diagnosed failure in the bulk loops *)

Section No_abort.

Variables sizeof_T sizeof_real_t : Z.

Lemma get_soa_loop_not_aborted st i fas (h : heap) (n : nat) :
  ∀ e value, ¬ aborted (get_soa_loop sizeof_real_t st i fas h n e value).
Proof.
  induction n as [|n IH]; intros e value; simpl; [tauto|].
  apply bind_not_aborted.
  { unfold soa_index.
    apply bind_not_aborted; [apply int_val_not_aborted | intros ? _].
    apply int_val_not_aborted. }
  intros k _. apply bind_not_aborted; [apply load_not_aborted | intros x _].
  apply bind_not_aborted; [apply of_option_not_aborted | intros v _].
  apply IH.
Qed.

Lemma set_soa_loop_not_aborted st v i fas (n : nat) :
  ∀ e (h : heap), ¬ aborted (set_soa_loop sizeof_real_t st v i fas n e h).
Proof.
  induction n as [|n IH]; intros e h; simpl; [tauto|].
  apply bind_not_aborted; [apply of_option_not_aborted | intros x _].
  apply bind_not_aborted.
  { unfold soa_index.
    apply bind_not_aborted; [apply int_val_not_aborted | intros ? _].
    apply int_val_not_aborted. }
  intros k _. apply bind_not_aborted; [apply store_not_aborted | intros h' _].
  apply IH.
Qed.

Lemma get_not_aborted ly st i fas value0 (h : heap) :
  i < fas → ¬ aborted (get sizeof_T sizeof_real_t ly st i fas value0 h).
Proof.
  intros Hi. destruct ly; simpl.
  - apply load_not_aborted.
  - unfold get_soa.
    assert ((i <? fas) = true) as -> by (apply Z.ltb_lt; lia). simpl.
    apply get_soa_loop_not_aborted.
Qed.

Lemma set_not_aborted ly st v i fas (h : heap) :
  i < fas → ¬ aborted (set sizeof_T sizeof_real_t ly st v i fas h).
Proof.
  intros Hi. destruct ly; simpl.
  - unfold set_aos.
    apply bind_not_aborted; [apply of_option_not_aborted | intros ? _].
    apply store_not_aborted.
  - unfold set_soa.
    assert ((i <? fas) = true) as -> by (apply Z.ltb_lt; lia). simpl.
    apply set_soa_loop_not_aborted.
Qed.

Lemma gather_loop_not_aborted ly st buffer fas value0 index_list :
  fas <= INT_MAX → indices_ok fas index_list →
  ∀ j (h : heap),
    ¬ aborted (gather_loop sizeof_T sizeof_real_t ly st buffer fas value0
                           index_list j h).
Proof.
  intros Hfas Hidx. induction Hidx as [|u rest Hu _ IH]; intros j h; simpl;
    [tauto|].
  rewrite int_of_unsigned_small by lia.
  apply bind_not_aborted; [apply get_not_aborted; lia | intros x _].
  apply bind_not_aborted; [apply of_option_not_aborted | intros y _].
  apply bind_not_aborted; [apply store_not_aborted | intros h' _].
  apply IH.
Qed.

Lemma place_loop_not_aborted ly st buffer fas index_list :
  fas <= INT_MAX → indices_ok fas index_list →
  ∀ j (h : heap),
    ¬ aborted (place_loop sizeof_T sizeof_real_t ly st buffer fas
                          index_list j h).
Proof.
  intros Hfas Hidx. induction Hidx as [|u rest Hu _ IH]; intros j h; simpl;
    [tauto|].
  rewrite int_of_unsigned_small by lia.
  apply bind_not_aborted; [apply load_not_aborted | intros x _].
  apply bind_not_aborted; [apply set_not_aborted; lia | intros h' _].
  apply IH.
Qed.

End No_abort.

(** ** Claims about bulk access *)



Lemma drop_of_read_tail (l1 l2 : list byte) (n : Z) :
  0 <= n → length l1 = length l2 → n <= Z.of_nat (length l1) →
  read_bytes l1 n (Z.of_nat (length l1) - n)
  = read_bytes l2 n (Z.of_nat (length l1) - n) →
  drop (Z.to_nat n) l1 = drop (Z.to_nat n) l2.
Proof.
  intros Hn Hl Hle. rewrite !read_bytes_Some by lia.
  rewrite !take_ge by (rewrite length_drop; lia). congruence.
Qed.




(** A bulk loop that returns has stayed inside the buffer. *)
Lemma gather_loop_Ok_size (sizeof_T sizeof_real_t : Z) ly st bb fas value0
      index_list :
  0 < sizeof_T →
  ∀ j (h h' : heap) out,
    0 <= j → h !! bb = Some out →
    gather_loop sizeof_T sizeof_real_t ly st (Some bb) fas value0 index_list j h
    = Ok h' →
    index_list = []
    ∨ (j + Z.of_nat (length index_list)) * sizeof_T <= Z.of_nat (length out).
Proof.
  intros HsT. induction index_list as [|u rest IH]; intros j h h' out Hj Hbb Hrun;
    [by left | right].
  simpl in Hrun.
  destruct (get _ _ ly st _ fas value0 h) as [x|]; [|done]. simpl in Hrun.
  destruct (read_bytes x 0 sizeof_T) as [y|] eqn:Hy; [|done]. simpl in Hrun.
  destruct (store (Some bb) (j * sizeof_T) y h) as [h1|] eqn:Hstore; [|done].
  simpl in Hrun.
  apply store_inv in Hstore as (b' & out0 & out1 & [= <-] & Hb' & Hw & ->).
  assert (out0 = out) as -> by congruence.
  pose proof (write_bytes_inv _ _ _ _ Hw) as (_ & Hin & _).
  pose proof (write_bytes_length _ _ _ _ Hw) as Hl1.
  apply read_bytes_length in Hy.
  destruct (IH (j + 1) _ _ out1 ltac:(lia) (lookup_insert_eq _ _ _) Hrun)
    as [-> | Hle]; simpl length; nia.
Qed.

Lemma place_loop_Ok_size (sizeof_T sizeof_real_t : Z) ly st bb fas index_list :
  0 < sizeof_T → fieldbuf st ≠ Some bb →
  ∀ j (h h' : heap) out,
    0 <= j → h !! bb = Some out →
    place_loop sizeof_T sizeof_real_t ly st (Some bb) fas index_list j h = Ok h' →
    index_list = []
    ∨ (j + Z.of_nat (length index_list)) * sizeof_T <= Z.of_nat (length out).
Proof.
  intros HsT Hne. induction index_list as [|u rest IH];
    intros j h h' out Hj Hbb Hrun; [by left | right].
  simpl in Hrun. rewrite (load_block _ _ _ _ _ Hbb) in Hrun.
  destruct (read_bytes out (j * sizeof_T) sizeof_T) as [x|] eqn:Hx; [|done].
  simpl in Hrun.
  destruct (set _ _ ly st x _ fas h) as [h1|] eqn:Hset; [|done]. simpl in Hrun.
  pose proof (read_bytes_inv _ _ _ _ Hx) as (_ & _ & Hin & _).
  assert (h1 !! bb = Some out) as Hbb1
    by (rewrite <- Hbb; eapply set_other_block; [exact Hset | exact Hne]).
  destruct (IH (j + 1) _ _ out ltac:(lia) Hbb1 Hrun) as [-> | Hle];
    simpl length; nia.
Qed.

Lemma not_Ok_not_aborted {A : Type} (r : result A) :
  (∀ a, r ≠ Ok a) → ¬ aborted r → r = Fail Undefined.
Proof.
  intros Hok Hab. destruct r as [a|[]]; simpl in Hab; try tauto.
  by destruct (Hok a).
Qed.




(** ** Partitioned fields *)

Section Partitions.

Variables sizeof_T sizeof_real_t : Z.

Local Abbreviation sT := sizeof_T.
Local Abbreviation sR := sizeof_real_t.
Local Abbreviation elems := (t_elements sizeof_T sizeof_real_t).

Hypothesis HsT : 0 < sT.
Hypothesis HsR : 0 < sR.

(** A value that [get] returned is stored and read back unchanged. *)
Lemma get_readback_fixed ly st (h : heap) fas i value0 x :
  allocated sT sR ly st h fas → addressable sT sR ly fas →
  0 <= i < fas → is_value sT value0 →
  get sT sR ly st i fas value0 h = Ok x →
  readback sT sR ly x value0 = x.
Proof.
  intros (b & buf & Hst & Hb & Hlen)%allocated_inv Haddr Hi Hv0 Hget.
  destruct ly; simpl in *; [done|].
  unfold get_soa in Hget.
  assert ((i <? fas) = true) as Hlt by (apply Z.ltb_lt; lia).
  rewrite Hlt in Hget. simpl in Hget.
  pose proof (elems_nonneg _ _ HsT HsR) as Hel.
  pose proof (elems_bytes_le sT sR HsR) as Hle.
  unfold is_value in Hv0.
  destruct (get_soa_loop_spec sT sR st b fas i Hst HsR Hi Haddr h buf Hb)
    with (n := Z.to_nat elems) (e := 0) (value := value0)
    as (v' & Hrun & Hl & _ & Hout); [lia | lia | lia | lia |].
  rewrite Hrun in Hget. injection Hget as ->.
  transitivity (take (Z.to_nat (elems * sR)) x
                ++ drop (Z.to_nat (elems * sR)) x); [|apply take_drop].
  f_equal. symmetry. apply drop_of_read_tail; [lia | done | lia |].
  apply Hout. right. lia.
Qed.

Variables (ly : layout) (pm : partition_map) (volume : Z).
Variable value0 : list byte.

Hypothesis Hpm : partition_ok volume pm.
Hypothesis Hv0 : is_value sT value0.

Lemma site_set_spec nodes g v :
  nodes_ok sT sR ly pm nodes → 0 <= g < volume → is_value sT v →
  ∃ nodes',
    site_set sT sR ly pm nodes g v = Ok nodes'
    ∧ nodes_ok sT sR ly pm nodes'
    ∧ site_get sT sR ly pm nodes' g value0 = Ok (readback sT sR ly v value0)
    ∧ ∀ g', 0 <= g' < volume → g' ≠ g →
            site_get sT sR ly pm nodes' g' value0
            = site_get sT sR ly pm nodes g' value0.
Proof.
  intros [Hlen Hnodes] Hg Hv.
  destruct Hpm as [Hown Hinj].
  destruct (Hown g Hg) as [Hr Hloc].
  destruct (lookup_lt_is_Some_2 nodes (owner pm g)) as [[st h] Hnode];
    [lia|].
  destruct (Hnodes _ _ _ Hnode) as [Hal Haddr].
  destruct (set_Ok sT sR HsT HsR ly st h _ _ v Hal Haddr Hloc Hv)
    as (b & buf' & Hst & Hset & Hal').
  exists (<[owner pm g := (st, <[b := buf']> h)]> nodes).
  unfold site_set, site_get. rewrite Hnode, Hset. simpl.
  split; [done|]. split; [|split].
  - split; [by rewrite length_insert|].
    intros r st1 h1 Hr1.
    destruct (decide (r = owner pm g)) as [->|Hne].
    + rewrite list_lookup_insert_eq in Hr1 by lia.
      injection Hr1 as <- <-. done.
    + rewrite list_lookup_insert_ne in Hr1 by done. by apply Hnodes.
  - rewrite list_lookup_insert_eq by lia.
    by apply (get_set_same sT sR HsT HsR ly st h).
  - intros g' Hg' Hne.
    destruct (decide (owner pm g' = owner pm g)) as [Heq|Hneq].
    + rewrite Heq, list_lookup_insert_eq, Hnode by lia.
      destruct (Hown g' Hg') as [_ Hloc']. rewrite Heq in Hloc'.
      apply (get_set_other sT sR HsT HsR ly st h _ _ (local_index pm g)
               (local_index pm g') v); try done.
      intros Hli. apply Hne. by apply Hinj.
    + by rewrite list_lookup_insert_ne.
Qed.

Lemma fill_sites_spec f sites :
  (∀ g, 0 <= g < volume → is_value sT (f g)) →
  Forall (λ g, 0 <= g < volume) sites →
  ∀ nodes,
    nodes_ok sT sR ly pm nodes →
    ∃ nodes',
      fill_sites sT sR ly pm f sites nodes = Ok nodes'
      ∧ nodes_ok sT sR ly pm nodes'
      ∧ (∀ g, g ∈ sites →
              site_get sT sR ly pm nodes' g value0
              = Ok (readback sT sR ly (f g) value0))
      ∧ (∀ g, 0 <= g < volume → g ∉ sites →
              site_get sT sR ly pm nodes' g value0
              = site_get sT sR ly pm nodes g value0).
Proof.
  intros Hf Hsites. induction Hsites as [|g0 rest Hg0 Hrest IH];
    intros nodes Hok.
  - exists nodes. split; [done|]. split; [done|].
    split; [by intros g ?%elem_of_nil | done].
  - destruct (site_set_spec nodes g0 (f g0) Hok Hg0 (Hf g0 Hg0))
      as (nodes1 & Hset & Hok1 & Hsame & Hother).
    destruct (IH nodes1 Hok1) as (nodes' & Hrun & Hok' & Hin & Hout).
    exists nodes'. simpl. rewrite Hset. simpl.
    split; [done|]. split; [done|]. split.
    + intros g Hg. destruct (decide (g ∈ rest)) as [Hgr|Hgr];
        [by apply Hin|].
      apply elem_of_cons in Hg as [->|?]; [|done].
      rewrite Hout by done. done.
    + intros g Hg Hnotin. apply not_elem_of_cons in Hnotin as [Hne Hnr].
      rewrite Hout by done. by apply Hother.
Qed.

Lemma read_sites_spec nodes sites :
  nodes_ok sT sR ly pm nodes →
  Forall (λ g, 0 <= g < volume) sites →
  ∃ elements,
    read_sites sT sR ly pm nodes value0 sites = Ok elements
    ∧ length elements = length sites
    ∧ ∀ (k : nat) g,
        sites !! k = Some g →
        ∃ x, elements !! k = Some x ∧ is_value sT x
             ∧ site_get sT sR ly pm nodes g value0 = Ok x
             ∧ readback sT sR ly x value0 = x.
Proof.
  intros [Hlen Hnodes] Hsites.
  induction Hsites as [|g0 rest Hg0 Hrest IH].
  - exists []. split; [done|]. split; [done|]. intros k g [=].
  - destruct IH as (elements & Hrun & Hl & Hel).
    destruct Hpm as [Hown _].
    destruct (Hown g0 Hg0) as [Hr Hloc].
    destruct (lookup_lt_is_Some_2 nodes (owner pm g0)) as [[st h] Hnode];
      [lia|].
    destruct (Hnodes _ _ _ Hnode) as [Hal Haddr].
    destruct (get_Ok sT sR HsT HsR ly st h _ _ value0 Hal Haddr Hloc Hv0)
      as (x & Hget & Hx).
    assert (site_get sT sR ly pm nodes g0 value0 = Ok x) as Hsg
      by (unfold site_get; by rewrite Hnode).
    exists (x :: elements). simpl. rewrite Hsg, Hrun. simpl.
    split; [done|]. split; [by rewrite Hl|].
    intros [|k] g Hk; simpl in Hk.
    + injection Hk as <-. exists x. split; [done|]. split; [done|].
      split; [done|].
      by apply (get_readback_fixed ly st h (part_alloc_size pm (owner pm g0))
                  (local_index pm g0)).
    + by apply Hel.
Qed.

End Partitions.

Lemma sites_in_volume (volume : Z) :
  Forall (λ g, 0 <= g < volume) (seqZ 0 volume).
Proof. apply Forall_forall. intros g Hg%elem_of_seqZ. lia. Qed.

(** C2: a field whose value at every global coordinate is a function [f]
    of the coordinate reads the same value at every global coordinate under
    any two partitions of the lattice (it is [f g] itself whenever the
    layout stores whole elements); and a field serialized in canonical
    global-coordinate order under one partition and re-loaded under another
    reads, at every global coordinate, the value it had. *)
Theorem C2_partition_invariance (sizeof_T sizeof_real_t : Z) ly volume f
        value0 pm1 pm2 nodes1 nodes2 :
  0 < sizeof_T → 0 < sizeof_real_t →
  partition_ok volume pm1 → partition_ok volume pm2 →
  nodes_ok sizeof_T sizeof_real_t ly pm1 nodes1 →
  nodes_ok sizeof_T sizeof_real_t ly pm2 nodes2 →
  is_value sizeof_T value0 →
  (∀ g, 0 <= g < volume → is_value sizeof_T (f g)) →
  (∃ filled1 filled2,
      fill sizeof_T sizeof_real_t ly pm1 volume f nodes1 = Ok filled1
      ∧ fill sizeof_T sizeof_real_t ly pm2 volume f nodes2 = Ok filled2
      ∧ ∀ g, 0 <= g < volume →
             ∃ x, site_get sizeof_T sizeof_real_t ly pm1 filled1 g value0 = Ok x
                  ∧ site_get sizeof_T sizeof_real_t ly pm2 filled2 g value0 = Ok x
                  ∧ (ly = AoS ∨ sizeof_T mod sizeof_real_t = 0 → x = f g))
  ∧ (∃ elements reloaded,
        serialize sizeof_T sizeof_real_t ly pm1 volume nodes1 value0 = Ok elements
        ∧ length elements = Z.to_nat volume
        ∧ deserialize sizeof_T sizeof_real_t ly pm2 volume elements nodes2
          = Ok reloaded
        ∧ ∀ g, 0 <= g < volume →
               ∃ x, elements !! Z.to_nat g = Some x
                    ∧ site_get sizeof_T sizeof_real_t ly pm1 nodes1 g value0 = Ok x
                    ∧ site_get sizeof_T sizeof_real_t ly pm2 reloaded g value0
                      = Ok x).
Proof.
  intros HsT HsR Hpm1 Hpm2 Hok1 Hok2 Hv0 Hf.
  pose proof (sites_in_volume volume) as Hsites.
  split.
  - destruct (fill_sites_spec sizeof_T sizeof_real_t HsT HsR ly pm1 volume
                value0 Hpm1 Hv0 f _ Hf Hsites nodes1 Hok1)
      as (filled1 & Hfill1 & _ & Hin1 & _).
    destruct (fill_sites_spec sizeof_T sizeof_real_t HsT HsR ly pm2 volume
                value0 Hpm2 Hv0 f _ Hf Hsites nodes2 Hok2)
      as (filled2 & Hfill2 & _ & Hin2 & _).
    exists filled1, filled2. split; [done|]. split; [done|].
    intros g Hg. exists (readback sizeof_T sizeof_real_t ly (f g) value0).
    split; [apply Hin1, elem_of_seqZ; lia|].
    split; [apply Hin2, elem_of_seqZ; lia|].
    intros [-> | Hmul]; [done|].
    apply readback_exact; auto.
  - destruct (read_sites_spec sizeof_T sizeof_real_t HsT HsR ly pm1 volume
                value0 Hpm1 Hv0 nodes1 _ Hok1 Hsites)
      as (elements & Hser & Hlen & Hel).
    rewrite length_seqZ in Hlen.
    assert (∀ g, 0 <= g < volume →
                 ∃ x, elements !! Z.to_nat g = Some x
                      ∧ is_value sizeof_T x
                      ∧ site_get sizeof_T sizeof_real_t ly pm1 nodes1 g value0
                        = Ok x
                      ∧ readback sizeof_T sizeof_real_t ly x value0 = x)
      as Hel'.
    { intros g Hg. apply (Hel (Z.to_nat g) g).
      rewrite lookup_seqZ_lt by lia. f_equal. lia. }
    set (f' := λ g : Z, default [] (elements !! Z.to_nat g)).
    assert (∀ g, 0 <= g < volume → is_value sizeof_T (f' g)) as Hf'.
    { intros g Hg. destruct (Hel' g Hg) as (x & Hx & Hvx & _).
      unfold f'. by rewrite Hx. }
    destruct (fill_sites_spec sizeof_T sizeof_real_t HsT HsR ly pm2 volume
                value0 Hpm2 Hv0 f' _ Hf' Hsites nodes2 Hok2)
      as (reloaded & Hfill & _ & Hin & _).
    exists elements, reloaded.
    split; [done|]. split; [done|]. split; [done|].
    intros g Hg. destruct (Hel' g Hg) as (x & Hx & _ & Hget & Hrb).
    exists x. split; [done|]. split; [done|].
    rewrite Hin by (apply elem_of_seqZ; lia).
    unfold f'. rewrite Hx. simpl. by rewrite Hrb.
Qed.

Lemma C2_partition_invariance_witness :
  let one := {| n_parts := 1; owner := λ _, 0%nat; local_index := λ g, g;
                part_alloc_size := λ _, 4 |} in
  let two := {| n_parts := 2; owner := λ g, Z.to_nat (g / 2);
                local_index := λ g, g mod 2; part_alloc_size := λ _, 3 |} in
  let st := {| fieldbuf := Some 1%positive |} in
  let nodes1 : list (field_storage * heap) :=
    [(st, {[ 1%positive := replicate 16 xee ]})] in
  let nodes2 : list (field_storage * heap) :=
    [(st, {[ 1%positive := replicate 12 xee ]});
     (st, {[ 1%positive := replicate 12 xee ]})] in
  let f := λ g : Z, [x0a; x0b; x0c; default x00 (Byte.of_N (Z.to_N g))] in
  let value0 := [x00; x00; x00; x00] in
  (∃ filled1 filled2,
      fill 4 2 SoA one 4 f nodes1 = Ok filled1
      ∧ fill 4 2 SoA two 4 f nodes2 = Ok filled2
      ∧ ∀ g, 0 <= g < 4 →
             ∃ x, site_get 4 2 SoA one filled1 g value0 = Ok x
                  ∧ site_get 4 2 SoA two filled2 g value0 = Ok x
                  ∧ (SoA = AoS ∨ 4 mod 2 = 0 → x = f g))
  ∧ (∃ elements reloaded,
        serialize 4 2 SoA one 4 nodes1 value0 = Ok elements
        ∧ length elements = Z.to_nat 4
        ∧ deserialize 4 2 SoA two 4 elements nodes2 = Ok reloaded
        ∧ ∀ g, 0 <= g < 4 →
               ∃ x, elements !! Z.to_nat g = Some x
                    ∧ site_get 4 2 SoA one nodes1 g value0 = Ok x
                    ∧ site_get 4 2 SoA two reloaded g value0 = Ok x).
Proof.
  intros one two st nodes1 nodes2 f value0.
  assert (∀ g, 0 <= g < 4 → g = 0 ∨ g = 1 ∨ g = 2 ∨ g = 3) as Hcases
    by (intros; lia).
  apply (C2_partition_invariance 4 2 SoA 4 f value0 one two nodes1 nodes2).
  - lia.
  - lia.
  - split.
    + intros g Hg. simpl. lia.
    + intros g g' _ _ _ Hloc. exact Hloc.
  - split.
    + intros g Hg.
      destruct (Hcases g Hg) as [->|[->|[->| ->]]]; vm_compute; repeat split;
        (lia || discriminate).
    + intros g g' Hg Hg'.
      destruct (Hcases g Hg) as [->|[->|[->| ->]]];
        destruct (Hcases g' Hg') as [->|[->|[->| ->]]];
        vm_compute; intros; (reflexivity || discriminate || lia).
  - split; [reflexivity|].
    intros [|r] st1 h1 Hr; simpl in Hr; [|done].
    injection Hr as <- <-. split; [reflexivity | vm_compute; discriminate].
  - split; [reflexivity|].
    intros [|[|r]] st1 h1 Hr; simpl in Hr; [| |done];
      injection Hr as <- <-; (split; [reflexivity | vm_compute; discriminate]).
  - reflexivity.
  - intros g _. reflexivity.
Defined.


(** ** The halo exchange *)

Lemma flip_sign_length (sizeof_real_t : Z) v :
  length (flip_sign sizeof_real_t v) = length v.
Proof. apply length_imap. Qed.

(** The sign flip changes the last byte of whole scalars only: the bytes of
    an element behind its last whole scalar are kept. *)
Lemma flip_sign_tail (sizeof_T sizeof_real_t : Z) v :
  0 < sizeof_T → 0 < sizeof_real_t → is_value sizeof_T v →
  drop (Z.to_nat (t_elements sizeof_T sizeof_real_t * sizeof_real_t))
       (flip_sign sizeof_real_t v)
  = drop (Z.to_nat (t_elements sizeof_T sizeof_real_t * sizeof_real_t)) v.
Proof.
  intros HsT HsR Hv. unfold is_value in Hv.
  pose proof (elems_nonneg _ _ HsT HsR) as Hel.
  pose proof (Z.div_mod sizeof_T sizeof_real_t) as Hdm.
  pose proof (Z.mod_pos_bound sizeof_T sizeof_real_t HsR) as Hmod.
  unfold t_elements in *.
  set (q := sizeof_T / sizeof_real_t) in *.
  apply list_eq. intros k. rewrite !lookup_drop.
  unfold flip_sign. rewrite list_lookup_imap.
  destruct (v !! (Z.to_nat (q * sizeof_real_t) + k)%nat) eqn:E; [|done].
  simpl. f_equal. apply lookup_lt_Some in E.
  rewrite decide_False; [done|].
  replace (Z.of_nat (Z.to_nat (q * sizeof_real_t) + k) + 1)
    with (Z.of_nat k + 1 + q * sizeof_real_t) by lia.
  rewrite Z.mod_add by lia. rewrite Z.mod_small; lia.
Qed.

Lemma halo_transform_value (sizeof_T sizeof_real_t : Z) bc hs v :
  is_value sizeof_T v →
  is_value sizeof_T (halo_transform sizeof_real_t bc hs v).
Proof.
  unfold is_value, halo_transform. intros Hv.
  destruct (wraparound hs); [destruct bc|]; simpl; try done.
  by rewrite flip_sign_length.
Qed.

(** A transformed value is read back as it was stored. *)
Lemma halo_transform_readback (sizeof_T sizeof_real_t : Z) ly bc hs v value0 :
  0 < sizeof_T → 0 < sizeof_real_t → is_value sizeof_T v →
  readback sizeof_T sizeof_real_t ly v value0 = v →
  readback sizeof_T sizeof_real_t ly (halo_transform sizeof_real_t bc hs v)
           value0
  = halo_transform sizeof_real_t bc hs v.
Proof.
  intros HsT HsR Hv Hrb. unfold halo_transform.
  destruct (wraparound hs); [destruct bc|]; simpl; try done.
  destruct ly; simpl in *; [done|].
  set (n := Z.to_nat (t_elements sizeof_T sizeof_real_t * sizeof_real_t)) in *.
  assert (drop n value0 = drop n v) as ->.
  { apply (app_inv_head (take n v)). by rewrite Hrb, take_drop. }
  unfold n. rewrite <- (flip_sign_tail sizeof_T sizeof_real_t v) by done.
  apply take_drop.
Qed.

Section Halo.

Variables sizeof_T sizeof_real_t : Z.

Hypothesis HsT : 0 < sizeof_T.
Hypothesis HsR : 0 < sizeof_real_t.

Variables (ly : layout) (st : field_storage) (fas : Z) (value0 : list byte).
Variables (bc : boundary_condition) (hs : halo_set).

Hypothesis Haddr : addressable sizeof_T sizeof_real_t ly fas.
Hypothesis Hv0 : is_value sizeof_T value0.

(** What a copy leaves at the sites, when no target is listed twice and
    no origin is a target of an earlier pair. *)
Lemma copy_sites_spec pairs :
  Forall (λ gs : Z * Z, 0 <= gs.1 < fas ∧ 0 <= gs.2 < fas) pairs →
  NoDup pairs.*1 →
  (∀ (j q : nat) gs gs',
      (j < q)%nat → pairs !! j = Some gs → pairs !! q = Some gs' →
      gs'.2 ≠ gs.1) →
  ∀ h : heap,
    allocated sizeof_T sizeof_real_t ly st h fas →
    ∃ h',
      copy_sites sizeof_T sizeof_real_t ly st fas value0
                 (halo_transform sizeof_real_t bc hs) pairs h = Ok h'
      ∧ allocated sizeof_T sizeof_real_t ly st h' fas
      ∧ (∀ b', fieldbuf st ≠ Some b' → h' !! b' = h !! b')
      ∧ (∀ gs, gs ∈ pairs →
               ∃ v, get sizeof_T sizeof_real_t ly st gs.2 fas value0 h = Ok v
                    ∧ get sizeof_T sizeof_real_t ly st gs.1 fas value0 h'
                      = Ok (halo_transform sizeof_real_t bc hs v))
      ∧ (∀ i, 0 <= i < fas → i ∉ pairs.*1 →
              get sizeof_T sizeof_real_t ly st i fas value0 h'
              = get sizeof_T sizeof_real_t ly st i fas value0 h).
Proof.
  induction pairs as [|[g s] rest IH]; intros Hin Hnd Hord h Hal.
  - exists h. repeat split; try done. by intros gs ?%elem_of_nil.
  - apply Forall_cons_1 in Hin as [[Hg Hs] Hin]. simpl in Hg, Hs.
    rewrite fmap_cons in Hnd. apply NoDup_cons in Hnd as [Hfresh Hnd].
    simpl in Hfresh.
    destruct (get_Ok _ _ HsT HsR ly st h fas s value0) as (v & Hget & Hv);
      try done.
    pose proof (halo_transform_value sizeof_T sizeof_real_t bc hs v Hv) as Htv.
    destruct (set_Ok _ _ HsT HsR ly st h fas g
                (halo_transform sizeof_real_t bc hs v))
      as (b & buf' & Hst & Hset & Hal1); try done.
    destruct (IH Hin Hnd) with (h := <[b := buf']> h)
      as (h' & Hrun & Hal' & Hblocks & Hpairs & Hframe); [|done|].
    { intros j q gs gs' Hjq Hj Hq.
      apply (Hord (S j) (S q) gs gs'); [lia | done | done]. }
    exists h'. simpl. rewrite Hget. simpl. rewrite Hset. simpl.
    split; [exact Hrun|]. split; [done|]. split; [|split].
    + intros b' Hb'. rewrite Hblocks by done.
      by apply (set_other_block _ _ _ _ _ _ _ _ _ _ Hset).
    + intros gs [->|Hgs]%elem_of_cons.
      * exists v. split; [done|]. simpl.
        rewrite Hframe by done.
        rewrite (get_set_same _ _ HsT HsR ly st h _ fas g _ value0) by done.
        f_equal. apply halo_transform_readback; try done.
        by apply (get_readback_fixed _ _ HsT HsR ly st h fas s value0).
      * destruct (Hpairs gs Hgs) as (v' & Hget' & Hgs').
        exists v'. split; [|done]. rewrite <- Hget'. symmetry.
        rewrite Forall_forall in Hin. destruct (Hin gs Hgs) as [_ Hs'].
        apply (get_set_other _ _ HsT HsR ly st h _ fas g gs.2
                 (halo_transform sizeof_real_t bc hs v));
          try done.
        apply list_elem_of_lookup_1 in Hgs as [q Hq].
        intros Heq. by apply (Hord 0%nat (S q) (g, s) gs); [lia | | |].
    + intros i Hi Hni.
      apply not_elem_of_cons in Hni as [Hne Hni]. simpl in Hne.
      rewrite Hframe by done.
      by apply (get_set_other _ _ HsT HsR ly st h _ fas g i
                  (halo_transform sizeof_real_t bc hs v)).
Qed.

End Halo.

(** The local copy of the degenerate case. *)
Lemma exchange_local_spec (sizeof_T sizeof_real_t : Z) ly st bc hs lattice
      value0 (net : network) (h : heap) :
  0 < sizeof_T → 0 < sizeof_real_t →
  allocated sizeof_T sizeof_real_t ly st h (field_alloc_size lattice) →
  addressable sizeof_T sizeof_real_t ly (field_alloc_size lattice) →
  is_value sizeof_T value0 →
  indices_ok (field_alloc_size lattice) (ghost_sites hs) →
  indices_ok (field_alloc_size lattice) (boundary_sites hs) →
  length (ghost_sites hs) = length (boundary_sites hs) →
  NoDup (ghost_sites hs) →
  (∀ g s, g ∈ ghost_sites hs → s ∈ boundary_sites hs → s ≠ g) →
  ∃ h',
    exchange_local sizeof_T sizeof_real_t ly st bc hs lattice value0 net h
    = Ok (net, h')
    ∧ (∀ b', fieldbuf st ≠ Some b' → h' !! b' = h !! b')
    ∧ (∀ (j : nat) g s,
          ghost_sites hs !! j = Some g → boundary_sites hs !! j = Some s →
          ∃ v, get sizeof_T sizeof_real_t ly st s (field_alloc_size lattice)
                   value0 h = Ok v
               ∧ get sizeof_T sizeof_real_t ly st g (field_alloc_size lattice)
                     value0 h'
                 = Ok (halo_transform sizeof_real_t bc hs v))
    ∧ (∀ i, 0 <= i < field_alloc_size lattice → i ∉ ghost_sites hs →
            get sizeof_T sizeof_real_t ly st i (field_alloc_size lattice)
                value0 h'
            = get sizeof_T sizeof_real_t ly st i (field_alloc_size lattice)
                  value0 h).
Proof.
  intros HsT HsR Hal Haddr Hv0 Hig Hib Hlen Hnd Hdisj.
  unfold indices_ok in Hig, Hib. rewrite Forall_forall in Hig, Hib.
  destruct (copy_sites_spec sizeof_T sizeof_real_t HsT HsR ly st
              (field_alloc_size lattice) value0 bc hs Haddr Hv0
              (zip (ghost_sites hs) (boundary_sites hs)))
    with (h := h) as (h' & Hrun & _ & Hblocks & Hpairs & Hframe); try done.
  { apply Forall_forall. intros [g s] Hgs. simpl. split.
    - apply Hig. by apply elem_of_zip_l in Hgs.
    - apply Hib. by apply elem_of_zip_r in Hgs. }
  { rewrite fst_zip by lia. done. }
  { intros j q [g s] [g' s'] _ Hj%list_elem_of_lookup_2
           Hq%list_elem_of_lookup_2. simpl.
    apply Hdisj; [by apply elem_of_zip_l in Hj | by apply elem_of_zip_r in Hq]. }
  exists h'. unfold exchange_local. rewrite Hrun. simpl.
  split; [done|]. split; [done|]. split.
  - intros j g s Hg Hs.
    apply (Hpairs (g, s)). apply (list_elem_of_lookup_2 _ j).
    rewrite lookup_zip_with, Hg. simpl. by rewrite Hs.
  - intros i Hi Hni. apply Hframe; [done|]. by rewrite fst_zip by lia.
Qed.

(** The exchange between two partitions: one buffer of [L * sizeof(T)]
    bytes is sent, and every ghost slot then reads the transformed value of
    the boundary site of the neighbour that it mirrors. *)
Lemma exchange_spec (sizeof_T sizeof_real_t : Z) ly st_n bn sb (h_n : heap)
      out st b rb (h : heap) rbuf bc hs lattice value0 (net : network) :
  0 < sizeof_T → 0 < sizeof_real_t →
  fieldbuf st_n = Some bn → sb ≠ bn → h_n !! sb = Some out →
  Z.of_nat (length (boundary_sites hs)) * sizeof_T <= Z.of_nat (length out) →
  allocated sizeof_T sizeof_real_t ly st_n h_n (field_alloc_size lattice) →
  fieldbuf st = Some b → rb ≠ b → h !! rb = Some rbuf →
  Z.of_nat (length (boundary_sites hs)) * sizeof_T <= Z.of_nat (length rbuf) →
  allocated sizeof_T sizeof_real_t ly st h (field_alloc_size lattice) →
  addressable sizeof_T sizeof_real_t ly (field_alloc_size lattice) →
  field_alloc_size lattice <= INT_MAX →
  is_value sizeof_T value0 →
  indices_ok (field_alloc_size lattice) (ghost_sites hs) →
  indices_ok (field_alloc_size lattice) (boundary_sites hs) →
  length (ghost_sites hs) = length (boundary_sites hs) →
  NoDup (ghost_sites hs) →
  ∃ message h_n' h',
    exchange sizeof_T sizeof_real_t ly st_n (Some sb) h_n st (Some rb) bc hs
             lattice value0 net h
    = Ok (net ++ [message], h_n', h')
    ∧ Z.of_nat (length message)
      = Z.of_nat (length (boundary_sites hs)) * sizeof_T
    ∧ (∀ (j : nat) g s,
          ghost_sites hs !! j = Some g → boundary_sites hs !! j = Some s →
          ∃ v, get sizeof_T sizeof_real_t ly st_n s (field_alloc_size lattice)
                   value0 h_n = Ok v
               ∧ get sizeof_T sizeof_real_t ly st g (field_alloc_size lattice)
                     value0 h'
                 = Ok (halo_transform sizeof_real_t bc hs v))
    ∧ (∀ i, 0 <= i < field_alloc_size lattice → i ∉ ghost_sites hs →
            get sizeof_T sizeof_real_t ly st i (field_alloc_size lattice)
                value0 h'
            = get sizeof_T sizeof_real_t ly st i (field_alloc_size lattice)
                  value0 h).
Proof.
  intros HsT HsR Hstn Hnen Hsb Hlo Haln Hst Hne Hrb Hlr Hal Haddr Hfas Hv0
         Hig Hib Hlen Hnd.
  set (fas := field_alloc_size lattice) in *.
  set (n := Z.of_nat (length (boundary_sites hs)) * sizeof_T) in *.
  assert (0 <= n) as Hn by (unfold n; nia).
  (* start_get: the boundary sites are packed and sent *)
  destruct (gather_loop_spec sizeof_T sizeof_real_t)
    with (ly := ly) (st := st_n) (b := bn) (bb := sb) (fas := fas)
         (value0 := value0) (index_list := boundary_sites hs) (j := 0)
         (h := h_n) (out := out)
    as (out' & Hgather & Hlo' & Hslots & _); try done; try lia.
  set (message := take (Z.to_nat n) out').
  assert (read_bytes out' 0 n = Some message) as Hmsg.
  { rewrite read_bytes_Some by lia. by rewrite drop_0. }
  assert (Z.of_nat (length message) = n) as Hml
    by (unfold message; rewrite length_take; lia).
  (* wait: the receive completes *)
  destruct (write_bytes rbuf 0 message) as [rbuf'|] eqn:Hw;
    [|by rewrite write_bytes_Some in Hw by lia].
  pose proof (write_bytes_length _ _ _ _ Hw) as Hlr'.
  pose proof (read_write_same_len _ _ _ _ n Hw Hml) as Hrd.
  assert (take (Z.to_nat n) rbuf' = take (Z.to_nat n) out') as Htake.
  { rewrite read_bytes_Some in Hrd by lia. rewrite drop_0 in Hrd.
    by injection Hrd. }
  (* the scatter into the ghost slots *)
  destruct (place_loop_spec sizeof_T sizeof_real_t)
    with (ly := ly) (st := st) (b := b) (bb := rb) (fas := fas)
         (value0 := value0) (out := rbuf') (index_list := ghost_sites hs)
         (j := 0) (h := <[rb := rbuf']> h)
    as (h2 & Hplace & Hal2 & Hrb2 & Hlast & Hframe2); try done; try lia.
  { by apply allocated_insert_buffer with b. }
  { apply lookup_insert_eq. }
  (* the transformation of the copied ghost values *)
  unfold indices_ok in Hig. rewrite Forall_forall in Hig.
  destruct (copy_sites_spec sizeof_T sizeof_real_t HsT HsR ly st fas value0
              bc hs Haddr Hv0 (zip (ghost_sites hs) (ghost_sites hs)))
    with (h := h2) as (h3 & Hrun & _ & _ & Hpairs & Hframe3); try done.
  { apply Forall_forall. intros [g s] Hgs. simpl. split.
    - apply Hig. by apply elem_of_zip_l in Hgs.
    - apply Hig. by apply elem_of_zip_r in Hgs. }
  { by rewrite fst_zip. }
  { intros j q [g s] [g' s'] Hjq Hj Hq. simpl.
    rewrite lookup_zip_with in Hj, Hq.
    destruct (ghost_sites hs !! j) as [x|] eqn:Ej; [|done].
    destruct (ghost_sites hs !! q) as [y|] eqn:Eq; [|done].
    simpl in Hj, Hq. injection Hj as <- _. injection Hq as _ <-.
    intros ->. pose proof (NoDup_lookup _ _ _ _ Hnd Ej Eq). lia. }
  exists message, (<[sb := out']> h_n), h3.
  split; [|split; [done|split]].
  - unfold exchange, start_get, gather_elements. fold fas. rewrite Hgather.
    simpl. rewrite (load_block sb _ out') by apply lookup_insert_eq.
    fold n. rewrite Hmsg. simpl.
    unfold wait. rewrite (store_block rb h rbuf 0 message rbuf' Hrb Hw).
    simpl. unfold place_elements. fold fas. rewrite Hplace. simpl.
    by rewrite Hrun.
  - intros j g s Hg Hs.
    unfold indices_ok in Hib. rewrite Forall_forall in Hib.
    assert (0 <= s < fas) as Hsr
      by (apply Hib; by apply list_elem_of_lookup_2 with j).
    destruct (get_Ok _ _ HsT HsR ly st_n h_n fas s value0)
      as (v & Hgetn & Hv); try done.
    exists v. split; [done|].
    pose proof (Hslots j s Hs) as Hslot. rewrite Hgetn in Hslot.
    replace (0 + Z.of_nat j) with (Z.of_nat j) in Hslot by lia.
    destruct (Hlast j g Hg) as (x & Hx & Hg2).
    { intros q u' Hjq Hq ->. pose proof (NoDup_lookup _ _ _ _ Hnd Hg Hq). lia. }
    replace (0 + Z.of_nat j) with (Z.of_nat j) in Hx by lia.
    apply lookup_lt_Some in Hs.
    rewrite (read_bytes_prefix out' rbuf' n) in Hx; try done; try lia;
      [|unfold n; nia].
    rewrite Hx in Hslot. simpl in Hslot. injection Hslot as ->.
    rewrite (get_readback_fixed _ _ HsT HsR ly st_n h_n fas s value0 v)
      in Hg2 by done.
    destruct (Hpairs (g, g)) as (v' & Hv' & Hg3).
    { apply (list_elem_of_lookup_2 _ j).
      rewrite lookup_zip_with, Hg. done. }
    simpl in Hv', Hg3. rewrite Hg2 in Hv'. by injection Hv' as <-.
  - intros i Hi Hni. rewrite Hframe3; [|done|by rewrite fst_zip].
    rewrite Hframe2 by done.
    by apply (get_insert_buffer sizeof_T sizeof_real_t ly st b rb fas value0).
Qed.



(** * Further properties of the storage *)

(** ** The whole buffer after [set] *)

Section Buffers.

Variables sizeof_T sizeof_real_t : Z.

Local Abbreviation sT := sizeof_T.
Local Abbreviation sR := sizeof_real_t.
Local Abbreviation elems := (t_elements sizeof_T sizeof_real_t).

Hypothesis HsT : 0 < sT.
Hypothesis HsR : 0 < sR.

(** Two blocks of [n] scalars with the same scalars are equal. *)
Lemma scalars_ext (buf1 buf2 : list byte) (n : Z) :
  0 <= n →
  Z.of_nat (length buf1) = n * sR → Z.of_nat (length buf2) = n * sR →
  (∀ q, 0 <= q < n →
        read_bytes buf1 (q * sR) sR = read_bytes buf2 (q * sR) sR) →
  buf1 = buf2.
Proof.
  intros Hn Hl1 Hl2 Hq.
  pose proof (chunks_prefix_ext sR buf1 buf2 (Z.to_nat n) HsR) as Hpre.
  rewrite Z2Nat.id in Hpre by lia.
  rewrite !take_ge in Hpre by lia.
  apply Hpre; [lia | lia | done].
Qed.

(** Every scalar of the structure-of-arrays buffer after [set(v, i)]. *)
Lemma set_soa_scalars st b (h : heap) buf fas i v :
  fieldbuf st = Some b → h !! b = Some buf →
  Z.of_nat (length buf) = elems * sR * fas →
  elems * fas <= INT_MAX + 1 →
  0 <= i < fas → is_value sT v →
  ∃ buf', set_soa sT sR st v i fas h = Ok (<[b := buf']> h)
          ∧ length buf' = length buf
          ∧ ∀ q, 0 <= q < elems * fas →
                 read_bytes buf' (q * sR) sR
                 = if decide (q mod fas = i)
                   then read_bytes v (q / fas * sR) sR
                   else read_bytes buf (q * sR) sR.
Proof.
  intros Hst Hb Hlen Haddr Hi Hv.
  destruct (set_soa_spec sT sR HsT HsR st b h buf fas i v)
    as (buf' & Hset & Hl & Hin & Hout); try done.
  exists buf'. split; [done|]. split; [done|].
  intros q Hq. case_decide as Hmod.
  - pose proof (Z.div_mod q fas ltac:(lia)) as Hdm.
    assert (0 <= q / fas) by (apply Z.div_pos; lia).
    assert (q / fas < elems) by nia.
    replace (q * sR) with ((q / fas * fas + i) * sR) by nia.
    apply Hin. lia.
  - apply Hout. intros e He.
    apply scalar_ranges_disjoint; [done|].
    intros ->. apply Hmod.
    rewrite Z.add_comm, Z.mod_add by lia. apply Z.mod_small. lia.
Qed.

End Buffers.

(** ** How [set] calls compose *)

(** X1: a second [set] at the same site overwrites the first: the memory
    after [set(v1, i)] and [set(v2, i)] is the memory after [set(v2, i)]
    alone, in both layouts. *)
Theorem set_overwrites (sizeof_T sizeof_real_t : Z) ly st (h : heap) fas i
        v1 v2 :
  0 < sizeof_T → 0 < sizeof_real_t →
  allocated sizeof_T sizeof_real_t ly st h fas →
  addressable sizeof_T sizeof_real_t ly fas →
  0 <= i < fas → is_value sizeof_T v1 → is_value sizeof_T v2 →
  ∃ h1 h2,
    set sizeof_T sizeof_real_t ly st v1 i fas h = Ok h1
    ∧ set sizeof_T sizeof_real_t ly st v2 i fas h1 = Ok h2
    ∧ set sizeof_T sizeof_real_t ly st v2 i fas h = Ok h2.
Proof.
  intros HsT HsR Hal Haddr Hi Hv1 Hv2.
  pose proof Hal as (b & buf & Hst & Hb & Hlen)%allocated_inv.
  destruct ly; simpl in *.
  - destruct (set_aos_spec sizeof_T HsT st b h buf fas i v1) as (buf1 & Hs1 & Hw1);
      try done.
    pose proof (write_bytes_length _ _ _ _ Hw1) as Hl1.
    destruct (set_aos_spec sizeof_T HsT st b (<[b := buf1]> h) buf1 fas i v2)
      as (buf2 & Hs2 & Hw2); try done;
      [apply lookup_insert_eq | lia |].
    destruct (set_aos_spec sizeof_T HsT st b h buf fas i v2) as (buf2' & Hs2' & Hw2');
      try done.
    exists (<[b := buf1]> h), (<[b := buf2]> (<[b := buf1]> h)).
    split; [done|]. split; [done|].
    rewrite Hs2', insert_insert_eq. do 2 f_equal.
    apply list_eq. intros k.
    rewrite (write_bytes_lookup _ _ _ _ k Hw2').
    rewrite (write_bytes_lookup _ _ _ _ k Hw2).
    rewrite (write_bytes_lookup _ _ _ _ k Hw1).
    unfold is_value in *. repeat case_decide; (done || lia).
  - pose proof (elems_nonneg _ _ HsT HsR) as Hel.
    destruct (set_soa_scalars _ _ HsT HsR st b h buf fas i v1)
      as (buf1 & Hs1 & Hl1 & Hq1); try done.
    destruct (set_soa_scalars _ _ HsT HsR st b (<[b := buf1]> h) buf1 fas i v2)
      as (buf2 & Hs2 & Hl2 & Hq2); try done;
      [apply lookup_insert_eq | lia |].
    destruct (set_soa_scalars _ _ HsT HsR st b h buf fas i v2)
      as (buf2' & Hs2' & Hl2' & Hq2'); try done.
    exists (<[b := buf1]> h), (<[b := buf2]> (<[b := buf1]> h)).
    split; [done|]. split; [done|].
    rewrite Hs2', insert_insert_eq. do 2 f_equal.
    apply (scalars_ext sizeof_real_t HsR) with (n := t_elements sizeof_T sizeof_real_t * fas);
      [nia | lia | lia |].
    intros q Hq. rewrite Hq2', Hq2, Hq1 by done.
    by repeat case_decide.
Qed.

Lemma set_overwrites_witness :
  let st := {| fieldbuf := Some 1%positive |} in
  let h : heap := {[ 1%positive := [x10; x11; x20; x21; x12; x13; x22; x23] ]} in
  ∃ h1 h2,
    set 4 2 SoA st [x01; x02; x03; x04] 1 2 h = Ok h1
    ∧ set 4 2 SoA st [xa1; xa2; xa3; xa4] 1 2 h1 = Ok h2
    ∧ set 4 2 SoA st [xa1; xa2; xa3; xa4] 1 2 h = Ok h2.
Proof.
  intros st h.
  apply (set_overwrites 4 2 SoA st h 2 1);
    [lia | lia | reflexivity | vm_compute; discriminate | lia
    | reflexivity | reflexivity].
Defined.

(** X2: [set] calls at two different sites commute: both orders leave the
    same memory, in both layouts. *)
Theorem set_commutes (sizeof_T sizeof_real_t : Z) ly st (h : heap) fas i j
        v w :
  0 < sizeof_T → 0 < sizeof_real_t →
  allocated sizeof_T sizeof_real_t ly st h fas →
  addressable sizeof_T sizeof_real_t ly fas →
  0 <= i < fas → 0 <= j < fas → i ≠ j →
  is_value sizeof_T v → is_value sizeof_T w →
  ∃ hi hj h2,
    set sizeof_T sizeof_real_t ly st v i fas h = Ok hi
    ∧ set sizeof_T sizeof_real_t ly st w j fas hi = Ok h2
    ∧ set sizeof_T sizeof_real_t ly st w j fas h = Ok hj
    ∧ set sizeof_T sizeof_real_t ly st v i fas hj = Ok h2.
Proof.
  intros HsT HsR Hal Haddr Hi Hj Hne Hv Hw.
  pose proof Hal as (b & buf & Hst & Hb & Hlen)%allocated_inv.
  destruct ly; simpl in *.
  - destruct (set_aos_spec sizeof_T HsT st b h buf fas i v) as (bi & Hsi & Hwi);
      try done.
    pose proof (write_bytes_length _ _ _ _ Hwi) as Hli.
    destruct (set_aos_spec sizeof_T HsT st b (<[b := bi]> h) bi fas j w)
      as (bij & Hsij & Hwij); try done; [apply lookup_insert_eq | lia |].
    destruct (set_aos_spec sizeof_T HsT st b h buf fas j w) as (bj & Hsj & Hwj);
      try done.
    pose proof (write_bytes_length _ _ _ _ Hwj) as Hlj.
    destruct (set_aos_spec sizeof_T HsT st b (<[b := bj]> h) bj fas i v)
      as (bji & Hsji & Hwji); try done; [apply lookup_insert_eq | lia |].
    exists (<[b := bi]> h), (<[b := bj]> h), (<[b := bij]> (<[b := bi]> h)).
    split; [done|]. split; [done|]. split; [done|].
    rewrite Hsji, !insert_insert_eq. do 2 f_equal.
    apply list_eq. intros k.
    rewrite (write_bytes_lookup _ _ _ _ k Hwji).
    rewrite (write_bytes_lookup _ _ _ _ k Hwij).
    rewrite (write_bytes_lookup _ _ _ _ k Hwi).
    rewrite (write_bytes_lookup _ _ _ _ k Hwj).
    unfold is_value in *. repeat case_decide; (done || nia).
  - pose proof (elems_nonneg _ _ HsT HsR) as Hel.
    destruct (set_soa_scalars _ _ HsT HsR st b h buf fas i v)
      as (bi & Hsi & Hli & Hqi); try done.
    destruct (set_soa_scalars _ _ HsT HsR st b (<[b := bi]> h) bi fas j w)
      as (bij & Hsij & Hlij & Hqij); try done;
      [apply lookup_insert_eq | lia |].
    destruct (set_soa_scalars _ _ HsT HsR st b h buf fas j w)
      as (bj & Hsj & Hlj & Hqj); try done.
    destruct (set_soa_scalars _ _ HsT HsR st b (<[b := bj]> h) bj fas i v)
      as (bji & Hsji & Hlji & Hqji); try done;
      [apply lookup_insert_eq | lia |].
    exists (<[b := bi]> h), (<[b := bj]> h), (<[b := bij]> (<[b := bi]> h)).
    split; [done|]. split; [done|]. split; [done|].
    rewrite Hsji, !insert_insert_eq. do 2 f_equal.
    apply (scalars_ext sizeof_real_t HsR) with (n := t_elements sizeof_T sizeof_real_t * fas);
      [nia | lia | lia |].
    intros q Hq. rewrite Hqji, Hqij, Hqi, Hqj by done.
    repeat case_decide; (done || lia).
Qed.

Lemma set_commutes_witness :
  let st := {| fieldbuf := Some 1%positive |} in
  let h : heap := {[ 1%positive := [x10; x11; x12; x13; x20; x21; x22; x23] ]} in
  ∃ hi hj h2,
    set 4 2 AoS st [x01; x02; x03; x04] 0 2 h = Ok hi
    ∧ set 4 2 AoS st [xa1; xa2; xa3; xa4] 1 2 hi = Ok h2
    ∧ set 4 2 AoS st [xa1; xa2; xa3; xa4] 1 2 h = Ok hj
    ∧ set 4 2 AoS st [x01; x02; x03; x04] 0 2 hj = Ok h2.
Proof.
  intros st h.
  apply (set_commutes 4 2 AoS st h 2 0 1);
    [lia | lia | reflexivity | exact I | lia | lia | lia
    | reflexivity | reflexivity].
Defined.

(** X3: storing back the value that [get] returned changes nothing: after
    [v = get(i)], [set(v, i)] returns and leaves the memory as it was, in
    both layouts. *)
Theorem set_of_get_is_identity (sizeof_T sizeof_real_t : Z) ly st (h : heap)
        fas i value0 :
  0 < sizeof_T → 0 < sizeof_real_t →
  allocated sizeof_T sizeof_real_t ly st h fas →
  addressable sizeof_T sizeof_real_t ly fas →
  0 <= i < fas → is_value sizeof_T value0 →
  ∃ v, get sizeof_T sizeof_real_t ly st i fas value0 h = Ok v
       ∧ set sizeof_T sizeof_real_t ly st v i fas h = Ok h.
Proof.
  intros HsT HsR Hal Haddr Hi Hv0.
  destruct (get_Ok _ _ HsT HsR ly st h fas i value0) as (v & Hget & _);
    try done.
  exists v. split; [done|].
  by apply (set_get_id _ _ HsT HsR ly st h fas i value0 v).
Qed.

Lemma set_of_get_is_identity_witness :
  let st := {| fieldbuf := Some 1%positive |} in
  let h : heap := {[ 1%positive := [x10; x11; x20; x21; x12; x13; x22; x23] ]} in
  ∃ v, get 4 2 SoA st 1 2 [x00; x00; x00; x00] h = Ok v
       ∧ set 4 2 SoA st v 1 2 h = Ok h.
Proof.
  intros st h.
  apply (set_of_get_is_identity 4 2 SoA st h 2 1);
    [lia | lia | reflexivity | vm_compute; discriminate | lia | reflexivity].
Defined.

(** ** What the calls never touch *)

Lemma store_keeps_sizes p off d (h h' : heap) b :
  store p off d h = Ok h' → length <$> (h' !! b) = length <$> (h !! b).
Proof.
  intros (b0 & buf & buf' & -> & Hb0 & Hw & ->)%store_inv.
  unfold block in *.
  destruct (decide (b0 = b)) as [->|Hne].
  - rewrite lookup_insert_eq, Hb0. simpl.
    by rewrite (write_bytes_length _ _ _ _ Hw).
  - by rewrite lookup_insert_ne.
Qed.

Lemma set_keeps_sizes (sizeof_T sizeof_real_t : Z) ly st v i fas (h h' : heap) b :
  set sizeof_T sizeof_real_t ly st v i fas h = Ok h' →
  length <$> (h' !! b) = length <$> (h !! b).
Proof.
  destruct ly; simpl.
  - unfold set_aos. destruct (read_bytes v 0 sizeof_T) as [x|]; [|done]. simpl.
    apply store_keeps_sizes.
  - unfold set_soa. destruct (assert _); [|done]. simpl.
    generalize (Z.to_nat (t_elements sizeof_T sizeof_real_t)) as n.
    generalize 0 as e. intros e n. revert e h.
    induction n as [|n IH]; intros e h; simpl.
    + by intros [= <-].
    + destruct (read_bytes v _ _) as [x|]; [|done]. simpl.
      destruct (soa_index e fas i) as [k|]; [|done]. simpl.
      destruct (store _ _ x h) as [h1|] eqn:Hst; [|done]. simpl.
      intros Hrun. rewrite (IH _ _ Hrun). by eapply store_keeps_sizes.
Qed.

(** X4: [set] at a site of the field returns, writes nothing outside the
    buffer of its storage and changes the size of no block: every other
    block is unchanged and every block has the size it had, in both
    layouts. *)
Theorem set_touches_only_its_buffer (sizeof_T sizeof_real_t : Z) ly st v i fas
        (h : heap) :
  0 < sizeof_T → 0 < sizeof_real_t →
  allocated sizeof_T sizeof_real_t ly st h fas →
  addressable sizeof_T sizeof_real_t ly fas →
  0 <= i < fas → is_value sizeof_T v →
  ∃ h',
    set sizeof_T sizeof_real_t ly st v i fas h = Ok h'
    ∧ (∀ b, fieldbuf st ≠ Some b → h' !! b = h !! b)
    ∧ (∀ b, length <$> (h' !! b) = length <$> (h !! b)).
Proof.
  intros HsT HsR Hal Haddr Hi Hv.
  destruct (set_Ok _ _ HsT HsR ly st h fas i v) as (b0 & buf' & _ & Hset & _);
    try done.
  eexists. split; [exact Hset|]. split.
  - intros b Hne. by eapply set_other_block.
  - intros b. by eapply set_keeps_sizes.
Qed.

Lemma set_touches_only_its_buffer_witness :
  let st := {| fieldbuf := Some 1%positive |} in
  let h : heap :=
    {[ 1%positive := [x10; x11; x20; x21; x12; x13; x22; x23];
       2%positive := [xaa; xbb] ]} in
  ∃ h',
    set 4 2 SoA st [x01; x02; x03; x04] 0 2 h = Ok h'
    ∧ (∀ b, fieldbuf st ≠ Some b → h' !! b = h !! b)
    ∧ (∀ b, length <$> (h' !! b) = length <$> (h !! b)).
Proof.
  intros st h.
  apply (set_touches_only_its_buffer 4 2 SoA st [x01; x02; x03; x04] 0 2 h);
    [lia | lia | reflexivity | vm_compute; discriminate | lia | reflexivity].
Defined.

Lemma gather_loop_other_blocks (sizeof_T sizeof_real_t : Z) ly st buffer fas
      value0 index_list :
  ∀ j (h h' : heap),
    gather_loop sizeof_T sizeof_real_t ly st buffer fas value0 index_list j h
    = Ok h' →
    (∀ b, buffer ≠ Some b → h' !! b = h !! b)
    ∧ (∀ b, length <$> (h' !! b) = length <$> (h !! b)).
Proof.
  induction index_list as [|u rest IH]; intros j h h'; simpl.
  - by intros [= <-].
  - destruct (get _ _ ly st _ fas value0 h) as [x|]; [|done]. simpl.
    destruct (read_bytes x 0 sizeof_T) as [y|]; [|done]. simpl.
    destruct (store buffer (j * sizeof_T) y h) as [h1|] eqn:Hst; [|done].
    simpl. intros Hrun. destruct (IH _ _ _ Hrun) as [Hother Hsize]. split.
    + intros b Hne. rewrite Hother by done. by eapply store_other_block.
    + intros b. rewrite Hsize. by eapply store_keeps_sizes.
Qed.

Lemma place_loop_other_blocks (sizeof_T sizeof_real_t : Z) ly st buffer fas
      index_list :
  ∀ j (h h' : heap),
    place_loop sizeof_T sizeof_real_t ly st buffer fas index_list j h = Ok h' →
    (∀ b, fieldbuf st ≠ Some b → h' !! b = h !! b)
    ∧ (∀ b, length <$> (h' !! b) = length <$> (h !! b)).
Proof.
  induction index_list as [|u rest IH]; intros j h h'; simpl.
  - by intros [= <-].
  - destruct (load buffer _ _ h) as [x|]; [|done]. simpl.
    destruct (set _ _ ly st x _ fas h) as [h1|] eqn:Hset; [|done].
    simpl. intros Hrun. destruct (IH _ _ _ Hrun) as [Hother Hsize]. split.
    + intros b Hne. rewrite Hother by done. by eapply set_other_block.
    + intros b. rewrite Hsize. by eapply set_keeps_sizes.
Qed.



(** ** The life cycle of the buffer *)

Lemma allocate_then_free_restores_heap_aux (sizeof_T sizeof_real_t : Z) ly
      junk lattice st (h : heap) :
  ∃ st' h',
    allocate_field sizeof_T sizeof_real_t ly (Some junk) lattice st h
    = Ok (st', h')
    ∧ fieldbuf st' ≠ None
    ∧ free_field st' h' = Ok (new_storage, h).
Proof.
  unfold allocate_field, malloc. simpl.
  eexists _, _. split; [done|]. split; [done|].
  unfold free_field, free. simpl. unfold block in *.
  rewrite lookup_insert_eq. simpl.
  rewrite delete_insert_id by apply fresh_block_unused. done.
Qed.

(** X6: [allocate_field] followed by [free_field] gives back the heap as it
    was before the allocation and leaves the buffer pointer null, in both
    layouts, whatever the storage pointed to before. *)
Theorem allocate_then_free_restores_heap (sizeof_T sizeof_real_t : Z) ly junk
        lattice st (h : heap) :
  ∃ st' h',
    allocate_field sizeof_T sizeof_real_t ly (Some junk) lattice st h
    = Ok (st', h')
    ∧ fieldbuf st' ≠ None
    ∧ free_field st' h' = Ok (new_storage, h).
Proof. apply allocate_then_free_restores_heap_aux. Qed.

(** X7: [allocate_field] never releases the buffer the storage already
    owns: after a second allocation the old block is still live with its
    contents, the storage no longer points to it, and [free_field]
    releases the new block only. *)
Theorem allocate_twice_leaks (sizeof_T sizeof_real_t : Z) ly junk lattice st
        (h : heap) b buf :
  fieldbuf st = Some b → h !! b = Some buf →
  ∃ st' h',
    allocate_field sizeof_T sizeof_real_t ly (Some junk) lattice st h
    = Ok (st', h')
    ∧ fieldbuf st' ≠ Some b
    ∧ h' !! b = Some buf
    ∧ ∃ h'', free_field st' h' = Ok (new_storage, h'')
             ∧ h'' !! b = Some buf.
Proof.
  intros Hst Hb.
  destruct (allocate_then_free_restores_heap_aux sizeof_T sizeof_real_t ly junk
              lattice st h) as (st' & h' & Halloc & Hfresh & Hfree).
  exists st', h'. split; [done|].
  unfold allocate_field, malloc in Halloc. simpl in Halloc.
  injection Halloc as <- <-. simpl.
  assert (fresh (dom h) ≠ b) as Hne.
  { intros Heq. pose proof (fresh_block_unused h) as Hf.
    unfold block in *. congruence. }
  split; [congruence|]. unfold block in *.
  split; [by rewrite lookup_insert_ne|].
  exists h. done.
Qed.

Lemma allocate_twice_leaks_witness :
  let st := {| fieldbuf := Some 1%positive |} in
  let h : heap := {[ 1%positive := [x10; x11; x12; x13] ]} in
  ∃ st' h',
    allocate_field 4 2 AoS (Some []) {| field_alloc_size := 1 |} st h
    = Ok (st', h')
    ∧ fieldbuf st' ≠ Some 1%positive
    ∧ h' !! 1%positive = Some [x10; x11; x12; x13]
    ∧ ∃ h'', free_field st' h' = Ok (new_storage, h'')
             ∧ h'' !! 1%positive = Some [x10; x11; x12; x13].
Proof.
  intros st h.
  apply (allocate_twice_leaks 4 2 AoS [] {| field_alloc_size := 1 |} st h
           1%positive [x10; x11; x12; x13]); reflexivity.
Defined.

(** An access through a pointer that is null or dangling. *)
Lemma load_without_block p off n (h : heap) :
  (∀ b, p = Some b → h !! b = None) → load p off n h = Fail Undefined.
Proof.
  intros Hdead. unfold load. destruct p as [b|]; [|done]. simpl.
  by rewrite (Hdead b eq_refl).
Qed.

Lemma store_without_block p off d (h : heap) :
  (∀ b, p = Some b → h !! b = None) → store p off d h = Fail Undefined.
Proof.
  intros Hdead. unfold store. destruct p as [b|]; [|done]. simpl.
  by rewrite (Hdead b eq_refl).
Qed.

Lemma load_fails_undefined p off n (h : heap) f :
  load p off n h = Fail f → f = Undefined.
Proof.
  intros Hl. pose proof (load_not_aborted p off n h) as Hna.
  rewrite Hl in Hna. destruct f; simpl in Hna; tauto.
Qed.

Lemma store_fails_undefined p off d (h : heap) f :
  store p off d h = Fail f → f = Undefined.
Proof.
  intros Hs. pose proof (store_not_aborted p off d h) as Hna.
  rewrite Hs in Hna. destruct f; simpl in Hna; tauto.
Qed.

Section First_access.

Variables sizeof_T sizeof_real_t : Z.

Hypothesis HsT : 0 < sizeof_T.
Hypothesis HsR : 0 < sizeof_real_t.
Hypothesis Hfits : sizeof_real_t <= sizeof_T.

Lemma elems_positive : 1 <= t_elements sizeof_T sizeof_real_t.
Proof.
  unfold t_elements.
  pose proof (Z.div_le_mono sizeof_real_t sizeof_T sizeof_real_t HsR Hfits).
  rewrite Z.div_same in H by lia. done.
Qed.

Lemma soa_index_first fas i :
  INT_MIN <= i <= INT_MAX → soa_index 0 fas i = Ok i.
Proof.
  intros Hi. unfold soa_index. rewrite Z.mul_0_l.
  rewrite (int_val_Ok 0) by (unfold INT_MIN, INT_MAX; lia).
  change (int_val (0 + i) = Ok i). by apply int_val_Ok.
Qed.

(** When the first access fails, the call is undefined. *)
Lemma get_first_access_fails ly st i fas value0 (h : heap) :
  i < fas → INT_MIN <= i <= INT_MAX →
  (∀ n, load (fieldbuf st) (i * sizeof_T) n h = Fail Undefined) →
  (∀ n, load (fieldbuf st) (i * sizeof_real_t) n h = Fail Undefined) →
  get sizeof_T sizeof_real_t ly st i fas value0 h = Fail Undefined.
Proof.
  intros Hi Hint HT HR. destruct ly; simpl.
  - unfold get_aos. apply HT.
  - unfold get_soa.
    assert ((i <? fas) = true) as -> by (apply Z.ltb_lt; lia).
    pose proof elems_positive as Hel.
    destruct (Z.to_nat (t_elements sizeof_T sizeof_real_t)) as [|n] eqn:Hn;
      [lia|].
    cbn [assert mbind result_bind get_soa_loop].
    rewrite soa_index_first by done.
    cbn [mbind result_bind]. by rewrite HR.
Qed.

Lemma set_first_access_fails ly st v i fas (h : heap) :
  i < fas → INT_MIN <= i <= INT_MAX →
  (∀ d, store (fieldbuf st) (i * sizeof_T) d h = Fail Undefined) →
  (∀ d, store (fieldbuf st) (i * sizeof_real_t) d h = Fail Undefined) →
  set sizeof_T sizeof_real_t ly st v i fas h = Fail Undefined.
Proof.
  intros Hi Hint HT HR. destruct ly; simpl.
  - unfold set_aos. destruct (read_bytes v 0 sizeof_T) as [x|]; [|done].
    cbn [of_option mbind result_bind]. apply HT.
  - unfold set_soa.
    assert ((i <? fas) = true) as -> by (apply Z.ltb_lt; lia).
    pose proof elems_positive as Hel.
    destruct (Z.to_nat (t_elements sizeof_T sizeof_real_t)) as [|n] eqn:Hn;
      [lia|].
    cbn [assert mbind result_bind set_soa_loop].
    destruct (read_bytes v _ _) as [x|]; [|done].
    cbn [of_option mbind result_bind].
    rewrite soa_index_first by done.
    cbn [mbind result_bind]. by rewrite HR.
Qed.

End First_access.

(** X8: after [free_field] every access is a null dereference: [get] and
    [set] at any site are undefined, in both layouts (the element holding
    at least one scalar). *)
Theorem access_after_free_is_undefined (sizeof_T sizeof_real_t : Z) ly st
        (h : heap) st' h' i fas v value0 :
  0 < sizeof_T → 0 < sizeof_real_t → sizeof_real_t <= sizeof_T →
  free_field st h = Ok (st', h') →
  0 <= i < fas → fas <= INT_MAX →
  get sizeof_T sizeof_real_t ly st' i fas value0 h' = Fail Undefined
  ∧ set sizeof_T sizeof_real_t ly st' v i fas h' = Fail Undefined.
Proof.
  intros HsT HsR Hfits Hfree Hi Hfas.
  assert (fieldbuf st' = None) as Hnull.
  { unfold free_field in Hfree.
    destruct (match fieldbuf st with Some b => free b h | None => Ok h end);
      [|done]. by injection Hfree as <- _. }
  assert (INT_MIN <= i <= INT_MAX) by (unfold INT_MIN; lia).
  split.
  - apply get_first_access_fails; try done; try lia;
      intros n; apply load_without_block; intros b Hb; congruence.
  - apply set_first_access_fails; try done; try lia;
      intros d; apply store_without_block; intros b Hb; congruence.
Qed.

Lemma access_after_free_is_undefined_witness :
  let st := {| fieldbuf := Some 1%positive |} in
  let h : heap := {[ 1%positive := [x10; x11; x20; x21; x12; x13; x22; x23] ]} in
  get 4 2 SoA new_storage 1 2 [x00; x00; x00; x00] ∅ = Fail Undefined
  ∧ set 4 2 SoA new_storage [x01; x02; x03; x04] 1 2 ∅ = Fail Undefined.
Proof.
  intros st h.
  apply (access_after_free_is_undefined 4 2 SoA st h new_storage ∅ 1 2);
    [lia | lia | lia | reflexivity | lia | by vm_compute].
Defined.

(** X9: the null guard of [free_field] protects the object only.  A copy
    of the storage made before the release still holds the pointer:
    [free_field] on the copy frees the block a second time, and [get] and
    [set] through the copy use a dangling pointer; all three are
    undefined. *)
Theorem free_through_a_copy_is_undefined (sizeof_T sizeof_real_t : Z) ly copy
        (h : heap) b i fas v value0 :
  0 < sizeof_T → 0 < sizeof_real_t → sizeof_real_t <= sizeof_T →
  fieldbuf copy = Some b → is_Some (h !! b) →
  0 <= i < fas → fas <= INT_MAX →
  ∃ h',
    free_field copy h = Ok (new_storage, h')
    ∧ free_field new_storage h' = Ok (new_storage, h')
    ∧ free_field copy h' = Fail Undefined
    ∧ get sizeof_T sizeof_real_t ly copy i fas value0 h' = Fail Undefined
    ∧ set sizeof_T sizeof_real_t ly copy v i fas h' = Fail Undefined.
Proof.
  intros HsT HsR Hfits Hb [buf Hbuf] Hi Hfas.
  exists (delete b h).
  assert (delete b h !! b = None) as Hgone by apply lookup_delete_eq.
  assert (INT_MIN <= i <= INT_MAX) by (unfold INT_MIN; lia).
  split; [unfold free_field, free; by rewrite Hb, Hbuf|].
  split; [done|].
  split; [unfold free_field, free; by rewrite Hb, Hgone|].
  split.
  - apply get_first_access_fails; try done; try lia;
      intros n; apply load_without_block; intros b' Hb'; congruence.
  - apply set_first_access_fails; try done; try lia;
      intros d; apply store_without_block; intros b' Hb'; congruence.
Qed.

Lemma free_through_a_copy_is_undefined_witness :
  let copy := {| fieldbuf := Some 1%positive |} in
  let h : heap := {[ 1%positive := [x10; x11; x12; x13; x20; x21; x22; x23] ]} in
  ∃ h',
    free_field copy h = Ok (new_storage, h')
    ∧ free_field new_storage h' = Ok (new_storage, h')
    ∧ free_field copy h' = Fail Undefined
    ∧ get 4 2 AoS copy 0 2 [] h' = Fail Undefined
    ∧ set 4 2 AoS copy [x01; x02; x03; x04] 0 2 h' = Fail Undefined.
Proof.
  intros copy h.
  apply (free_through_a_copy_is_undefined 4 2 AoS copy h 1%positive 0 2);
    [lia | lia | lia | reflexivity | by eexists | lia | by vm_compute].
Defined.

Lemma load_same_block b off n (h1 h2 : heap) :
  h1 !! b = h2 !! b → load (Some b) off n h1 = load (Some b) off n h2.
Proof. intros Heq. unfold load. simpl. by rewrite Heq. Qed.

(** X10: two storages allocated one after the other own different blocks;
    writing through the second, or releasing it, changes nothing that the
    first one reads. *)
Theorem separate_storages_do_not_interfere
        (sizeof_T1 sizeof_T2 sizeof_real_t : Z) ly junk1 junk2 lattice1 lattice2
        st1 st2 (h : heap) :
  ∃ s1 h1 s2 h2,
    allocate_field sizeof_T1 sizeof_real_t ly (Some junk1) lattice1 st1 h
    = Ok (s1, h1)
    ∧ allocate_field sizeof_T2 sizeof_real_t ly (Some junk2) lattice2 st2 h1
      = Ok (s2, h2)
    ∧ fieldbuf s1 ≠ fieldbuf s2
    ∧ (∀ j fas value0,
          get sizeof_T1 sizeof_real_t ly s1 j fas value0 h2
          = get sizeof_T1 sizeof_real_t ly s1 j fas value0 h1)
    ∧ (∀ v i fas' h3,
          set sizeof_T2 sizeof_real_t ly s2 v i fas' h2 = Ok h3 →
          ∀ j fas value0,
            get sizeof_T1 sizeof_real_t ly s1 j fas value0 h3
            = get sizeof_T1 sizeof_real_t ly s1 j fas value0 h1)
    ∧ (∀ s3 h3,
          free_field s2 h2 = Ok (s3, h3) →
          ∀ j fas value0,
            get sizeof_T1 sizeof_real_t ly s1 j fas value0 h3
            = get sizeof_T1 sizeof_real_t ly s1 j fas value0 h1).
Proof.
  unfold allocate_field, malloc. simpl.
  set (b1 := fresh (dom h)).
  set (buf1 := resize _ x00 junk1).
  set (h1 := <[b1 := buf1]> h).
  set (b2 := fresh (dom h1)).
  set (buf2 := resize _ x00 junk2).
  assert (b1 ≠ b2) as Hne.
  { intros Heq. pose proof (fresh_block_unused h1) as Hf.
    fold b2 in Hf. rewrite <- Heq in Hf. subst h1. unfold block in *.
    by rewrite lookup_insert_eq in Hf. }
  eexists _, h1, _, _. split; [done|]. split; [done|].
  split; [simpl; intros [= Heq]; by apply Hne|].
  assert (∀ h3 : heap, h3 !! b1 = h1 !! b1 →
            ∀ j fas value0,
              get sizeof_T1 sizeof_real_t ly {| fieldbuf := Some b1 |} j fas
                  value0 h3
              = get sizeof_T1 sizeof_real_t ly {| fieldbuf := Some b1 |} j fas
                    value0 h1) as Hget.
  { intros h3 Heq j fas value0. apply get_heap_ext. simpl.
    intros off n. by apply load_same_block. }
  assert ((<[b2 := buf2]> h1 : heap) !! b1 = h1 !! b1) as H21
    by (unfold block in *; by rewrite lookup_insert_ne).
  split; [by apply Hget|]. split.
  - intros v i fas' h3 Hset. apply Hget. rewrite <- H21.
    eapply set_other_block; [exact Hset|]. simpl.
    intros [= Heq]. apply Hne. by symmetry.
  - intros s3 h3 Hfree. apply Hget.
    unfold free_field, free in Hfree. simpl in Hfree. unfold block in *.
    rewrite lookup_insert_eq in Hfree. simpl in Hfree.
    injection Hfree as _ <-.
    rewrite lookup_delete_ne by done. exact H21.
Qed.

(** ** Edge cases of the structure-of-arrays layout *)

(** X11: an element type smaller than [real_t] has no scalar at all in the
    structure-of-arrays layout: [allocate_field] requests zero bytes,
    [set] stores nothing and leaves the memory as it is, and [get] returns
    the local [value] as it was before the loop, whatever the buffer. *)
Theorem soa_element_smaller_than_scalar (sizeof_T sizeof_real_t : Z) :
  0 < sizeof_T < sizeof_real_t →
  t_elements sizeof_T sizeof_real_t = 0
  ∧ (∀ lattice, alloc_request sizeof_T sizeof_real_t SoA lattice = 0)
  ∧ (∀ st (h : heap) i fas v value0,
        i < fas →
        set sizeof_T sizeof_real_t SoA st v i fas h = Ok h
        ∧ get sizeof_T sizeof_real_t SoA st i fas value0 h = Ok value0).
Proof.
  intros Hsmall.
  assert (t_elements sizeof_T sizeof_real_t = 0) as H0
    by (unfold t_elements; apply Z.div_small; lia).
  split; [done|]. split.
  - intros lattice. unfold alloc_request, size_mul. by rewrite H0.
  - intros st h i fas v value0 Hi. simpl. unfold set_soa, get_soa.
    assert ((i <? fas) = true) as -> by (apply Z.ltb_lt; lia).
    by rewrite H0.
Qed.

Lemma soa_element_smaller_than_scalar_witness :
  t_elements 4 8 = 0
  ∧ alloc_request 4 8 SoA {| field_alloc_size := 16 |} = 0
  ∧ set 4 8 SoA new_storage [x01; x02; x03; x04] 3 16 ∅ = Ok ∅
  ∧ get 4 8 SoA new_storage 3 16 [xaa; xbb; xcc; xdd] ∅
    = Ok [xaa; xbb; xcc; xdd].
Proof.
  destruct (soa_element_smaller_than_scalar 4 8) as (H0 & Hreq & Hacc); [lia|].
  split; [exact H0|]. split; [apply Hreq|].
  apply (Hacc new_storage ∅ 3 16). lia.
Defined.

(** A loop that returns has computed all its scalar indices. *)
Lemma get_soa_loop_Ok_indices (sizeof_real_t : Z) st i fas (h : heap) (n : nat) :
  ∀ e value v,
    get_soa_loop sizeof_real_t st i fas h n e value = Ok v →
    ∀ e', e <= e' < e + Z.of_nat n → ∃ k, soa_index e' fas i = Ok k.
Proof.
  induction n as [|n IH]; intros e value v Hrun e' He'; [lia|].
  simpl in Hrun.
  destruct (soa_index e fas i) as [k|] eqn:Hk; [|done]. simpl in Hrun.
  destruct (load _ _ _ h) as [x|]; [|done]. simpl in Hrun.
  destruct (write_bytes value _ x) as [value'|]; [|done]. simpl in Hrun.
  destruct (decide (e' = e)) as [->|]; [by exists k|].
  apply (IH _ _ _ Hrun). lia.
Qed.

Lemma set_soa_loop_Ok_indices (sizeof_real_t : Z) st v i fas (n : nat) :
  ∀ e (h h' : heap),
    set_soa_loop sizeof_real_t st v i fas n e h = Ok h' →
    ∀ e', e <= e' < e + Z.of_nat n → ∃ k, soa_index e' fas i = Ok k.
Proof.
  induction n as [|n IH]; intros e h h' Hrun e' He'; [lia|].
  simpl in Hrun.
  destruct (read_bytes v _ _) as [x|]; [|done]. simpl in Hrun.
  destruct (soa_index e fas i) as [k|] eqn:Hk; [|done]. simpl in Hrun.
  destruct (store _ _ x h) as [h1|]; [|done]. simpl in Hrun.
  destruct (decide (e' = e)) as [->|]; [by exists k|].
  apply (IH _ _ _ Hrun). lia.
Qed.

Lemma soa_index_overflow e fas i :
  INT_MAX < e * fas + i → ∀ k, soa_index e fas i ≠ Ok k.
Proof.
  intros Hov k Hk. unfold soa_index in Hk.
  destruct (int_val (e * fas)) as [k1|] eqn:Hk1; [|done]. simpl in Hk.
  apply int_val_inv in Hk1 as [-> _].
  apply int_val_inv in Hk as [_ ?]. lia.
Qed.

(** X12: the scalar index [e*field_alloc_size + i] is computed in [int].
    When it exceeds [INT_MAX] for some component [e] of a site (a field of
    more than [2^31] scalars) the structure-of-arrays [get] and [set] at
    that site are undefined: the signed overflow is reached, or an earlier
    access has already failed; the assertion does not catch it. *)
Theorem soa_index_overflow_is_undefined (sizeof_T sizeof_real_t : Z) st
        (h : heap) i fas e v value0 :
  i < fas → 0 <= e < t_elements sizeof_T sizeof_real_t →
  INT_MAX < e * fas + i →
  get sizeof_T sizeof_real_t SoA st i fas value0 h = Fail Undefined
  ∧ set sizeof_T sizeof_real_t SoA st v i fas h = Fail Undefined.
Proof.
  intros Hi He Hov. split.
  - apply not_Ok_not_aborted; [|by apply get_not_aborted].
    intros x Hx. simpl in Hx. unfold get_soa in Hx.
    destruct (assert (i <? fas)); [|done]. simpl in Hx.
    destruct (get_soa_loop_Ok_indices _ _ _ _ _ _ _ _ _ Hx e) as [k Hk]; [lia|].
    by apply (soa_index_overflow e fas i Hov k).
  - apply not_Ok_not_aborted; [|by apply set_not_aborted].
    intros h' Hx. simpl in Hx. unfold set_soa in Hx.
    destruct (assert (i <? fas)); [|done]. simpl in Hx.
    destruct (set_soa_loop_Ok_indices _ _ _ _ _ _ _ _ _ Hx e) as [k Hk]; [lia|].
    by apply (soa_index_overflow e fas i Hov k).
Qed.

(** An allocated buffer and a site whose first scalar, at scalar index
    [0 * INT_MAX + 1 = 1], is inside it and is read; the index of the second
    scalar, [1 * INT_MAX + 1], overflows. *)
Lemma soa_index_overflow_is_undefined_witness :
  let st := {| fieldbuf := Some 1%positive |} in
  let h : heap := {[ 1%positive := [x10; x11; x20; x21] ]} in
  (k ← soa_index 0 INT_MAX 1; load (fieldbuf st) (k * 2) 2 h)
  = Ok [x20; x21]
  ∧ soa_index 1 INT_MAX 1 = Fail Undefined
  ∧ get 4 2 SoA st 1 INT_MAX [x00; x00; x00; x00] h = Fail Undefined
  ∧ set 4 2 SoA st [x01; x02; x03; x04] 1 INT_MAX h = Fail Undefined.
Proof.
  intros st h. split; [reflexivity|]. split; [reflexivity|].
  apply (soa_index_overflow_is_undefined 4 2 st h 1 INT_MAX 1);
    by vm_compute.
Defined.

(** ** Indices outside the range of [int] *)

Lemma load_negative_offset p off n (h : heap) :
  off < 0 → load p off n h = Fail Undefined.
Proof.
  intros Hoff. unfold load. destruct p as [b|]; [|done]. simpl.
  destruct (h !! b) as [buf|]; [|done]. simpl.
  unfold read_bytes. destruct (in_bounds off n _) eqn:E; [|done].
  apply in_bounds_spec in E. lia.
Qed.

Lemma store_negative_offset p off d (h : heap) :
  off < 0 → store p off d h = Fail Undefined.
Proof.
  intros Hoff. unfold store. destruct p as [b|]; [|done]. simpl.
  destruct (h !! b) as [buf|]; [|done]. simpl.
  unfold write_bytes. destruct (in_bounds off _ _) eqn:E; [|done].
  apply in_bounds_spec in E. lia.
Qed.

(** X13: the entries of the index list are [unsigned] and are converted to
    [int].  An entry above [INT_MAX] becomes a negative index; it passes
    the structure-of-arrays assertion, and in both layouts
    [gather_elements] and [place_elements] then access memory before the
    buffer: both calls are undefined, not diagnosed. *)
Theorem index_above_INT_MAX_is_undefined (sizeof_T sizeof_real_t : Z) ly st
        buffer u rest lattice value0 (h : heap) :
  0 < sizeof_T → 0 < sizeof_real_t → sizeof_real_t <= sizeof_T →
  INT_MAX < u < 2 ^ 32 → 0 <= field_alloc_size lattice →
  int_of_unsigned u = u - 2 ^ 32
  ∧ gather_elements sizeof_T sizeof_real_t ly st buffer (u :: rest) lattice
                    value0 h = Fail Undefined
  ∧ place_elements sizeof_T sizeof_real_t ly st buffer (u :: rest) lattice h
    = Fail Undefined.
Proof.
  intros HsT HsR Hfits Hu Hfas.
  assert (int_of_unsigned u = u - 2 ^ 32) as Hconv.
  { unfold int_of_unsigned.
    assert ((u <=? INT_MAX) = false) as -> by (apply Z.leb_gt; lia). done. }
  assert (INT_MIN <= u - 2 ^ 32 < 0) as Hneg by (unfold INT_MIN, INT_MAX in *; lia).
  assert (INT_MIN <= u - 2 ^ 32 <= INT_MAX) by (unfold INT_MAX; lia).
  split; [done|]. split.
  - unfold gather_elements. simpl. rewrite Hconv.
    rewrite (get_first_access_fails sizeof_T sizeof_real_t HsR Hfits);
      [done | lia | done | |];
      intros n; apply load_negative_offset; nia.
  - unfold place_elements. simpl. rewrite Hconv.
    destruct (load buffer _ _ h) as [x|f] eqn:Hload.
    + simpl.
      rewrite (set_first_access_fails sizeof_T sizeof_real_t HsR Hfits);
        [done | lia | done | |];
        intros d; apply store_negative_offset; nia.
    + simpl. f_equal. by apply load_fails_undefined in Hload.
Qed.

Lemma index_above_INT_MAX_is_undefined_witness :
  let st := {| fieldbuf := Some 1%positive |} in
  let h : heap :=
    {[ 1%positive := [x10; x11; x20; x21; x12; x13; x22; x23];
       2%positive := replicate 8 x00 ]} in
  int_of_unsigned 4294967295 = 4294967295 - 2 ^ 32
  ∧ gather_elements 4 2 SoA st (Some 2%positive) [4294967295; 0]
                    {| field_alloc_size := 2 |} [x00; x00; x00; x00] h
    = Fail Undefined
  ∧ place_elements 4 2 SoA st (Some 2%positive) [4294967295; 0]
                   {| field_alloc_size := 2 |} h
    = Fail Undefined.
Proof.
  intros st h.
  apply (index_above_INT_MAX_is_undefined 4 2 SoA st (Some 2%positive)
           4294967295 [0] {| field_alloc_size := 2 |} [x00; x00; x00; x00] h);
    [lia | lia | lia | by vm_compute | simpl; lia].
Defined.

(** ** Round trips through the packed buffer *)

Lemma NoDup_last_occurrence (l : list Z) (p : nat) u :
  NoDup l → l !! p = Some u →
  ∀ (q : nat) u', (p < q)%nat → l !! q = Some u' → u' ≠ u.
Proof.
  intros Hnd Hp q u' Hpq Hq ->.
  pose proof (NoDup_lookup _ _ _ _ Hnd Hp Hq). lia.
Qed.

(** X14: the round trip in the other direction.  For an index list without
    repetitions and a layout that stores whole elements, [place_elements]
    from a buffer followed by [gather_elements] into the same buffer with
    the same list leaves the buffer, and the memory after the placement,
    exactly as they were. *)
Theorem place_gather_roundtrip (sizeof_T sizeof_real_t : Z) ly st b bb
        lattice index_list value0 (h : heap) out :
  0 < sizeof_T → 0 < sizeof_real_t →
  ly = AoS ∨ sizeof_T mod sizeof_real_t = 0 →
  fieldbuf st = Some b → bb ≠ b → h !! bb = Some out →
  allocated sizeof_T sizeof_real_t ly st h (field_alloc_size lattice) →
  addressable sizeof_T sizeof_real_t ly (field_alloc_size lattice) →
  field_alloc_size lattice <= INT_MAX →
  is_value sizeof_T value0 →
  indices_ok (field_alloc_size lattice) index_list → NoDup index_list →
  Z.of_nat (length index_list) * sizeof_T <= Z.of_nat (length out) →
  ∃ h1,
    place_elements sizeof_T sizeof_real_t ly st (Some bb) index_list lattice h
    = Ok h1
    ∧ h1 !! bb = Some out
    ∧ gather_elements sizeof_T sizeof_real_t ly st (Some bb) index_list lattice
                      value0 h1 = Ok h1.
Proof.
  intros HsT HsR Hexact Hst Hne Hbb Hal Haddr Hfas Hv0 Hidx Hnd Hlen.
  set (fas := field_alloc_size lattice) in *.
  destruct (place_loop_spec sizeof_T sizeof_real_t)
    with (ly := ly) (st := st) (b := b) (bb := bb) (fas := fas)
         (value0 := value0) (index_list := index_list) (j := 0) (h := h)
         (out := out)
    as (h1 & Hplace & Hal1 & Hbb1 & Hlast & _); try done; try lia.
  exists h1. split; [exact Hplace|]. split; [done|].
  destruct (gather_loop_spec sizeof_T sizeof_real_t)
    with (ly := ly) (st := st) (b := b) (bb := bb) (fas := fas)
         (value0 := value0) (index_list := index_list) (j := 0) (h := h1)
         (out := out)
    as (out' & Hgather & Hl & Hin & Hout); try done; try lia.
  unfold gather_elements. fold fas. rewrite Hgather. f_equal.
  assert (out' = out) as ->; [|by apply insert_id].
  set (N := Z.of_nat (length index_list) * sizeof_T) in *.
  transitivity (take (Z.to_nat N) out' ++ drop (Z.to_nat N) out');
    [symmetry; apply take_drop|].
  transitivity (take (Z.to_nat N) out ++ drop (Z.to_nat N) out);
    [|apply take_drop].
  f_equal.
  - apply chunks_prefix_ext; [done | lia | lia |].
    intros p Hp.
    destruct (lookup_lt_is_Some_2 index_list (Z.to_nat p)) as [u Hu]; [lia|].
    destruct (Hlast (Z.to_nat p) u Hu) as (x & Hx & Hget);
      [by apply NoDup_last_occurrence|].
    pose proof (Hin (Z.to_nat p) u Hu) as Hrd.
    rewrite Z2Nat.id in Hx, Hrd by lia.
    replace (0 + p) with p in Hx, Hrd by lia.
    rewrite Hget in Hrd.
    assert (readback sizeof_T sizeof_real_t ly x value0 = x) as Hrb.
    { destruct Hexact as [-> | Hmul]; [done|].
      apply readback_exact; try done.
      unfold is_value. by apply read_bytes_length in Hx. }
    rewrite Hrb in Hrd. rewrite Hx.
    destruct (read_bytes out' _ _); [|done]. by injection Hrd as ->.
  - apply drop_of_read_tail; [lia | done | lia |].
    apply Hout. right. lia.
Qed.

Lemma place_gather_roundtrip_witness :
  let st := {| fieldbuf := Some 1%positive |} in
  let out := [xa0; xa1; xa2; xa3; xb0; xb1; xb2; xb3] in
  let h : heap :=
    {[ 1%positive := [x10; x11; x20; x21; x12; x13; x22; x23];
       2%positive := out ]} in
  let lattice := {| field_alloc_size := 2 |} in
  ∃ h1,
    place_elements 4 2 SoA st (Some 2%positive) [1; 0] lattice h = Ok h1
    ∧ h1 !! 2%positive = Some out
    ∧ gather_elements 4 2 SoA st (Some 2%positive) [1; 0] lattice
                      [x00; x00; x00; x00] h1 = Ok h1.
Proof.
  intros st out h lattice.
  apply (place_gather_roundtrip 4 2 SoA st 1%positive 2%positive lattice
           [1; 0] [x00; x00; x00; x00] h out);
    [lia | lia | by right | reflexivity | discriminate | reflexivity
    | reflexivity | vm_compute; discriminate | vm_compute; discriminate
    | reflexivity | repeat constructor; simpl; lia
    | apply NoDup_cons; split;
      [intros Hin%list_elem_of_singleton; lia | apply NoDup_singleton]
    | simpl; lia].
Defined.





(** X17: the two layouts request the same number of bytes exactly when the
    element is made of whole scalars: the structure-of-arrays request is
    smaller by [sizeof(T) mod sizeof(real_t)] bytes for every site. *)
Theorem soa_request_is_smaller (sizeof_T sizeof_real_t : Z) lattice :
  0 < sizeof_T → 0 < sizeof_real_t → sizeof_T < SIZE_MODULUS →
  0 <= field_alloc_size lattice →
  sizeof_T * field_alloc_size lattice < SIZE_MODULUS →
  alloc_request sizeof_T sizeof_real_t AoS lattice
  - alloc_request sizeof_T sizeof_real_t SoA lattice
  = (sizeof_T mod sizeof_real_t) * field_alloc_size lattice.
Proof.
  intros HsT HsR HT Hfas Hfit.
  pose proof (elems_nonneg _ _ HsT HsR) as Hel.
  pose proof (elems_bytes_le sizeof_T sizeof_real_t HsR) as Hle.
  rewrite !alloc_request_exact; try done; simpl; [|nia].
  pose proof (Z.div_mod sizeof_T sizeof_real_t ltac:(lia)) as Hdm.
  unfold t_elements in *. nia.
Qed.

Lemma soa_request_is_smaller_witness :
  alloc_request 10 4 AoS {| field_alloc_size := 5 |}
  - alloc_request 10 4 SoA {| field_alloc_size := 5 |}
  = (10 mod 4) * 5.
Proof.
  apply (soa_request_is_smaller 10 4 {| field_alloc_size := 5 |});
    [lia | lia | by vm_compute | simpl; lia | by vm_compute].
Defined.

(** * Staggered phases *)

Lemma sumZ_nonneg (l : list Z) : Forall (λ x, 0 <= x) l → 0 <= sumZ l.
Proof. induction 1 as [|x l Hx _ IH]; simpl; lia. Qed.

Lemma sumZ_insert (l : list Z) (k : nat) x y :
  l !! k = Some x → sumZ (<[k := y]> l) = sumZ l - x + y.
Proof.
  revert k. induction l as [|z l IH]; intros [|k] Hk; simpl in *; try done.
  - injection Hk as ->. lia.
  - rewrite (IH _ Hk). lia.
Qed.

Lemma sum_coordinates_spec (l : list Z) (n : nat) :
  Forall (λ x, 0 <= x) l →
  ∀ d2 sumcoord,
    0 <= d2 → d2 + Z.of_nat n <= Z.of_nat (length l) →
    0 <= sumcoord →
    sumcoord + sumZ (take n (drop (Z.to_nat d2) l)) <= INT_MAX →
    sum_coordinates l n d2 sumcoord
    = Ok (sumcoord + sumZ (take n (drop (Z.to_nat d2) l))).
Proof.
  intros Hpos. induction n as [|n IH]; intros d2 s Hd2 Hlen Hs Hmax.
  - simpl. f_equal. lia.
  - destruct (lookup_lt_is_Some_2 l (Z.to_nat d2)) as [x Hx]; [lia|].
    assert (0 <= x) as Hx0
      by (rewrite Forall_forall in Hpos; apply Hpos;
          by apply list_elem_of_lookup_2 with (Z.to_nat d2)).
    rewrite (drop_S _ _ _ Hx) in Hmax |- *. simpl take in Hmax |- *.
    simpl sumZ in Hmax |- *.
    assert (drop (S (Z.to_nat d2)) l = drop (Z.to_nat (d2 + 1)) l) as Hdrop
      by (f_equal; lia).
    rewrite Hdrop in Hmax |- *.
    assert (0 <= sumZ (take n (drop (Z.to_nat (d2 + 1)) l))) as Hrest.
    { apply sumZ_nonneg. apply Forall_take, Forall_drop, Hpos. }
    simpl sum_coordinates. unfold coordinate.
    assert ((0 <=? d2) = true) as -> by (apply Z.leb_le; lia).
    rewrite Hx. simpl.
    rewrite int_val_Ok by (unfold INT_MIN; lia). simpl.
    rewrite IH by lia. f_equal. lia.
Qed.

(** The value at a site, for coordinates that are not negative. *)
Lemma staggered_eta_site_value (xup : Z) (l : list Z) (d : Z) :
  0 <= xup <= d → d <= Z.of_nat (length l) →
  Forall (λ x, 0 <= x) l →
  sumZ (coordinates_below xup l d) <= INT_MAX →
  staggered_eta_site xup l d
  = Ok (if Z.even (sumZ (coordinates_below xup l d)) then -1 else 1).
Proof.
  intros Hd Hlen Hpos Hmax. unfold staggered_eta_site, coordinates_below in *.
  rewrite sum_coordinates_spec by (done || lia). simpl.
  set (s := sumZ _) in *.
  assert (0 <= s) as Hs
    by (apply sumZ_nonneg; apply Forall_take, Forall_drop, Hpos).
  rewrite Z.add_0_l.
  rewrite Z.rem_mod_nonneg by lia.
  rewrite Zmod_even.
  destruct (Z.even s); by vm_compute.
Qed.

(** X18: for a site with non-negative coordinates, [init_staggered_eta]
    assigns to [staggered_eta[d]] the value [-1] when the sum of the
    coordinates in the directions below [d] is even and [+1] when it is
    odd; in the first direction the sum is empty and the value is [-1] at
    every site. *)
Theorem staggered_eta_sign (xup : Z) (l : list Z) (d : Z) :
  0 <= xup <= d → d <= Z.of_nat (length l) →
  Forall (λ x, 0 <= x) l →
  sumZ (coordinates_below xup l d) <= INT_MAX →
  staggered_eta_site xup l d
  = Ok (if Z.even (sumZ (coordinates_below xup l d)) then -1 else 1)
  ∧ staggered_eta_site xup l xup = Ok (-1).
Proof.
  intros Hd Hlen Hpos Hmax. split; [by apply staggered_eta_site_value|].
  unfold staggered_eta_site. by rewrite Z.sub_diag.
Qed.

Lemma staggered_eta_sign_witness :
  staggered_eta_site 0 [3; 1; 2; 5] 3 = Ok (-1)
  ∧ staggered_eta_site 0 [3; 1; 2; 5] 0 = Ok (-1).
Proof.
  apply (staggered_eta_sign 0 [3; 1; 2; 5] 3);
    [lia | simpl; lia | repeat constructor; lia | by vm_compute].
Defined.

(** X19: a step of one unit along a direction below [d] changes the sign
    of [staggered_eta[d]], and a step along [d] or a direction above it
    leaves it unchanged (for non-negative coordinates). *)
Theorem staggered_eta_neighbour (xup : Z) (l : list Z) (d : Z) (k : nat) x :
  0 <= xup <= d → d <= Z.of_nat (length l) →
  Forall (λ x, 0 <= x) l →
  sumZ (coordinates_below xup l d) < INT_MAX →
  l !! k = Some x →
  ∃ eta,
    staggered_eta_site xup l d = Ok eta
    ∧ (eta = -1 ∨ eta = 1)
    ∧ (xup <= Z.of_nat k < d →
       staggered_eta_site xup (<[k := x + 1]> l) d = Ok (- eta))
    ∧ (d <= Z.of_nat k →
       staggered_eta_site xup (<[k := x + 1]> l) d = Ok eta).
Proof.
  intros Hd Hlen Hpos Hmax Hk.
  assert (0 <= x) as Hx
    by (rewrite Forall_forall in Hpos; apply Hpos;
        by apply list_elem_of_lookup_2 with k).
  assert (Forall (λ x, 0 <= x) (<[k := x + 1]> l)) as Hpos'
    by (apply Forall_insert; [done | lia]).
  exists (if Z.even (sumZ (coordinates_below xup l d)) then -1 else 1).
  split; [apply staggered_eta_site_value; (done || lia)|].
  split; [destruct (Z.even _); lia|].
  split.
  - intros Hkd.
    assert (sumZ (coordinates_below xup (<[k := x + 1]> l) d)
            = sumZ (coordinates_below xup l d) + 1) as Hsum.
    { unfold coordinates_below.
      rewrite drop_insert_ge by lia. rewrite take_insert_lt by lia.
      rewrite (sumZ_insert _ _ x); [lia|].
      rewrite lookup_take_lt by lia. rewrite lookup_drop. rewrite <- Hk.
      f_equal. lia. }
    rewrite staggered_eta_site_value;
      [| done | by rewrite length_insert | done | lia].
    rewrite Hsum. f_equal.
    rewrite Z.even_add. simpl.
    destruct (Z.even (sumZ (coordinates_below xup l d))); done.
  - intros Hkd.
    assert (coordinates_below xup (<[k := x + 1]> l) d
            = coordinates_below xup l d) as Heq.
    { unfold coordinates_below.
      rewrite drop_insert_ge by lia. apply take_insert_ge. lia. }
    rewrite staggered_eta_site_value;
      [| done | by rewrite length_insert | done | rewrite Heq; lia].
    by rewrite Heq.
Qed.

Lemma staggered_eta_neighbour_witness :
  ∃ eta,
    staggered_eta_site 0 [3; 1; 2; 5] 3 = Ok eta
    ∧ (eta = -1 ∨ eta = 1)
    ∧ (0 <= Z.of_nat 1 < 3 →
       staggered_eta_site 0 (<[1%nat := 1 + 1]> [3; 1; 2; 5]) 3 = Ok (- eta))
    ∧ (3 <= Z.of_nat 1 →
       staggered_eta_site 0 (<[1%nat := 1 + 1]> [3; 1; 2; 5]) 3 = Ok eta).
Proof.
  apply (staggered_eta_neighbour 0 [3; 1; 2; 5] 3 1 1);
    [lia | simpl; lia | repeat constructor; lia | by vm_compute | reflexivity].
Defined.

(** * What [get] returns after [set] *)

(** X20: in the array-of-structures layout [get(i)] after [set(v, i)]
    returns [v].  In the structure-of-arrays layout it returns the first
    [(sizeof(T)/sizeof(real_t)) * sizeof(real_t)] bytes of [v], followed by
    the bytes that the local [value] of [get] held in the remaining
    positions before the loop: the tail of an element that is not made of
    whole scalars is never stored. *)
Theorem get_after_set_returns_the_stored_scalars (sizeof_T sizeof_real_t : Z)
        ly st (h : heap) fas i v value0 :
  0 < sizeof_T → 0 < sizeof_real_t →
  allocated sizeof_T sizeof_real_t ly st h fas →
  addressable sizeof_T sizeof_real_t ly fas →
  0 <= i < fas → is_value sizeof_T v → is_value sizeof_T value0 →
  let stored := Z.to_nat (sizeof_T / sizeof_real_t * sizeof_real_t) in
  ∃ h',
    set sizeof_T sizeof_real_t ly st v i fas h = Ok h'
    ∧ get sizeof_T sizeof_real_t ly st i fas value0 h'
      = Ok (match ly with
            | AoS => v
            | SoA => take stored v ++ drop stored value0
            end).
Proof.
  intros HsT HsR Hal Haddr Hi Hv Hv0 stored.
  destruct (set_Ok _ _ HsT HsR ly st h fas i v) as (b & buf' & _ & Hset & _);
    try done.
  eexists. split; [exact Hset|].
  rewrite (get_set_same _ _ HsT HsR ly st h _ fas i v value0) by done.
  by destruct ly.
Qed.

Lemma get_after_set_returns_the_stored_scalars_witness :
  let st := {| fieldbuf := Some 1%positive |} in
  let h : heap := {[ 1%positive := replicate 8 x00 ]} in
  ∃ h',
    set 5 2 SoA st [x01; x02; x03; x04; x05] 1 2 h = Ok h'
    ∧ get 5 2 SoA st 1 2 [xa1; xa2; xa3; xa4; xa5] h'
      = Ok (take (Z.to_nat (5 / 2 * 2)) [x01; x02; x03; x04; x05]
            ++ drop (Z.to_nat (5 / 2 * 2)) [xa1; xa2; xa3; xa4; xa5]).
Proof.
  intros st h.
  apply (get_after_set_returns_the_stored_scalars 5 2 SoA st h 2 1);
    [lia | lia | reflexivity | vm_compute; discriminate | lia
    | reflexivity | reflexivity].
Defined.
